(** * SlideShow: the live-update hook and the Google Drive mirror job

    A shallow embedding of
      - [client/src/hooks/useLocalMediaManager.js] (module [Hook]) and
      - the [GoogleDriveService] class (module [Drive]),
    followed by the properties the specification states about them. *)

From stdpp Require Import gmap strings list.
From Stdlib Require Import Ascii ZArith Lia.

Open Scope string_scope.
Open Scope list_scope.
Open Scope Z_scope.

(* ===================================================================== *)
(** * Part I. useLocalMediaManager.js                                     *)
(* ===================================================================== *)

Module Hook.

(** [MediaItem] of the JSDoc typedef. *)
Record MediaItem := {
  id : string;
  path : string;
  type : string
}.

(** The four values [webSocketStatus] takes. *)
Inductive ws_status := disconnected | connecting | connected | error.

(** [WebSocket.readyState]. *)
Inductive ready_state := CONNECTING | OPEN | CLOSING | CLOSED.

#[global] Instance ws_status_eq_dec : EqDecision ws_status.
Proof. solve_decision. Defined.
#[global] Instance ready_state_eq_dec : EqDecision ready_state.
Proof. solve_decision. Defined.

(** What [JSON.parse(event.data)] gives a message handler: either it throws,
    or it yields an envelope with a [type] and, for the playlist kinds, the
    [media] array.  Frames of a playlist kind without a [media] array are
    outside this model. *)
Inductive inbound :=
| Malformed
| Envelope (type : string) (media : list MediaItem).

(** A socket created by [connect]; its handlers are closures over the
    [isScheduleActive] and [isServerConnected] of the render that created
    that [connect]. *)
Record socket := {
  readyState : ready_state;
  sock_active : bool;
  sock_connected : bool
}.

(** A pending [setTimeout(connect, delay)]: its handle, its delay and the
    props the scheduled [connect] closure was created with. *)
Record timeout := {
  handle : nat;
  delay : Z;
  tm_active : bool;
  tm_connected : bool
}.

(** React state, refs, and the part of the browser the hook talks to. *)
Record hook := {
  (* useState *)
  allMedia : list MediaItem;
  currentIndex : Z;
  loading : bool;
  webSocketStatus : ws_status;
  serverReady : bool;
  (* useRef *)
  wsRef : option nat;
  reconnectTimerRef : option nat;
  reconnectAttemptsRef : Z;
  (* props of the last render *)
  isScheduleActive : bool;
  isServerConnected : bool;
  (* browser: every WebSocket created so far (a socket is named by its
     position), the pending timeouts, the next timer handle, the sockets
     whose keep-alive interval is still installed, and the pings sent *)
  sockets : list socket;
  timeouts : list timeout;
  next_handle : nat;
  pingIntervals : list nat;
  pings_sent : list nat
}.

(** Field updates: [set_x v h] is [h] after the assignment [x = v]. *)
Definition set_allMedia (v : list MediaItem) (h : hook) : hook :=
  Build_hook v (currentIndex h) (loading h) (webSocketStatus h) (serverReady
    h) (wsRef h) (reconnectTimerRef h) (reconnectAttemptsRef h)
    (isScheduleActive h) (isServerConnected h) (sockets h) (timeouts h)
    (next_handle h) (pingIntervals h) (pings_sent h).

Definition set_currentIndex (v : Z) (h : hook) : hook :=
  Build_hook (allMedia h) v (loading h) (webSocketStatus h) (serverReady h)
    (wsRef h) (reconnectTimerRef h) (reconnectAttemptsRef h)
    (isScheduleActive h) (isServerConnected h) (sockets h) (timeouts h)
    (next_handle h) (pingIntervals h) (pings_sent h).

Definition set_loading (v : bool) (h : hook) : hook :=
  Build_hook (allMedia h) (currentIndex h) v (webSocketStatus h)
    (serverReady h) (wsRef h) (reconnectTimerRef h) (reconnectAttemptsRef h)
    (isScheduleActive h) (isServerConnected h) (sockets h) (timeouts h)
    (next_handle h) (pingIntervals h) (pings_sent h).

Definition set_webSocketStatus (v : ws_status) (h : hook) : hook :=
  Build_hook (allMedia h) (currentIndex h) (loading h) v (serverReady h)
    (wsRef h) (reconnectTimerRef h) (reconnectAttemptsRef h)
    (isScheduleActive h) (isServerConnected h) (sockets h) (timeouts h)
    (next_handle h) (pingIntervals h) (pings_sent h).

Definition set_serverReady (v : bool) (h : hook) : hook :=
  Build_hook (allMedia h) (currentIndex h) (loading h) (webSocketStatus h) v
    (wsRef h) (reconnectTimerRef h) (reconnectAttemptsRef h)
    (isScheduleActive h) (isServerConnected h) (sockets h) (timeouts h)
    (next_handle h) (pingIntervals h) (pings_sent h).

Definition set_wsRef (v : option nat) (h : hook) : hook :=
  Build_hook (allMedia h) (currentIndex h) (loading h) (webSocketStatus h)
    (serverReady h) v (reconnectTimerRef h) (reconnectAttemptsRef h)
    (isScheduleActive h) (isServerConnected h) (sockets h) (timeouts h)
    (next_handle h) (pingIntervals h) (pings_sent h).

Definition set_reconnectTimerRef (v : option nat) (h : hook) : hook :=
  Build_hook (allMedia h) (currentIndex h) (loading h) (webSocketStatus h)
    (serverReady h) (wsRef h) v (reconnectAttemptsRef h) (isScheduleActive
    h) (isServerConnected h) (sockets h) (timeouts h) (next_handle h)
    (pingIntervals h) (pings_sent h).

Definition set_reconnectAttemptsRef (v : Z) (h : hook) : hook :=
  Build_hook (allMedia h) (currentIndex h) (loading h) (webSocketStatus h)
    (serverReady h) (wsRef h) (reconnectTimerRef h) v (isScheduleActive h)
    (isServerConnected h) (sockets h) (timeouts h) (next_handle h)
    (pingIntervals h) (pings_sent h).

Definition set_isScheduleActive (v : bool) (h : hook) : hook :=
  Build_hook (allMedia h) (currentIndex h) (loading h) (webSocketStatus h)
    (serverReady h) (wsRef h) (reconnectTimerRef h) (reconnectAttemptsRef h)
    v (isServerConnected h) (sockets h) (timeouts h) (next_handle h)
    (pingIntervals h) (pings_sent h).

Definition set_isServerConnected (v : bool) (h : hook) : hook :=
  Build_hook (allMedia h) (currentIndex h) (loading h) (webSocketStatus h)
    (serverReady h) (wsRef h) (reconnectTimerRef h) (reconnectAttemptsRef h)
    (isScheduleActive h) v (sockets h) (timeouts h) (next_handle h)
    (pingIntervals h) (pings_sent h).

Definition set_sockets (v : list socket) (h : hook) : hook :=
  Build_hook (allMedia h) (currentIndex h) (loading h) (webSocketStatus h)
    (serverReady h) (wsRef h) (reconnectTimerRef h) (reconnectAttemptsRef h)
    (isScheduleActive h) (isServerConnected h) v (timeouts h) (next_handle
    h) (pingIntervals h) (pings_sent h).

Definition set_timeouts (v : list timeout) (h : hook) : hook :=
  Build_hook (allMedia h) (currentIndex h) (loading h) (webSocketStatus h)
    (serverReady h) (wsRef h) (reconnectTimerRef h) (reconnectAttemptsRef h)
    (isScheduleActive h) (isServerConnected h) (sockets h) v (next_handle h)
    (pingIntervals h) (pings_sent h).

Definition set_next_handle (v : nat) (h : hook) : hook :=
  Build_hook (allMedia h) (currentIndex h) (loading h) (webSocketStatus h)
    (serverReady h) (wsRef h) (reconnectTimerRef h) (reconnectAttemptsRef h)
    (isScheduleActive h) (isServerConnected h) (sockets h) (timeouts h) v
    (pingIntervals h) (pings_sent h).

Definition set_pingIntervals (v : list nat) (h : hook) : hook :=
  Build_hook (allMedia h) (currentIndex h) (loading h) (webSocketStatus h)
    (serverReady h) (wsRef h) (reconnectTimerRef h) (reconnectAttemptsRef h)
    (isScheduleActive h) (isServerConnected h) (sockets h) (timeouts h)
    (next_handle h) v (pings_sent h).

Definition set_pings_sent (v : list nat) (h : hook) : hook :=
  Build_hook (allMedia h) (currentIndex h) (loading h) (webSocketStatus h)
    (serverReady h) (wsRef h) (reconnectTimerRef h) (reconnectAttemptsRef h)
    (isScheduleActive h) (isServerConnected h) (sockets h) (timeouts h)
    (next_handle h) (pingIntervals h) v.


(** [frontendConfig.websocket]: the configuration module is not part of the
    sources under study, its two constants are parameters of the model. *)
Record frontendConfig := {
  maxReconnectAttempts : Z;
  reconnectInterval : Z
}.

Definition set_readyState (r : ready_state) (s : socket) : socket :=
  {| readyState := r; sock_active := sock_active s;
     sock_connected := sock_connected s |}.

(** [ws.close()]: a socket that is connecting or open starts closing; the
    close event comes later, from the browser. *)
Definition close_call (s : socket) : socket :=
  match readyState s with
  | CONNECTING | OPEN => set_readyState CLOSING s
  | CLOSING | CLOSED => s
  end.

Definition ws_close (id : nat) (h : hook) : hook :=
  set_sockets (alter close_call id (sockets h)) h.

(** [if (wsRef.current) { wsRef.current.close(); wsRef.current = null; }] *)
Definition release_socket (h : hook) : hook :=
  match wsRef h with
  | Some id => set_wsRef None (ws_close id h)
  | None => h
  end.

Definition clearTimeout (t : nat) (h : hook) : hook :=
  set_timeouts (filter (λ tm, handle tm ≠ t) (timeouts h)) h.

(** [wsRef.current?.readyState === WebSocket.OPEN] *)
Definition current_is_open (h : hook) : bool :=
  match wsRef h with
  | Some id =>
      match sockets h !! id with
      | Some s => bool_decide (readyState s = OPEN)
      | None => false
      end
  | None => false
  end.

(** [connect], as created by a render with props [a] ([isScheduleActive])
    and [c] ([isServerConnected]).  The handlers it installs are the
    functions [onopen], [onmessage], [onerror] and [onclose] below. *)
Definition connect (a c : bool) (h : hook) : hook :=
  if negb a || negb c || current_is_open h then h
  else
    let h := release_socket h in
    let id := length (sockets h) in
    let ws := {| readyState := CONNECTING; sock_active := a;
                 sock_connected := c |} in
    let h := set_sockets (sockets h ++ [ws]) h in
    let h := set_wsRef (Some id) h in
    let h := set_webSocketStatus connecting h in
    set_pingIntervals (pingIntervals h ++ [id]) h.

Definition onopen (h : hook) : hook :=
  let h := set_webSocketStatus connected h in
  let h := set_serverReady true h in
  let h := set_reconnectAttemptsRef 0 h in
  match reconnectTimerRef h with
  | Some t => set_reconnectTimerRef None (clearTimeout t h)
  | None => h
  end.

Definition is_playlist_kind (ty : string) : bool :=
  bool_decide (ty = "mediaList") || bool_decide (ty = "mediaUpdate").

Definition onmessage (m : inbound) (h : hook) : hook :=
  match m with
  | Malformed => h
  | Envelope ty media =>
      if is_playlist_kind ty then
        let h := set_allMedia media h in
        let prev := currentIndex h in
        let h :=
          set_currentIndex
            (if prev >=? Z.of_nat (length media) then 0 else prev) h in
        set_loading false h
      else h
  end.

Definition onerror (h : hook) : hook :=
  set_webSocketStatus error h.

(** [onclose] of a socket whose [connect] was created with props [a], [c]. *)
Definition onclose (cfg : frontendConfig) (a c : bool) (h : hook) : hook :=
  let h := set_webSocketStatus disconnected h in
  let h := set_wsRef None h in
  if a && (reconnectAttemptsRef h <? maxReconnectAttempts cfg) then
    let h := set_reconnectAttemptsRef (reconnectAttemptsRef h + 1) h in
    let t := next_handle h in
    let tm := {| handle := t; delay := reconnectInterval cfg;
                 tm_active := a; tm_connected := c |} in
    let h := set_next_handle (S t) h in
    let h := set_timeouts (timeouts h ++ [tm]) h in
    set_reconnectTimerRef (Some t) h
  else h.

(** The keep-alive callback of socket [id]. *)
Definition ping (id : nat) (h : hook) : hook :=
  match sockets h !! id with
  | Some s =>
      if bool_decide (readyState s = OPEN)
      then set_pings_sent (pings_sent h ++ [id]) h
      else h
  | None => h
  end.

(** [ws.addEventListener('close', () => clearInterval(pingInterval))] *)
Definition clear_ping (id : nat) (h : hook) : hook :=
  set_pingIntervals (filter (λ i, i ≠ id) (pingIntervals h)) h.

(** [navigateMedia], with [allMedia.length] of the current render; [%] is
    the remainder that takes the sign of the dividend. *)
Definition navigateMedia (direction : string) (h : hook) : hook :=
  let len := Z.of_nat (length (allMedia h)) in
  if len =? 0 then h
  else
    let prev := currentIndex h in
    set_currentIndex
      (if bool_decide (direction = "next") then Z.rem (prev + 1) len
       else if bool_decide (direction = "previous")
            then Z.rem (prev - 1 + len) len
            else prev) h.

(** [allMedia[currentIndex] || null] *)
Definition getCurrentMedia (h : hook) : option MediaItem :=
  if currentIndex h <? 0 then None
  else allMedia h !! Z.to_nat (currentIndex h).

(** The [serverReady] field of the returned object. *)
Definition exposed_serverReady (h : hook) : bool :=
  serverReady h || (0 <? Z.of_nat (length (allMedia h))).

Definition totalMedia (h : hook) : Z := Z.of_nat (length (allMedia h)).

(** The body of the effect and its cleanup. *)
Definition effect (h : hook) : hook :=
  if isScheduleActive h && isServerConnected h
  then connect (isScheduleActive h) (isServerConnected h) h
  else release_socket h.

Definition cleanup (h : hook) : hook :=
  let h :=
    match reconnectTimerRef h with
    | Some t => clearTimeout t h
    | None => h
    end in
  release_socket h.

(** The hook before its first effect, and after it. Timer handles are
    positive, as in browsers, so that a stored handle is truthy. *)
Definition initial (a c : bool) : hook :=
  {| allMedia := []; currentIndex := 0; loading := true;
     webSocketStatus := disconnected; serverReady := false;
     wsRef := None; reconnectTimerRef := None; reconnectAttemptsRef := 0;
     isScheduleActive := a; isServerConnected := c;
     sockets := []; timeouts := []; next_handle := 1%nat;
     pingIntervals := []; pings_sent := [] |}.

Definition mount (a c : bool) : hook := effect (initial a c).

(** What can happen to a mounted hook. *)
Inductive event :=
| SockOpen (id : nat)
| SockMessage (id : nat) (m : inbound)
| SockError (id : nat)
| SockClose (id : nat)
| TimeoutFires (t : nat)
| PingTick (id : nat)
| Navigate (direction : string)
| Render (a c : bool).

(** One event. [None] when the browser cannot deliver the event in this
    state: an open event needs a connecting socket, a message an open one,
    error and close events a socket that is not closed yet, a timer callback
    a pending timer. *)
Definition step (cfg : frontendConfig) (h : hook) (e : event) : option hook :=
  match e with
  | SockOpen id =>
      match sockets h !! id with
      | Some s =>
          if bool_decide (readyState s = CONNECTING)
          then Some (onopen (set_sockets (alter (set_readyState OPEN) id
                                                (sockets h)) h))
          else None
      | None => None
      end
  | SockMessage id m =>
      match sockets h !! id with
      | Some s =>
          if bool_decide (readyState s = OPEN)
          then Some (onmessage m h)
          else None
      | None => None
      end
  | SockError id =>
      match sockets h !! id with
      | Some s =>
          if bool_decide (readyState s = CLOSED) then None
          else Some (onerror h)
      | None => None
      end
  | SockClose id =>
      match sockets h !! id with
      | Some s =>
          if bool_decide (readyState s = CLOSED) then None
          else
            let h := set_sockets (alter (set_readyState CLOSED) id
                                        (sockets h)) h in
            Some (clear_ping id
                    (onclose cfg (sock_active s) (sock_connected s) h))
      | None => None
      end
  | TimeoutFires t =>
      match list_find (λ tm, handle tm = t) (timeouts h) with
      | Some (_, tm) =>
          Some (connect (tm_active tm) (tm_connected tm) (clearTimeout t h))
      | None => None
      end
  | PingTick id =>
      if bool_decide (id ∈ pingIntervals h) then Some (ping id h) else None
  | Navigate d => Some (navigateMedia d h)
  | Render a c =>
      if bool_decide (a = isScheduleActive h)
         && bool_decide (c = isServerConnected h)
      then Some h
      else Some (effect (set_isServerConnected c
                           (set_isScheduleActive a (cleanup h))))
  end.

Fixpoint run (cfg : frontendConfig) (h : hook) (evs : list event)
  : option hook :=
  match evs with
  | [] => Some h
  | e :: evs' =>
      match step cfg h e with
      | Some h' => run cfg h' evs'
      | None => None
      end
  end.

Definition is_open (e : event) : bool :=
  match e with SockOpen _ => true | _ => false end.

Definition is_close (e : event) : bool :=
  match e with SockClose _ => true | _ => false end.

Definition keeps_active (e : event) : bool :=
  match e with Render a _ => a | _ => true end.

(** What a close event does to the attempt counter and to the timer handles
    handed out. *)
Definition after_close (cfg : frontendConfig) (h : hook) (s : socket)
  : Z * nat :=
  if sock_active s && (reconnectAttemptsRef h <? maxReconnectAttempts cfg)
  then (reconnectAttemptsRef h + 1, S (next_handle h))
  else (reconnectAttemptsRef h, next_handle h).

(** The close events of a run, counted. *)
Definition closes (evs : list event) : Z :=
  Z.of_nat (length (filter (λ e, is_close e = true) evs)).

(** The activation flag is, and has always been, true: the last render had
    it true and so had the renders whose [connect] created the sockets and
    the pending reconnects. *)
Definition held_active (h : hook) : Prop :=
  isScheduleActive h = true ∧
  Forall (λ s, sock_active s = true) (sockets h) ∧
  Forall (λ tm, tm_active tm = true) (timeouts h).

(** Before the first open event there is no open socket and no item. *)
Definition nothing_before_open (h : hook) : Prop :=
  serverReady h = false →
  allMedia h = [] ∧ Forall (λ s, readyState s ≠ OPEN) (sockets h).

(** ** Further vocabulary *)

(** The playlists carried by the messages of a run, in order. *)
Definition snapshot_of (e : event) : option (list MediaItem) :=
  match e with
  | SockMessage _ (Envelope ty media) =>
      if is_playlist_kind ty then Some media else None
  | _ => None
  end.

Definition snapshots (evs : list event) : list (list MediaItem) :=
  omap snapshot_of evs.


(** [navigateMedia direction], [k] times. *)
Definition navigate_times (direction : string) (k : nat) (h : hook) : hook :=
  Nat.iter k (navigateMedia direction) h.

(** Socket [id] exists and has not closed. *)
Definition live (l : list socket) (id : nat) : Prop :=
  ∃ s, l !! id = Some s ∧ readyState s ≠ CLOSED.

(** The keep-alive timers are those of the sockets that have not closed. *)
Definition keep_alive_follows_sockets (h : hook) : Prop :=
  NoDup (pingIntervals h) ∧
  ∀ id, id ∈ pingIntervals h ↔ live (sockets h) id.

(** The socket [wsRef] holds, if any, exists and has not closed. *)
Definition current_socket_alive (h : hook) : Prop :=
  ∀ id, wsRef h = Some id → live (sockets h) id.

(** Timer handles in use are older than the next one handed out. *)
Definition handles_fresh (h : hook) : Prop :=
  Forall (λ tm, (handle tm < next_handle h)%nat) (timeouts h).

(** Whether a render enables the connection. *)
Definition enables (e : event) : bool :=
  match e with Render a c => a && c | _ => false end.

(** A hook that has never been enabled. *)
Definition dormant (h : hook) : Prop :=
  isScheduleActive h && isServerConnected h = false ∧
  sockets h = [] ∧ timeouts h = [] ∧ pingIntervals h = [] ∧
  wsRef h = None ∧ reconnectTimerRef h = None ∧
  webSocketStatus h = disconnected ∧ serverReady h = false ∧
  allMedia h = [] ∧ loading h = true ∧ pings_sent h = [].

(** The three bookkeeping invariants of a mounted hook. *)
Definition tidy (h : hook) : Prop :=
  keep_alive_follows_sockets h ∧ current_socket_alive h ∧ handles_fresh h.

(** ** Scenarios

    Concrete hooks and configurations used to try the statements out. *)
Definition item (n : string) : MediaItem :=
  {| id := n; path := "/media/" +:+ n; type := "image" |}.

Definition three_items : hook :=
  set_currentIndex 2
    (onmessage (Envelope "mediaList" [item "a"; item "b"; item "c"])
               (mount true true)).

Definition two_retries : frontendConfig :=
  {| maxReconnectAttempts := 2; reconnectInterval := 5000 |}.

(** The server never answers: three sockets close, two reconnects fire. *)
Definition outage : list event :=
  [ SockClose 0; TimeoutFires 1; SockClose 1; TimeoutFires 2; SockClose 2 ].

(** A session: open, a playlist, an empty playlist, then the socket closes. *)
Definition session : list event :=
  [ SockOpen 0; SockMessage 0 (Envelope "mediaList" [item "a"]);
    SockMessage 0 (Envelope "mediaUpdate" []); SockClose 0 ].

End Hook.

(* ===================================================================== *)
(** * Part II. GoogleDriveService                                         *)
(* ===================================================================== *)

Module Drive.

(** A record of [files(id, name, mimeType, parents)]. *)
Record RemoteFile := {
  id : string;
  name : string;
  mimeType : string;
  parents : list string
}.

#[global] Instance RemoteFile_eq_dec : EqDecision RemoteFile.
Proof. solve_decision. Defined.

Definition FOLDER_MIME : string := "application/vnd.google-apps.folder".

Definition is_folder (file : RemoteFile) : bool :=
  bool_decide (mimeType file = FOLDER_MIME).

(** A thrown [Error], by its message. *)
Definition error := string.

(** How a promise of the environment settles. *)
Inductive outcome (A : Type) :=
| Resolves (a : A)
| Rejects (e : error).
Arguments Resolves {A} a.
Arguments Rejects {A} e.

(** Events of the two streams of a download: [response.data], the remote
    read stream, and [dest], the local write stream. *)
Inductive emitter := ResponseData | Dest.

Inductive event_name := EvOpen | EvData | EvEnd | EvFinish | EvError | EvClose.

Record stream_event := {
  ev_source : emitter;
  ev_name : event_name;
  ev_error : error          (* the argument of an ['error'] event *)
}.

#[global] Instance emitter_eq_dec : EqDecision emitter.
Proof. solve_decision. Defined.
#[global] Instance event_name_eq_dec : EqDecision event_name.
Proof. solve_decision. Defined.

(** ** Paths

    A POSIX path is modelled by the list of its components, a trailing
    separator by a last component [""].  The paths of the service are
    absolute: they are joined to [this.downloadPath], which comes out of
    [path.join(process.cwd(), ...)] (l.20). *)
Definition path := list string.

(** [s.split('/')] *)
Fixpoint segments (s : string) : list string :=
  match s with
  | EmptyString => [""]
  | String c s' =>
      if Ascii.eqb c "/"%char then "" :: segments s'
      else match segments s' with
           | seg :: rest => String c seg :: rest
           | [] => [String c ""]
           end
  end.

(** One segment of a path being normalised; [stack] holds the components
    so far, the innermost first.  Above the root [..] stays at the root. *)
Definition descend (stack : list string) (seg : string) : list string :=
  if decide (seg = "" ∨ seg = ".") then stack
  else if decide (seg = "..") then tail stack
  else seg :: stack.

(** [path.join(dir, name)], for an absolute and normalised [dir]: the two
    are put together and normalised; an empty [name] is left out. *)
Definition path_join (dir : path) (name : string) : path :=
  let stack := foldl descend (rev dir) (segments name) in
  rev stack
  ++ (if decide (stack ≠ [] ∧ name ≠ "" ∧ last (segments name) = Some "")
      then [""] else []).

(** A name a directory entry can have: one component, not [.] or [..]. *)
Definition plain (n : string) : bool :=
  bool_decide (segments n = [n] ∧ n ≠ "" ∧ n ≠ "." ∧ n ≠ "..").

(** The entry of the directory [dir] that the path [p] denotes, if [p]
    denotes one: [p] may also lie below an entry, or outside [dir]. *)
Definition entry_of (dir p : path) : option string :=
  if decide (take (length dir) p = dir) then
    match drop (length dir) p with
    | [n] => if plain n then Some n else None
    | _ => None
    end
  else None.

(** The service's collaborators.  Each request is answered according to the
    moment it is made (the number of requests made before it), so that an
    answer may change between attempts and passes.
    [isValidFile] (utils/fileValidator.js) and the configuration are not
    part of the sources under study: they are parameters. *)
Record Env := {
  (* drive.files.list for the children of a folder *)
  drive_files_list : nat → string → outcome (list RemoteFile);
  (* drive.files.get of a file: the request fails, or it yields a stream,
     and these are the events of that stream and of the write stream it is
     piped to, in the order they are emitted *)
  drive_files_get : nat → string → outcome (list stream_event);
  (* this.downloadPath (l.20), absolute and normalised *)
  downloadPath : path;
  (* fs.readdir(downloadPath) may fail *)
  fs_readdir_error : nat → option error;
  (* fs.remove(path) may fail *)
  fs_remove_error : nat → path → option error;
  (* fs.pathExists(path) for a path that is not an entry of downloadPath *)
  fs_exists_elsewhere : nat → path → bool;
  isValidFile : string → bool;
  config_google_folderId : string;
  config_sync_interval : Z
}.

Inductive level := INFO | WARN | ERROR.

(** The messages of the service, by template. *)
Inductive message :=
| Found_valid_files (n : nat)
| Downloaded (name : string)
| Failed_to_download_skipping (name : string) (e : error)
| Removed_local_file (name : string)
| Failed_to_remove (name : string) (e : error)
| Sync_attempt_failed (attempt : Z) (e : error)
| Max_retry_attempts_reached
| Failed_to_fetch_files (e : error)
| Failed_to_download_file (fileId : string) (e : error)
| Service_is_paused_not_starting
| Sync_failed (e : error)
| Pausing_service
| Resuming_service.

#[global] Instance level_eq_dec : EqDecision level.
Proof. solve_decision. Defined.
#[global] Instance message_eq_dec : EqDecision message.
Proof. solve_decision. Defined.

(** The fields of the service and what it acts on. *)
Record world := {
  clock : nat;                    (* requests made of the environment *)
  dir : gset string;              (* the entries of [downloadPath] *)
  log : list (level * message);
  waits : list Z;                 (* [setTimeout] delays awaited, in ms *)
  isPaused : bool;
  syncInterval : option nat;
  intervals : list (nat * Z);     (* live [setInterval]s: handle, period *)
  next_timer : nat
}.

Definition set_clock (v : nat) (w : world) : world :=
  Build_world v (dir w) (log w) (waits w) (isPaused w) (syncInterval w)
    (intervals w) (next_timer w).

Definition set_dir (v : gset string) (w : world) : world :=
  Build_world (clock w) v (log w) (waits w) (isPaused w) (syncInterval w)
    (intervals w) (next_timer w).

Definition set_log (v : list (level * message)) (w : world) : world :=
  Build_world (clock w) (dir w) v (waits w) (isPaused w) (syncInterval w)
    (intervals w) (next_timer w).

Definition set_waits (v : list Z) (w : world) : world :=
  Build_world (clock w) (dir w) (log w) v (isPaused w) (syncInterval w)
    (intervals w) (next_timer w).

Definition set_isPaused (v : bool) (w : world) : world :=
  Build_world (clock w) (dir w) (log w) (waits w) v (syncInterval w)
    (intervals w) (next_timer w).

Definition set_syncInterval (v : option nat) (w : world) : world :=
  Build_world (clock w) (dir w) (log w) (waits w) (isPaused w) v
    (intervals w) (next_timer w).

Definition set_intervals (v : list (nat * Z)) (w : world) : world :=
  Build_world (clock w) (dir w) (log w) (waits w) (isPaused w)
    (syncInterval w) v (next_timer w).

Definition set_next_timer (v : nat) (w : world) : world :=
  Build_world (clock w) (dir w) (log w) (waits w) (isPaused w)
    (syncInterval w) (intervals w) v.

(** ** Async functions as state transformers

    An [async] function either returns, throws, or awaits a promise that
    never settles ([Pending]).  [OutOfFuel] belongs to the model only: the
    folder walk is bounded by a fuel. *)
Inductive result (A : Type) :=
| Ok (a : A)
| Throw (e : error)
| Pending
| OutOfFuel.
Arguments Ok {A} a.
Arguments Throw {A} e.
Arguments Pending {A}.
Arguments OutOfFuel {A}.

Definition M (A : Type) : Type := world → result A * world.

Definition ret {A} (a : A) : M A := λ w, (Ok a, w).

Definition bind {A B} (m : M A) (f : A → M B) : M B :=
  λ w, match m w with
       | (Ok a, w') => f a w'
       | (Throw e, w') => (Throw e, w')
       | (Pending, w') => (Pending, w')
       | (OutOfFuel, w') => (OutOfFuel, w')
       end.

Definition throw {A} (e : error) : M A := λ w, (Throw e, w).
Definition never {A} : M A := λ w, (Pending, w).
Definition out_of_fuel {A} : M A := λ w, (OutOfFuel, w).

(** [try { m } catch (e) { h e }] *)
Definition try_catch {A} (m : M A) (h : error → M A) : M A :=
  λ w, match m w with
       | (Throw e, w') => h e w'
       | r => r
       end.

Definition update (f : world → world) : M unit := λ w, (Ok tt, f w).

Declare Scope drive_scope.
Delimit Scope drive_scope with drive.
Notation "'let*' x ':=' m 'in' f" := (bind m (λ x, f))
  (at level 10, x name, m at level 100, f at level 200) : drive_scope.
Notation "m '>>' f" := (bind m (λ _, f))
  (at level 90, right associativity) : drive_scope.
Open Scope drive_scope.

Definition logger (l : level) (m : message) : M unit :=
  update (λ w, set_log (log w ++ [(l, m)]) w).

(** [await new Promise(resolve => setTimeout(resolve, ms))] *)
Definition sleep (ms : Z) : M unit :=
  update (λ w, set_waits (waits w ++ [ms]) w).

Definition tick (w : world) : world := set_clock (S (clock w)) w.


Section Service.

Variable env : Env.

(** ** Requests *)

Definition settle {A} (o : outcome A) : M A :=
  match o with
  | Resolves a => ret a
  | Rejects e => throw e
  end.

(** [await this.drive.files.list({ q: `'${folderId}' in parents ...` })],
    down to [response.data.files] *)
Definition files_list (folderId : string) : M (list RemoteFile) :=
  λ w, settle (drive_files_list env (clock w) folderId) (tick w).

(** [await this.drive.files.get({ fileId, alt: 'media' }, ...)] *)
Definition files_get (fileId : string) : M (list stream_event) :=
  λ w, settle (drive_files_get env (clock w) fileId) (tick w).

(** [await fs.readdir(this.downloadPath)] *)
Definition readdir : M (list string) :=
  λ w, match fs_readdir_error env (clock w) with
       | Some e => (Throw e, tick w)
       | None => (Ok (elements (dir w)), tick w)
       end.

(** Whether something exists at [localPath]. *)
Definition exists_at (localPath : path) (w : world) : bool :=
  match entry_of (downloadPath env) localPath with
  | Some n => bool_decide (n ∈ dir w)
  | None => fs_exists_elsewhere env (clock w) localPath
  end.

(** The entries of [downloadPath] once a file has been created at
    [localPath], and once what is at [localPath] has been removed.  A path
    that is not an entry of [downloadPath] changes none of them. *)
Definition with_file (localPath : path) (d : gset string) : gset string :=
  match entry_of (downloadPath env) localPath with
  | Some n => {[n]} ∪ d
  | None => d
  end.

Definition without (localPath : path) (d : gset string) : gset string :=
  match entry_of (downloadPath env) localPath with
  | Some n => d ∖ {[n]}
  | None => d
  end.

(** [await fs.pathExists(localPath)]: never rejects. *)
Definition pathExists (localPath : path) : M bool :=
  λ w, (Ok (exists_at localPath w), w).

(** [await fs.remove(localPath)] *)
Definition remove (localPath : path) : M unit :=
  λ w, match fs_remove_error env (clock w) localPath with
       | Some e => (Throw e, tick w)
       | None => (Ok tt, set_dir (without localPath (dir w)) (tick w))
       end.

(** ** fetchFilesFromDrive and listFiles *)

(** The loop [for (const file of files)] from position [i] on.  The array
    iterator reads [files.length] at every step, so the records pushed by
    the body are visited too.  [self] is [this.fetchFilesFromDrive]. *)
Fixpoint fetch_loop (self : string → M (list RemoteFile)) (fuel : nat)
    (files : list RemoteFile) (i : nat) : M (list RemoteFile) :=
  match fuel with
  | O => out_of_fuel
  | S fuel' =>
      match files !! i with
      | None => ret files
      | Some file =>
          if is_folder file then
            let* subfolderFiles := self (id file) in
            fetch_loop self fuel' (files ++ subfolderFiles) (S i)
          else fetch_loop self fuel' files (S i)
      end
  end.

Fixpoint fetchFilesFromDrive (fuel : nat) (folderId : string)
  : M (list RemoteFile) :=
  match fuel with
  | O => out_of_fuel
  | S fuel' =>
      try_catch
        (let* files := files_list folderId in
         fetch_loop (fetchFilesFromDrive fuel') fuel' files 0)
        (λ e, logger ERROR (Failed_to_fetch_files e) >> throw e)
  end.

Definition listFiles (fuel : nat) : M (list RemoteFile) :=
  let* files := fetchFilesFromDrive fuel (config_google_folderId env) in
  ret (filter (λ file, isValidFile env (name file) = true) files).

(** ** downloadFile *)

(** What a listener installed by [downloadFile] does to its promise. *)
Inductive action := Resolve | Reject.

(** [dest.on('finish', resolve); dest.on('error', reject);] *)
Definition listeners : list (emitter * event_name * action) :=
  [ (Dest, EvFinish, Resolve); (Dest, EvError, Reject) ].

Definition listener_for (ev : stream_event) : option action :=
  match list_find (λ l, l.1.1 = ev_source ev ∧ l.1.2 = ev_name ev)
                  listeners with
  | Some (_, l) => Some l.2
  | None => None
  end.

(** The file at [localPath] exists once [dest] has opened it, and so when
    [dest] has finished flushing. *)
Definition touches_file (ev : stream_event) : bool :=
  bool_decide (ev_source ev = Dest)
  && (bool_decide (ev_name ev = EvOpen)
      || bool_decide (ev_name ev = EvFinish)).

(** Awaiting the promise [new Promise((resolve, reject) => ...)] while the
    streams emit [evs]: the first event with a listener settles it; if no
    such event comes, it stays pending. *)
Fixpoint await_streams (localPath : path) (evs : list stream_event)
  : M unit :=
  match evs with
  | [] => never
  | ev :: evs' =>
      (if touches_file ev
       then update (λ w, set_dir (with_file localPath (dir w)) w)
       else ret tt) >>
      match listener_for ev with
      | Some Resolve => ret tt
      | Some Reject => throw (ev_error ev)
      | None => await_streams localPath evs'
      end
  end.

(** The [try] block ends with [return new Promise(...)], which is not
    awaited there: [catch] sees a failure of [files.get] only. *)
Definition downloadFile (fileId : string) (localPath : path) : M unit :=
  let* evs :=
    try_catch (files_get fileId)
      (λ e, logger ERROR (Failed_to_download_file fileId e) >> throw e) in
  await_streams localPath evs.

(** ** syncFiles *)

(** [path.join(this.downloadPath, name)] *)
Definition local_path (name : string) : path :=
  path_join (downloadPath env) name.

(** The body of [for (const file of files)]. *)
Definition download_step (file : RemoteFile) : M unit :=
  let localPath := local_path (name file) in
  try_catch
    (let* present := pathExists localPath in
     if present then ret tt
     else downloadFile (id file) localPath >>
          logger INFO (Downloaded (name file)))
    (λ downloadError,
       logger WARN (Failed_to_download_skipping (name file) downloadError)).

Fixpoint download_loop (files : list RemoteFile) : M unit :=
  match files with
  | [] => ret tt
  | file :: rest => download_step file >> download_loop rest
  end.

(** [files.some(file => file.name === localFile)] *)
Definition some_named (files : list RemoteFile) (localFile : string) : bool :=
  existsb (λ file, bool_decide (name file = localFile)) files.

(** The body of [for (const localFile of localFiles)]. *)
Definition remove_step (files : list RemoteFile) (localFile : string)
  : M unit :=
  if negb (some_named files localFile) then
    let localPath := local_path localFile in
    try_catch
      (remove localPath >> logger INFO (Removed_local_file localFile))
      (λ removeError, logger WARN (Failed_to_remove localFile removeError))
  else ret tt.

Fixpoint remove_loop (files : list RemoteFile) (localFiles : list string)
  : M unit :=
  match localFiles with
  | [] => ret tt
  | localFile :: rest => remove_step files localFile >> remove_loop files rest
  end.

(** The [try] block of one attempt. *)
Definition sync_attempt (fuel : nat) : M (list RemoteFile) :=
  let* files := listFiles fuel in
  logger INFO (Found_valid_files (length files)) >>
  let* localFiles := readdir in
  download_loop files >>
  remove_loop files localFiles >>
  ret files.

Definition MAX_RETRIES : Z := 3.

(** [while (attempt < MAX_RETRIES) { try {...} catch (error) {...} }]; [k]
    bounds the iterations.  [Some files] is the array returned from inside
    the loop, [None] the [undefined] of falling out of it. *)
Fixpoint sync_loop (fuel : nat) (k : nat) (attempt : Z)
  : M (option (list RemoteFile)) :=
  match k with
  | O => ret None
  | S k' =>
      if attempt <? MAX_RETRIES then
        try_catch
          (let* files := sync_attempt fuel in ret (Some files))
          (λ error,
             let attempt := attempt + 1 in
             logger WARN (Sync_attempt_failed attempt error) >>
             if attempt =? MAX_RETRIES then
               logger ERROR Max_retry_attempts_reached >> throw error
             else
               sleep (1000 * attempt) >> sync_loop fuel k' attempt)
      else ret None
  end.

Definition syncFiles (fuel : nat) : M (option (list RemoteFile)) :=
  sync_loop fuel (Z.to_nat MAX_RETRIES) 0.

(** ** The schedule *)

Definition setInterval (period : Z) : M nat :=
  λ w, let t := next_timer w in
       (Ok t, set_intervals (intervals w ++ [(t, period)])
                (set_next_timer (S t) w)).

Definition clearInterval (t : nat) : M unit :=
  update (λ w, set_intervals (filter (λ i, i.1 ≠ t) (intervals w)) w).

(** [if (this.syncInterval) { clearInterval(...); this.syncInterval = null }] *)
Definition stop : M unit :=
  λ w, match syncInterval w with
       | Some t => (clearInterval t >> update (set_syncInterval None)) w
       | None => (Ok tt, w)
       end.

(** The callback given to [setInterval]. *)
Definition interval_callback (fuel : nat) : M unit :=
  λ w, if negb (isPaused w) then
         try_catch (syncFiles fuel >> ret tt)
                   (λ e, logger ERROR (Sync_failed e)) w
       else (Ok tt, w).

Definition startSync (fuel : nat) (interval : Z) : M unit :=
  stop >>
  λ w, if isPaused w then logger INFO Service_is_paused_not_starting w
       else
         (let* t := setInterval interval in
          update (set_syncInterval (Some t)) >>
          λ w, if negb (isPaused w) then (syncFiles fuel >> ret tt) w
               else (Ok tt, w)) w.

Definition pause : M unit :=
  logger INFO Pausing_service >>
  update (set_isPaused true) >>
  stop.

Definition resume (fuel : nat) : M unit :=
  logger INFO Resuming_service >>
  update (set_isPaused false) >>
  startSync fuel (config_sync_interval env).

(** What happens to the service between two calls of [resume]. *)
Inductive command :=
| CallPause
| CallStartSync (interval : Z)
| CallStop
| TimerFires.

Definition perform (fuel : nat) (c : command) : M unit :=
  match c with
  | CallPause => pause
  | CallStartSync interval => startSync fuel interval
  | CallStop => stop
  | TimerFires => interval_callback fuel
  end.


End Service.


(** ** Vocabulary of the statements *)

(** [m] relates the world it starts in to the world it leaves. *)
Definition respects {A} (R : relation world) (m : M A) : Prop :=
  ∀ w r w', m w = (r, w') → R w w'.

(** Nothing but the clock and the log has changed, and the log has only
    grown. *)
Definition steady (w w' : world) : Prop :=
  dir w' = dir w ∧ waits w' = waits w ∧ isPaused w' = isPaused w ∧
  syncInterval w' = syncInterval w ∧ intervals w' = intervals w ∧
  next_timer w' = next_timer w ∧
  log w `prefix_of` log w' ∧ (clock w ≤ clock w')%nat.

(** The schedule is untouched, nothing was waited for, and the log has only
    grown: what the files part of a pass does to the service. *)
Definition working (w w' : world) : Prop :=
  waits w' = waits w ∧ isPaused w' = isPaused w ∧
  syncInterval w' = syncInterval w ∧ intervals w' = intervals w ∧
  next_timer w' = next_timer w ∧
  log w `prefix_of` log w' ∧ (clock w ≤ clock w')%nat.

(** The world after [logger l m]. *)
Definition logged (l : level) (m : message) (w : world) : world :=
  set_log (log w ++ [(l, m)]) w.

(** The world after the [catch] block of a failed attempt that is retried:
    the warning, then the wait. *)
Definition backed_off (attempt : Z) (e : error) (w : world) : world :=
  let w := logged WARN (Sync_attempt_failed attempt e) w in
  set_waits (waits w ++ [1000 * attempt]) w.

Definition log_grows (w w' : world) : Prop := log w `prefix_of` log w'.

(** The log entries written between [w] and [w']. *)
Definition written (w w' : world) : list (level * message) :=
  drop (length (log w)) (log w').

(** A warning that a file was skipped. *)
Definition is_skip (entry : level * message) : bool :=
  match entry.2 with
  | Failed_to_download_skipping _ _ | Failed_to_remove _ _ => true
  | _ => false
  end.

(** No file was skipped. *)
Definition quiet (entries : list (level * message)) : Prop :=
  Forall (λ entry, is_skip entry = false) entries.

(** The names of the records of a listing. *)
Definition names (files : list RemoteFile) : gset string :=
  list_to_set (name <$> files).

(** How the promise of [downloadFile] settles on the events [evs]. *)
Fixpoint settles_with (evs : list stream_event) : option action :=
  match evs with
  | [] => None
  | ev :: evs' =>
      match listener_for ev with
      | Some a => Some a
      | None => settles_with evs'
      end
  end.

(** Every download settles: its streams emit an event that [downloadFile]
    listens to. *)
Definition downloads_settle (env : Env) : Prop :=
  ∀ t fileId evs,
    drive_files_get env t fileId = Resolves evs → settles_with evs ≠ None.

(** The remote folders do not change and listing them does not fail:
    [children fid] are the records of folder [fid]. *)
Definition static (env : Env) (children : string → list RemoteFile) : Prop :=
  ∀ t fid, drive_files_list env t fid = Resolves (children fid).

(** [file] lies in folder [fid] or below it. *)
Inductive below (children : string → list RemoteFile)
  : string → RemoteFile → Prop :=
| below_child (fid : string) (file : RemoteFile) :
    file ∈ children fid → below children fid file
| below_deeper (fid : string) (sub file : RemoteFile) :
    sub ∈ children fid → is_folder sub = true →
    below children (id sub) file → below children fid file.

(** [sub] is what the walk pushed for [g]: the records fetched for it if it
    is a folder, nothing otherwise. *)
Definition pushed_for (self : string → M (list RemoteFile))
    (g : RemoteFile) (sub : list RemoteFile) : Prop :=
  if is_folder g then ∃ w1 w2, self (id g) w1 = (Ok sub, w2) else sub = [].

(** [l] holds [x] at two positions. *)
Definition twice {A} (x : A) (l : list A) : Prop :=
  ∃ i j : nat, (i < j)%nat ∧ l !! i = Some x ∧ l !! j = Some x.



(** ** Further vocabulary *)

(** The entry of the mirror directory at which a file named [n] is looked
    for and written, if [path.join] leads to one. *)
Definition entry (env : Env) (n : string) : option string :=
  entry_of (downloadPath env) (local_path env n).

(** [w] with the paused flag and the timers of [s]. *)
Definition rescheduled (s w : world) : world :=
  set_isPaused (isPaused s)
    (set_syncInterval (syncInterval s)
       (set_intervals (intervals s) (set_next_timer (next_timer s) w))).

(** [m] neither reads nor writes the paused flag and the timers: with
    others in their place it does the same and leaves them there. *)
Definition blind {A} (m : M A) : Prop :=
  ∀ s w, m (rescheduled s w) = let (r, w') := m w in (r, rescheduled s w').

(** Everything a caller or the event loop can ask of the service. *)
Inductive request :=
| Command (c : command)
| CallResume
| CallSyncFiles.

Definition serve (env : Env) (fuel : nat) (r : request) : M unit :=
  match r with
  | Command c => perform env fuel c
  | CallResume => resume env fuel
  | CallSyncFiles => syncFiles env fuel >> ret tt
  end.

Fixpoint serve_all (env : Env) (fuel : nat) (rs : list request) (w : world)
  : world :=
  match rs with
  | [] => w
  | r :: rs' => serve_all env fuel rs' (serve env fuel r w).2
  end.

(** The live timers are the one in [syncInterval], if any; a paused
    service has none. *)
Definition one_schedule (w : world) : Prop :=
  match syncInterval w with
  | Some t => isPaused w = false ∧ ∃ period, intervals w = [(t, period)]
  | None => intervals w = []
  end.

(** Nothing of the schedule has changed. *)
Definition same_schedule (w w' : world) : Prop :=
  isPaused w' = isPaused w ∧ syncInterval w' = syncInterval w ∧
  intervals w' = intervals w ∧ next_timer w' = next_timer w.

(** The subfolders of [root] have no subfolders. *)
Definition shallow (children : string → list RemoteFile) (root : string)
  : Prop :=
  ∀ g, g ∈ children root → is_folder g = true →
       Forall (λ file, is_folder file = false) (children (id g)).

(** What the walk pushes for a listed record of a shallow folder. *)
Definition contents (children : string → list RemoteFile) (g : RemoteFile)
  : list RemoteFile :=
  if is_folder g then children (id g) else [].

(** What a call of the walk that started in [w] and was at most [bound]
    calls deep has left when it gave [r] in [w']: a thrown error is the one
    of a list request made meanwhile, and is in the log once for every call
    it went through; otherwise nothing is logged.  The walk awaits nothing
    that can stay pending. *)
Definition fetch_report {A} (env : Env) (bound : nat) (w : world)
    (r : result A) (w' : world) : Prop :=
  match r with
  | Throw e =>
      (∃ t fid, (clock w ≤ t < clock w')%nat ∧
                drive_files_list env t fid = Rejects e) ∧
      ∃ n, (1 ≤ n ≤ bound)%nat ∧
           log w' = log w ++ replicate n (ERROR, Failed_to_fetch_files e)
  | Pending => False
  | _ => log w' = log w
  end.


(** ** Scenarios

    Concrete folders, directories and failures to try the statements on. *)

Definition media_in (parent n : string) : RemoteFile :=
  {| id := "id-" +:+ n; name := n; mimeType := "application/octet-stream";
     parents := [parent] |}.

Definition media : string → RemoteFile := media_in "root".

Definition folder (n parent : string) : RemoteFile :=
  {| id := n; name := n; mimeType := FOLDER_MIME; parents := [parent] |}.

(** A validity rule by extension. *)
Definition ends_with (suffix s : string) : bool :=
  let n := String.length s in
  let k := String.length suffix in
  (k <=? n)%nat && String.eqb (String.substring (n - k) k s) suffix.

Definition is_media (n : string) : bool :=
  ends_with ".jpg" n || ends_with ".mp4" n.

Definition emits (src : emitter) (n : event_name) : stream_event :=
  {| ev_source := src; ev_name := n; ev_error := "" |}.

(** A download that goes well, and one whose remote stream breaks. *)
Definition clean_download : list stream_event :=
  [ emits Dest EvOpen; emits ResponseData EvData; emits ResponseData EvEnd;
    emits Dest EvFinish ].

Definition broken_download : list stream_event :=
  [ emits Dest EvOpen; emits ResponseData EvData;
    {| ev_source := ResponseData; ev_name := EvError;
       ev_error := "aborted" |} ].

(** The mirror directory of the scenarios, and the path of an entry. *)
Definition media_dir : path := ["srv"; "slideshow"; "media"].

Definition in_media_dir (n : string) : path := media_dir ++ [n].

Definition scenario
    (listing : nat → string → outcome (list RemoteFile))
    (get : nat → string → outcome (list stream_event))
    (rm : nat → path → option error) : Env :=
  {| drive_files_list := listing;
     drive_files_get := get;
     downloadPath := media_dir;
     fs_readdir_error := λ _, None;
     fs_remove_error := rm;
     fs_exists_elsewhere := λ _ _, false;
     isValidFile := is_media;
     config_google_folderId := "root";
     config_sync_interval := 60000 |}.

(** Remote [{a.jpg, b.mp4}] in the root folder. *)
Definition flat (fid : string) : list RemoteFile :=
  if decide (fid = "root") then [media "a.jpg"; media "b.mp4"] else [].

(** [root/A/B/f.jpg] *)
Definition nested (fid : string) : list RemoteFile :=
  if decide (fid = "root") then [folder "A" "root"]
  else if decide (fid = "A") then [folder "B" "A"]
  else if decide (fid = "B") then [media_in "B" "f.jpg"]
  else [].

Definition nested_rank (fid : string) : nat :=
  if decide (fid = "root") then 3
  else if decide (fid = "A") then 2
  else if decide (fid = "B") then 1
  else 0.

Definition mirror_env : Env :=
  scenario (λ _ fid, Resolves (flat fid))
           (λ _ _, Resolves clean_download) (λ _ _, None).

(** The download of b.mp4 is refused and c.jpg cannot be removed. *)
Definition rough_env : Env :=
  scenario (λ _ fid, Resolves (flat fid))
           (λ _ fileId, if decide (fileId = "id-b.mp4")
                        then Rejects "socket hang up"
                        else Resolves clean_download)
           (λ _ p, if decide (p = in_media_dir "c.jpg") then Some "EPERM"
                   else None).

(** The first two requests fail. *)
Definition flaky_env : Env :=
  scenario (λ t fid, if (t <? 2)%nat then Rejects "ECONNRESET"
                     else Resolves (flat fid))
           (λ _ _, Resolves clean_download) (λ _ _, None).

Definition down_env : Env :=
  scenario (λ _ _, Rejects "ENOTFOUND")
           (λ _ _, Resolves clean_download) (λ _ _, None).

Definition broken_stream_env : Env :=
  scenario (λ _ fid, Resolves (flat fid))
           (λ _ _, Resolves broken_download) (λ _ _, None).

Definition nested_env : Env :=
  scenario (λ _ fid, Resolves (nested fid))
           (λ _ _, Resolves clean_download) (λ _ _, None).

(** [root/a.jpg, root/A/f.jpg, root/A/g.mp4] *)
Definition one_level (fid : string) : list RemoteFile :=
  if decide (fid = "root") then [media "a.jpg"; folder "A" "root"]
  else if decide (fid = "A") then [media_in "A" "f.jpg"; media_in "A" "g.mp4"]
  else [].

Definition one_level_rank (fid : string) : nat :=
  if decide (fid = "root") then 1 else 0.

Definition one_level_env : Env :=
  scenario (λ _ fid, Resolves (one_level fid))
           (λ _ _, Resolves clean_download) (λ _ _, None).






(** A fresh service over a directory. *)
Definition start (d : gset string) : world :=
  {| clock := 0; dir := d; log := []; waits := []; isPaused := false;
     syncInterval := None; intervals := []; next_timer := 1 |}.

Definition local_before : gset string := {[ "a.jpg"; "c.jpg" ]}.

End Drive.

(* ===================================================================== *)
(** * Part III. Properties of the hook                                    *)
(* ===================================================================== *)

Module HookFacts.
Import Hook.

(** The remainder of a number in [n, 2n). *)
Lemma rem_wrap (i n : Z) : 0 < n → n ≤ i < 2 * n → Z.rem i n = i - n.
Proof.
  intros Hn Hi. rewrite Z.rem_mod_nonneg by lia.
  symmetry. apply (Z.mod_unique_pos i n 1); lia.
Qed.

Lemma set_currentIndex_same (h : hook) :
  set_currentIndex (currentIndex h) h = h.
Proof. by destruct h. Qed.

Lemma set_currentIndex_twice (x y : Z) (h : hook) :
  set_currentIndex x (set_currentIndex y h) = set_currentIndex x h.
Proof. done. Qed.

Lemma navigate_empty (d : string) (h : hook) :
  allMedia h = [] → navigateMedia d h = h.
Proof. intros E. unfold navigateMedia. by rewrite E. Qed.

Lemma navigate_next_index (h : hook) :
  allMedia h ≠ [] →
  currentIndex (navigateMedia "next" h)
  = Z.rem (currentIndex h + 1) (totalMedia h).
Proof.
  intros E. unfold navigateMedia, totalMedia.
  destruct (Z.eqb_spec (Z.of_nat (length (allMedia h))) 0) as [E0|E0]; [|done].
  destruct (allMedia h); [done | simpl in E0; lia].
Qed.

Lemma navigate_previous_index (h : hook) :
  allMedia h ≠ [] →
  currentIndex (navigateMedia "previous" h)
  = Z.rem (currentIndex h - 1 + totalMedia h) (totalMedia h).
Proof.
  intros E. unfold navigateMedia, totalMedia.
  destruct (Z.eqb_spec (Z.of_nat (length (allMedia h))) 0) as [E0|E0]; [|done].
  destruct (allMedia h); [done | simpl in E0; lia].
Qed.

Lemma navigate_allMedia (d : string) (h : hook) :
  allMedia (navigateMedia d h) = allMedia h.
Proof.
  unfold navigateMedia.
  by destruct (Z.of_nat (length (allMedia h)) =? 0).
Qed.

Lemma navigate_is_set (d : string) (h : hook) :
  navigateMedia d h = set_currentIndex (currentIndex (navigateMedia d h)) h.
Proof.
  unfold navigateMedia.
  destruct (Z.of_nat (length (allMedia h)) =? 0); [|done].
  by rewrite set_currentIndex_same.
Qed.

(** C3. On a list of N >= 1 items and from an index in [0, N), 'next' then
    'previous' gives the hook back as it was; 'previous' at index 0 goes to
    N - 1 and 'next' at N - 1 goes to 0; with no items, navigating in any
    direction changes nothing. *)
Theorem navigate_next_then_previous (h : hook) :
  (allMedia h = [] → ∀ d, navigateMedia d h = h) ∧
  (1 ≤ totalMedia h → 0 ≤ currentIndex h < totalMedia h →
     navigateMedia "previous" (navigateMedia "next" h) = h ∧
     (currentIndex h = 0 →
        currentIndex (navigateMedia "previous" h) = totalMedia h - 1) ∧
     (currentIndex h = totalMedia h - 1 →
        currentIndex (navigateMedia "next" h) = 0)).
Proof.
  split; [intros E d; by apply navigate_empty|].
  intros HN Hi.
  assert (Hne : allMedia h ≠ []).
  { intros E. unfold totalMedia in HN. rewrite E in HN. simpl in HN. lia. }
  assert (Hnext : currentIndex (navigateMedia "next" h)
                  = if currentIndex h + 1 <? totalMedia h
                    then currentIndex h + 1 else 0).
  { rewrite navigate_next_index by done.
    destruct (currentIndex h + 1 <? totalMedia h) eqn:E.
    - apply Z.rem_small. lia.
    - replace (currentIndex h + 1) with (totalMedia h) by lia.
      apply Z.rem_same. lia. }
  split; [|split].
  - rewrite (navigate_is_set "previous").
    rewrite navigate_previous_index
      by (by rewrite navigate_allMedia).
    unfold totalMedia in *. rewrite navigate_allMedia, Hnext.
    rewrite (navigate_is_set "next"), set_currentIndex_twice.
    cbn [allMedia set_currentIndex].
    match goal with
    | |- set_currentIndex ?x h = h =>
        replace x with (currentIndex h); [apply set_currentIndex_same|]
    end.
    destruct (currentIndex h + 1 <? _) eqn:E.
    + rewrite rem_wrap; lia.
    + rewrite Z.rem_small; lia.
  - intros E0. rewrite navigate_previous_index, E0 by done.
    rewrite Z.rem_small; lia.
  - intros EN. rewrite Hnext.
    destruct (currentIndex h + 1 <? totalMedia h) eqn:E; [lia|done].
Qed.

Lemma navigate_next_then_previous_witness :
  navigateMedia "previous" (navigateMedia "next" three_items) = three_items
  ∧ currentIndex (navigateMedia "next" three_items) = 0.
Proof.
  destruct (navigate_next_then_previous three_items) as [_ H].
  destruct H as (H1 & _ & H3); [vm_compute; congruence | vm_compute; split; congruence |].
  split; [exact H1 | apply H3; reflexivity].
Defined.

(** ** Playlist messages *)

Lemma playlist_kind_iff (ty : string) :
  is_playlist_kind ty = true ↔ ty = "mediaList" ∨ ty = "mediaUpdate".
Proof.
  unfold is_playlist_kind. rewrite orb_true_iff, !bool_decide_eq_true. done.
Qed.

Lemma onmessage_playlist (ty : string) (media : list MediaItem) (h : hook) :
  ty = "mediaList" ∨ ty = "mediaUpdate" →
  onmessage (Envelope ty media) h
  = set_loading false
      (set_currentIndex
         (if currentIndex h >=? Z.of_nat (length media)
          then 0 else currentIndex h)
         (set_allMedia media h)).
Proof.
  intros Hty. apply playlist_kind_iff in Hty.
  unfold onmessage. by rewrite Hty.
Qed.

(** C2, as amended. A message of kind mediaList or mediaUpdate carrying L
    items replaces the item sequence; the index becomes 0 if the old index
    is >= L and is kept otherwise.  Hence, from an index that is not
    negative, the new index lies in [0, L) when L >= 1, and is 0 when the
    snapshot is empty. *)
Theorem message_replaces_and_clamps
    (ty : string) (media : list MediaItem) (h : hook) :
  ty = "mediaList" ∨ ty = "mediaUpdate" →
  let L := Z.of_nat (length media) in
  let h' := onmessage (Envelope ty media) h in
  allMedia h' = media ∧
  (L ≤ currentIndex h → currentIndex h' = 0) ∧
  (currentIndex h < L → currentIndex h' = currentIndex h) ∧
  (0 ≤ currentIndex h → 1 ≤ L → 0 ≤ currentIndex h' < L) ∧
  (0 ≤ currentIndex h → L = 0 → currentIndex h' = 0).
Proof.
  intros Hty L h'. subst h'. rewrite onmessage_playlist by done.
  cbn [allMedia currentIndex set_loading set_currentIndex set_allMedia].
  fold L. destruct (Z.geb_spec (currentIndex h) L); repeat split; lia.
Qed.

Lemma message_replaces_and_clamps_witness :
  allMedia (onmessage (Envelope "mediaUpdate" [item "x"; item "y"])
                      three_items)
  = [item "x"; item "y"] ∧
  currentIndex (onmessage (Envelope "mediaUpdate" [item "x"; item "y"])
                          three_items)
  = 0.
Proof.
  pose proof (message_replaces_and_clamps "mediaUpdate"
                [item "x"; item "y"] three_items (or_intror eq_refl))
    as (H1 & H2 & _).
  split; [exact H1 | apply H2; vm_compute; congruence].
Defined.

(** C2, as stated, fails on an empty snapshot: the index is 0 and the
    interval [0, 0) is empty. *)
Lemma empty_snapshot_index_not_in_range :
  currentIndex (onmessage (Envelope "mediaList" []) (mount true true)) = 0 ∧
  allMedia (onmessage (Envelope "mediaList" []) (mount true true)) = [] ∧
  ¬ (0 ≤ currentIndex (onmessage (Envelope "mediaList" [])
                                 (mount true true))
       < Z.of_nat (length (allMedia (onmessage (Envelope "mediaList" [])
                                               (mount true true))))).
Proof. vm_compute. split; [done | split; [done |]]. intros [_ H]. done. Qed.

(** ** Reconnection *)

Ltac handlers :=
  unfold connect, onopen, onmessage, onerror, onclose, ping, clear_ping,
    navigateMedia, effect, cleanup, release_socket, clearTimeout, ws_close.

(** Runs a handler symbolically, branch by branch. *)
Ltac branches :=
  repeat first
    [ progress handlers | case_match | progress cbn in * | progress simplify_eq ].

Lemma step_counter (cfg : frontendConfig) (h h' : hook) (e : event) :
  step cfg h e = Some h' → is_open e = false →
  (reconnectAttemptsRef h', next_handle h')
  = match e with
    | SockClose id =>
        match sockets h !! id with
        | Some s => after_close cfg h s
        | None => (reconnectAttemptsRef h, next_handle h)
        end
    | _ => (reconnectAttemptsRef h, next_handle h)
    end.
Proof.
  intros Hs Ho. destruct e; try done; unfold step, after_close in *;
    revert Hs; branches; intros; branches; congruence.
Qed.

Lemma Forall_filter_keep {A} (P Q : A → Prop) `{!∀ x, Decision (Q x)}
    (l : list A) :
  Forall P l → Forall P (filter Q l).
Proof.
  rewrite !Forall_forall. intros Hall x Hx. apply Hall.
  by apply (list_subseteq_filter Q l).
Qed.

Lemma found_timeout_active (t : nat) (h : hook) (i : nat) (tm : timeout) :
  Forall (λ tm, tm_active tm = true) (timeouts h) →
  list_find (λ tm, handle tm = t) (timeouts h) = Some (i, tm) →
  tm_active tm = true.
Proof.
  intros Hall (Hi & _ & _)%list_find_Some.
  by eapply (Forall_lookup_1 _ _ _ _ Hall).
Qed.

Ltac keeps_flags :=
  repeat first
    [ assumption
    | reflexivity
    | apply Forall_app_2
    | apply Forall_filter_keep
    | apply Forall_nil_2
    | apply Forall_cons_2
    | apply Forall_alter;
      [| intros ? _ ?; unfold close_call, set_readyState;
         repeat case_match; cbn; assumption ] ].

(** While the flag stays true, every socket and every pending reconnect was
    created under a true flag. *)
Lemma step_held_active (cfg : frontendConfig) (h h' : hook) (e : event) :
  step cfg h e = Some h' → keeps_active e = true →
  held_active h → held_active h'.
Proof.
  intros Hs Hk (Ha & Hso & Htm).
  destruct e; unfold step in Hs.
  - (* open *)
    repeat case_match; simplify_eq. unfold held_active.
    branches; split_and!; keeps_flags.
  - repeat case_match; simplify_eq. unfold held_active.
    branches; split_and!; keeps_flags.
  - repeat case_match; simplify_eq. unfold held_active.
    branches; split_and!; keeps_flags.
  - (* close *)
    destruct (sockets h !! id0) as [s|] eqn:Hid; [|done].
    assert (sock_active s = true) by (by eapply (Forall_lookup_1 _ _ _ _ Hso)).
    repeat case_match; simplify_eq. unfold held_active.
    branches; split_and!; keeps_flags.
  - (* a reconnect timer *)
    destruct (list_find _ _) as [[i tm]|] eqn:Hf; [|done].
    pose proof (found_timeout_active _ _ _ _ Htm Hf) as Hact.
    simplify_eq. unfold held_active.
    rewrite Hact; branches; split_and!; keeps_flags.
  - repeat case_match; simplify_eq. unfold held_active.
    branches; split_and!; keeps_flags.
  - simplify_eq. unfold held_active.
    branches; split_and!; keeps_flags.
  - (* a render *)
    cbn in Hk. subst a.
    repeat case_match; simplify_eq; unfold held_active; [done|].
    branches; split_and!; keeps_flags.
Qed.

Lemma closes_cons (e : event) (evs : list event) :
  closes (e :: evs) = (if is_close e then 1 else 0) + closes evs.
Proof.
  unfold closes. rewrite filter_cons.
  destruct (is_close e); case_decide; try done; cbn [length]; lia.
Qed.

(** One close event under a true flag and below the cap. *)
Lemma close_before_cap (cfg : frontendConfig) (h h' : hook) (id : nat)
    (s : socket) :
  sockets h !! id = Some s → sock_active s = true →
  reconnectAttemptsRef h < maxReconnectAttempts cfg →
  step cfg h (SockClose id) = Some h' →
  reconnectAttemptsRef h' = reconnectAttemptsRef h + 1 ∧
  next_handle h' = S (next_handle h) ∧
  timeouts h'
  = timeouts h ++ [ {| handle := next_handle h;
                       delay := reconnectInterval cfg;
                       tm_active := true;
                       tm_connected := sock_connected s |} ].
Proof.
  intros Hid Hact Hlt Hs. unfold step in Hs. rewrite Hid in Hs.
  case_match; simplify_eq.
  unfold onclose, clear_ping. cbn. rewrite Hact.
  destruct (Z.ltb_spec (reconnectAttemptsRef h) (maxReconnectAttempts cfg));
    [cbn; done | lia].
Qed.

(** No event other than an open schedules anything at the cap. *)
Lemma step_at_cap (cfg : frontendConfig) (h h' : hook) (e : event) :
  step cfg h e = Some h' → is_open e = false →
  maxReconnectAttempts cfg ≤ reconnectAttemptsRef h →
  reconnectAttemptsRef h' = reconnectAttemptsRef h ∧
  next_handle h' = next_handle h ∧
  timeouts h' ⊆ timeouts h.
Proof.
  intros Hs Ho Hcap.
  assert (Hlt : (reconnectAttemptsRef h <? maxReconnectAttempts cfg) = false)
    by (apply Z.ltb_ge; lia).
  pose proof (step_counter _ _ _ _ Hs Ho) as Hc.
  assert ((reconnectAttemptsRef h', next_handle h')
          = (reconnectAttemptsRef h, next_handle h)) as [= -> ->].
  { rewrite Hc. destruct e; try done.
    case_match; [|done]. unfold after_close.
    by rewrite Hlt, andb_false_r. }
  split_and!; [done..|].
  destruct e; try done; unfold step in Hs; revert Hs; branches; intros;
    branches;
    try rewrite Hlt, andb_false_r in *; try done;
    try apply list_subseteq_filter;
    try (etrans; apply list_subseteq_filter).
Qed.

Lemma run_at_cap (cfg : frontendConfig) (evs : list event) (h h' : hook) :
  run cfg h evs = Some h' → existsb is_open evs = false →
  maxReconnectAttempts cfg ≤ reconnectAttemptsRef h →
  reconnectAttemptsRef h' = reconnectAttemptsRef h ∧
  next_handle h' = next_handle h ∧
  timeouts h' ⊆ timeouts h.
Proof.
  revert h. induction evs as [|e evs IH]; intros h Hr Ho Hcap.
  - by simplify_eq/=.
  - cbn in Hr, Ho. apply orb_false_iff in Ho as [Ho1 Ho2].
    destruct (step cfg h e) as [h1|] eqn:Hs; [|done].
    destruct (step_at_cap _ _ _ _ Hs Ho1 Hcap) as (E1 & E2 & E3).
    destruct (IH h1 Hr Ho2) as (F1 & F2 & F3); [lia|].
    split_and!; [congruence.. | by etrans].
Qed.

Lemma run_counts_closes (cfg : frontendConfig) (evs : list event)
    (h h' : hook) :
  run cfg h evs = Some h' →
  held_active h → forallb keeps_active evs = true →
  existsb is_open evs = false →
  0 ≤ reconnectAttemptsRef h ≤ maxReconnectAttempts cfg →
  reconnectAttemptsRef h'
  = Z.min (maxReconnectAttempts cfg) (reconnectAttemptsRef h + closes evs) ∧
  Z.of_nat (next_handle h')
  = Z.of_nat (next_handle h)
    + (reconnectAttemptsRef h' - reconnectAttemptsRef h).
Proof.
  revert h. induction evs as [|e evs IH]; intros h Hr Hh Hk Ho Ha.
  - simplify_eq/=. unfold closes. cbn. lia.
  - cbn in Hr, Ho, Hk. apply orb_false_iff in Ho as [Ho1 Ho2].
    apply andb_true_iff in Hk as [Hk1 Hk2].
    destruct (step cfg h e) as [h1|] eqn:Hs; [|done].
    pose proof (step_held_active _ _ _ _ Hs Hk1 Hh) as Hh1.
    pose proof (step_counter _ _ _ _ Hs Ho1) as Hc.
    rewrite closes_cons.
    assert (Hcase :
      (is_close e = true ∧
       reconnectAttemptsRef h < maxReconnectAttempts cfg ∧
       reconnectAttemptsRef h1 = reconnectAttemptsRef h + 1 ∧
       next_handle h1 = S (next_handle h)) ∨
      ((is_close e = false ∨
        reconnectAttemptsRef h = maxReconnectAttempts cfg) ∧
       reconnectAttemptsRef h1 = reconnectAttemptsRef h ∧
       next_handle h1 = next_handle h)).
    { destruct e; try (right; simplify_eq; split_and!; by auto).
      unfold step in Hs.
      destruct (sockets h !! id0) as [s|] eqn:Hid; [|done].
      destruct Hh as (_ & Hso & _).
      assert (sock_active s = true) as Hact
        by (by eapply (Forall_lookup_1 _ _ _ _ Hso)).
      unfold after_close in Hc. rewrite Hact in Hc. cbn in Hc.
      destruct (Z.ltb_spec (reconnectAttemptsRef h)
                  (maxReconnectAttempts cfg)); simplify_eq.
      - left. by split_and!.
      - right. split_and!; [right; lia | done..]. }
    assert (0 ≤ closes evs) by (unfold closes; lia).
    destruct Hcase as [(Hc1 & Hlt & E1 & E2) | (Hc1 & E1 & E2)].
    + destruct (IH h1 Hr Hh1 Hk2 Ho2) as [F1 F2]; [lia|].
      rewrite Hc1. split; lia.
    + destruct (IH h1 Hr Hh1 Hk2 Ho2) as [F1 F2]; [lia|].
      destruct Hc1 as [Hc1|Hc1].
      * rewrite Hc1. split; lia.
      * destruct (is_close e); split; lia.
Qed.

(** C6. With the activation flag held true, a close event below the cap
    increments the attempt counter and schedules exactly one reconnect, after
    the configured interval; over any run without an open event the counter
    ends at min(max, counter + number of close events) and as many reconnects
    were scheduled as the counter grew; once the counter has reached the cap
    no event other than an open schedules a reconnect.  An open resets the
    counter to 0 and drops the pending reconnect timer. *)
Theorem reconnects_stop_at_the_cap (cfg : frontendConfig) :
  (∀ h h' id s,
     sockets h !! id = Some s → sock_active s = true →
     reconnectAttemptsRef h < maxReconnectAttempts cfg →
     step cfg h (SockClose id) = Some h' →
     reconnectAttemptsRef h' = reconnectAttemptsRef h + 1 ∧
     timeouts h'
     = timeouts h ++ [ {| handle := next_handle h;
                          delay := reconnectInterval cfg;
                          tm_active := true;
                          tm_connected := sock_connected s |} ]) ∧
  (∀ h h' evs,
     held_active h → forallb keeps_active evs = true →
     existsb is_open evs = false →
     0 ≤ reconnectAttemptsRef h ≤ maxReconnectAttempts cfg →
     run cfg h evs = Some h' →
     reconnectAttemptsRef h'
     = Z.min (maxReconnectAttempts cfg)
             (reconnectAttemptsRef h + closes evs) ∧
     Z.of_nat (next_handle h') - Z.of_nat (next_handle h)
     = reconnectAttemptsRef h' - reconnectAttemptsRef h) ∧
  (∀ h h' evs,
     maxReconnectAttempts cfg ≤ reconnectAttemptsRef h →
     existsb is_open evs = false →
     run cfg h evs = Some h' →
     reconnectAttemptsRef h' = reconnectAttemptsRef h ∧
     next_handle h' = next_handle h ∧
     timeouts h' ⊆ timeouts h) ∧
  (∀ h h' id,
     step cfg h (SockOpen id) = Some h' →
     reconnectAttemptsRef h' = 0 ∧ reconnectTimerRef h' = None).
Proof.
  split_and!.
  - intros h h' id s Hid Hact Hlt Hs.
    destruct (close_before_cap _ _ _ _ _ Hid Hact Hlt Hs) as (? & ? & ?).
    by split.
  - intros h h' evs Hh Hk Ho Ha Hr.
    destruct (run_counts_closes _ _ _ _ Hr Hh Hk Ho Ha) as [F1 F2].
    split; [done | lia].
  - intros h h' evs Hcap Ho Hr. by eapply run_at_cap.
  - intros h h' id Hs. unfold step in Hs.
    destruct (sockets h !! id) as [s|]; [|done].
    case_bool_decide; [|done]. simplify_eq. unfold onopen. cbn.
    by destruct (reconnectTimerRef h) eqn:E; cbn.
Qed.

Lemma held_active_mount (c : bool) : held_active (mount true c).
Proof.
  unfold held_active, mount. branches; split_and!; keeps_flags.
Qed.

Lemma reconnects_stop_at_the_cap_witness :
  ∃ h', run two_retries (mount true true) outage = Some h' ∧
        reconnectAttemptsRef h' = 2 ∧ next_handle h' = 3%nat.
Proof.
  eexists. split; [vm_compute; reflexivity|].
  match goal with
  | |- reconnectAttemptsRef ?h' = _ ∧ _ =>
      destruct (proj1 (proj2 (reconnects_stop_at_the_cap two_retries))
                  (mount true true) h' outage) as [F1 F2]
  end.
  - apply held_active_mount.
  - reflexivity.
  - reflexivity.
  - vm_compute. split; congruence.
  - vm_compute. reflexivity.
  - split; [exact F1 | reflexivity].
Defined.

(** ** The readiness flag *)

Lemma step_serverReady (cfg : frontendConfig) (h h' : hook) (e : event) :
  step cfg h e = Some h' → serverReady h' = serverReady h || is_open e.
Proof.
  intros Hs. destruct e; unfold step in Hs; revert Hs; branches; intros;
    branches; by rewrite ?orb_false_r, ?orb_true_r.
Qed.

Ltac keeps_closed :=
  repeat first
    [ assumption
    | done
    | apply Forall_app_2
    | apply Forall_nil_2
    | apply Forall_cons_2
    | apply Forall_alter;
      [| intros ? _ ?; unfold close_call, set_readyState;
         repeat case_match; cbn; congruence ] ].

Lemma step_nothing_before_open (cfg : frontendConfig) (h h' : hook)
    (e : event) :
  step cfg h e = Some h' → nothing_before_open h → nothing_before_open h'.
Proof.
  intros Hs Hinv Hready.
  pose proof (step_serverReady _ _ _ _ Hs) as Hsr.
  rewrite Hready in Hsr. symmetry in Hsr.
  apply orb_false_iff in Hsr as [Hr Ho].
  destruct (Hinv Hr) as [Hm Hso].
  destruct e; try done; unfold step in Hs.
  - (* a message needs an open socket *)
    destruct (sockets h !! id0) as [s|] eqn:Hid; [|done].
    pose proof (Forall_lookup_1 _ _ _ _ Hso Hid) as Hs0.
    case_bool_decide; done.
  - revert Hs; branches; intros; branches; split; keeps_closed.
  - revert Hs; branches; intros; branches; split; keeps_closed.
  - revert Hs; branches; intros; branches; split; keeps_closed.
  - revert Hs; branches; intros; branches; split; keeps_closed.
  - revert Hs; branches; intros; branches; split; keeps_closed.
  - revert Hs; branches; intros; branches; split; keeps_closed.
Qed.

Lemma nothing_before_open_mount (a c : bool) :
  nothing_before_open (mount a c).
Proof.
  intros _. unfold mount. branches; split; keeps_closed.
Qed.

Lemma run_serverReady (cfg : frontendConfig) (evs : list event)
    (h h' : hook) :
  run cfg h evs = Some h' →
  serverReady h' = serverReady h || existsb is_open evs.
Proof.
  revert h. induction evs as [|e evs IH]; intros h Hr; simplify_eq/=.
  - by rewrite orb_false_r.
  - destruct (step cfg h e) as [h1|] eqn:Hs; [|done].
    rewrite (IH _ Hr), (step_serverReady _ _ _ _ Hs). by rewrite orb_assoc.
Qed.

Lemma run_nothing_before_open (cfg : frontendConfig) (evs : list event)
    (h h' : hook) :
  run cfg h evs = Some h' → nothing_before_open h → nothing_before_open h'.
Proof.
  revert h. induction evs as [|e evs IH]; intros h Hr Hinv; simplify_eq/=.
  - done.
  - destruct (step cfg h e) as [h1|] eqn:Hs; [|done].
    eauto using step_nothing_before_open.
Qed.

Lemma serverReady_mount (a c : bool) : serverReady (mount a c) = false.
Proof. unfold mount. by branches. Qed.

(** C9. After any run of a mounted hook, the exposed flag is true exactly
    when a socket has opened during the run or items exist now (and items
    can only exist after an open, so it is true exactly when a socket has
    opened); once true, it stays true whatever happens next. *)
Theorem server_ready_is_sticky
    (cfg : frontendConfig) (a c : bool) (evs : list event) (h : hook) :
  run cfg (mount a c) evs = Some h →
  exposed_serverReady h = existsb is_open evs || (0 <? totalMedia h) ∧
  exposed_serverReady h = existsb is_open evs ∧
  ∀ evs' h', exposed_serverReady h = true →
             run cfg h evs' = Some h' → exposed_serverReady h' = true.
Proof.
  intros Hr.
  pose proof (run_serverReady _ _ _ _ Hr) as Hsr.
  rewrite serverReady_mount in Hsr. cbn in Hsr.
  pose proof (run_nothing_before_open _ _ _ _ Hr
                (nothing_before_open_mount a c)) as Hinv.
  assert (Hexp : exposed_serverReady h = serverReady h).
  { unfold exposed_serverReady. destruct (serverReady h) eqn:E; [done|].
    destruct (Hinv E) as [-> _]. done. }
  split_and!.
  - unfold exposed_serverReady, totalMedia. by rewrite Hsr.
  - by rewrite Hexp.
  - intros evs' h' Ht Hr'. rewrite Hexp in Ht.
    unfold exposed_serverReady.
    by rewrite (run_serverReady _ _ _ _ Hr'), Ht.
Qed.

Lemma server_ready_is_sticky_witness :
  ∃ h, run two_retries (mount true true) session = Some h ∧
       allMedia h = [] ∧ webSocketStatus h = disconnected ∧
       exposed_serverReady h = true.
Proof.
  eexists. split; [vm_compute; reflexivity|].
  split; [reflexivity|]. split; [reflexivity|].
  match goal with
  | |- exposed_serverReady ?h = _ =>
      destruct (server_ready_is_sticky two_retries true true session h)
        as (_ & F & _); [vm_compute; reflexivity | exact F]
  end.
Defined.

(** ** The current item *)








(** ** The playlist *)

Lemma step_playlist (cfg : frontendConfig) (h h' : hook) (e : event) :
  step cfg h e = Some h' →
  allMedia h' = default (allMedia h) (snapshot_of e) ∧
  loading h' = match snapshot_of e with
               | Some _ => false
               | None => loading h
               end.
Proof.
  intros Hs. destruct e; unfold step in Hs.
  - revert Hs; branches; intros; branches; done.
  - destruct (sockets h !! id0); [|done].
    case_bool_decide; [|done]. simplify_eq.
    destruct m as [|ty media]; cbn; [done|].
    by destruct (is_playlist_kind ty).
  - revert Hs; branches; intros; branches; done.
  - revert Hs; branches; intros; branches; done.
  - revert Hs; branches; intros; branches; done.
  - revert Hs; branches; intros; branches; done.
  - simplify_eq. by rewrite navigate_allMedia, (navigate_is_set direction).
  - revert Hs; branches; intros; branches; done.
Qed.

Lemma run_playlist (cfg : frontendConfig) (evs : list event) (h h' : hook) :
  run cfg h evs = Some h' →
  allMedia h' = default (allMedia h) (last (snapshots evs)) ∧
  loading h' = match snapshots evs with
               | [] => loading h
               | _ :: _ => false
               end.
Proof.
  revert h. induction evs as [|e evs IH]; intros h Hr; simplify_eq/=.
  - done.
  - destruct (step cfg h e) as [h1|] eqn:Hs; [|done].
    destruct (step_playlist _ _ _ _ Hs) as [E1 E2].
    destruct (IH _ Hr) as [F1 F2]. unfold snapshots in *. cbn.
    destruct (snapshot_of e) as [media|]; cbn in *.
    + rewrite F1, F2, E1, E2, last_cons.
      by destruct (omap snapshot_of evs) as [|? ?];
        [|destruct (last (_ :: _))].
    + by rewrite F1, F2, E1, E2.
Qed.

(** X2. The item list is always the one carried by the last playlist
    message (never a merge of several), and is empty before the first; the
    loading flag is true exactly until the first playlist message, and no
    later event (disconnection, reconnection, render) sets it again. *)
Theorem playlist_is_the_last_snapshot
    (cfg : frontendConfig) (a c : bool) (evs : list event) (h : hook) :
  run cfg (mount a c) evs = Some h →
  allMedia h = default [] (last (snapshots evs)) ∧
  loading h = bool_decide (snapshots evs = []).
Proof.
  intros Hr. destruct (run_playlist _ _ _ _ Hr) as [E1 E2].
  assert (allMedia (mount a c) = [] ∧ loading (mount a c) = true) as [M1 M2]
    by (unfold mount; by branches).
  rewrite E1, E2, M1, M2. split; [done|].
  by destruct (snapshots evs).
Qed.

Lemma playlist_is_the_last_snapshot_witness :
  ∃ h, run two_retries (mount true true) session = Some h ∧
       allMedia h = [] ∧ loading h = false.
Proof.
  eexists. split; [vm_compute; reflexivity|].
  match goal with
  | |- allMedia ?h = _ ∧ _ =>
      destruct (playlist_is_the_last_snapshot two_retries true true
                  session h) as [-> ->]; [vm_compute; reflexivity|]
  end.
  split; reflexivity.
Defined.

(** ** More navigation *)

Lemma navigate_previous_index_in_range (h : hook) :
  1 ≤ totalMedia h → 0 ≤ currentIndex h < totalMedia h →
  currentIndex (navigateMedia "previous" h)
  = if currentIndex h =? 0 then totalMedia h - 1 else currentIndex h - 1.
Proof.
  intros HN Hi.
  assert (Hne : allMedia h ≠ []).
  { intros E. unfold totalMedia in HN. rewrite E in HN. simpl in HN. lia. }
  rewrite navigate_previous_index by done.
  destruct (Z.eqb_spec (currentIndex h) 0) as [E|E].
  - rewrite E. rewrite Z.rem_small; lia.
  - rewrite rem_wrap; lia.
Qed.

(** X3. On a list of N >= 1 items and from an index in [0, N), 'previous'
    then 'next' gives the hook back as it was; a direction other than
    'next' and 'previous' changes nothing. *)
Theorem navigate_previous_then_next (h : hook) :
  (1 ≤ totalMedia h → 0 ≤ currentIndex h < totalMedia h →
   navigateMedia "next" (navigateMedia "previous" h) = h) ∧
  (∀ d, d ≠ "next" → d ≠ "previous" → navigateMedia d h = h).
Proof.
  split.
  - intros HN Hi.
    assert (Hne : allMedia h ≠ []).
    { intros E. unfold totalMedia in HN. rewrite E in HN. simpl in HN. lia. }
    rewrite (navigate_is_set "next").
    rewrite navigate_next_index by (by rewrite navigate_allMedia).
    unfold totalMedia in *. rewrite navigate_allMedia.
    fold (totalMedia h). rewrite navigate_previous_index_in_range by done.
    rewrite (navigate_is_set "previous"), set_currentIndex_twice.
    match goal with
    | |- set_currentIndex ?x h = h =>
        replace x with (currentIndex h); [apply set_currentIndex_same|]
    end.
    unfold totalMedia.
    destruct (Z.eqb_spec (currentIndex h) 0) as [E|E].
    + replace (Z.of_nat (length (allMedia h)) - 1 + 1)
        with (Z.of_nat (length (allMedia h))) by lia.
      rewrite Z.rem_same; lia.
    + rewrite Z.rem_small; lia.
  - intros d Hn Hp. unfold navigateMedia.
    destruct (_ =? 0); [done|].
    rewrite !bool_decide_eq_false_2 by done. apply set_currentIndex_same.
Qed.

Lemma navigate_previous_then_next_witness :
  navigateMedia "next" (navigateMedia "previous" three_items) = three_items.
Proof.
  apply (proj1 (navigate_previous_then_next three_items));
    vm_compute; [congruence | split; congruence].
Defined.

Lemma navigate_times_allMedia (d : string) (k : nat) (h : hook) :
  allMedia (navigate_times d k h) = allMedia h.
Proof.
  induction k as [|k IH]; [done|].
  unfold navigate_times in *. cbn. by rewrite navigate_allMedia.
Qed.

Lemma navigate_times_is_set (d : string) (k : nat) (h : hook) :
  navigate_times d k h
  = set_currentIndex (currentIndex (navigate_times d k h)) h.
Proof.
  induction k as [|k IH]; [by rewrite set_currentIndex_same|].
  unfold navigate_times in *. cbn.
  rewrite (navigate_is_set d) at 1. rewrite IH at 2.
  by rewrite set_currentIndex_twice.
Qed.

(** X4. 'next' k times from index i over N >= 1 items leads to index
    (i + k) mod N; in particular N times 'next' visits every item once and
    gives the hook back as it was. *)
Theorem navigate_next_cycles (h : hook) (k : nat) :
  1 ≤ totalMedia h → 0 ≤ currentIndex h < totalMedia h →
  currentIndex (navigate_times "next" k h)
  = (currentIndex h + Z.of_nat k) `mod` totalMedia h ∧
  navigate_times "next" (length (allMedia h)) h = h.
Proof.
  intros HN Hi.
  assert (Hne : allMedia h ≠ []).
  { intros E. unfold totalMedia in HN. rewrite E in HN. simpl in HN. lia. }
  assert (Hk : ∀ k, currentIndex (navigate_times "next" k h)
                    = (currentIndex h + Z.of_nat k) `mod` totalMedia h).
  { clear k. intros k. induction k as [|k IH].
    - cbn. rewrite Z.add_0_r, Z.mod_small; lia.
    - change (navigate_times "next" (S k) h)
        with (navigateMedia "next" (navigate_times "next" k h)).
      rewrite navigate_next_index by (by rewrite navigate_times_allMedia).
      unfold totalMedia in *. rewrite navigate_times_allMedia, IH.
      set (n := Z.of_nat (length (allMedia h))) in *.
      pose proof (Z.mod_pos_bound (currentIndex h + Z.of_nat k) n).
      rewrite Z.rem_mod_nonneg by lia.
      rewrite Zplus_mod_idemp_l. f_equal. lia. }
  split; [apply Hk|].
  rewrite navigate_times_is_set, Hk. unfold totalMedia.
  replace (currentIndex h + Z.of_nat (length (allMedia h)))
    with (currentIndex h + 1 * Z.of_nat (length (allMedia h))) by lia.
  unfold totalMedia in *. rewrite Z_mod_plus_full, Z.mod_small by lia.
  apply set_currentIndex_same.
Qed.

Lemma navigate_next_cycles_witness :
  currentIndex (navigate_times "next" 2 three_items) = 1 ∧
  navigate_times "next" 3 three_items = three_items.
Proof.
  destruct (navigate_next_cycles three_items 2) as [H1 H2];
    [vm_compute; congruence | vm_compute; split; congruence |].
  split; [rewrite H1; reflexivity | exact H2].
Defined.

(** ** A hook that is never enabled *)

Lemma step_dormant (cfg : frontendConfig) (h h' : hook) (e : event) :
  step cfg h e = Some h' → enables e = false → dormant h → dormant h'.
Proof.
  intros Hs He (Hp & Hso & Htm & Hpi & Hws & Hrt & Hst & Hsr & Hm & Hl & Hps).
  destruct e; unfold step in Hs; rewrite ?Hso, ?Htm, ?Hpi in Hs;
    try done.
  - simplify_eq. unfold navigateMedia. rewrite Hm. cbn.
    unfold dormant. by split_and!.
  - cbn in He. destruct (_ && _) eqn:E; simplify_eq.
    + unfold dormant. by split_and!.
    + unfold effect, cleanup, release_socket. rewrite Hrt, Hws. cbn.
      rewrite He. cbn. rewrite Hws. unfold dormant. cbn. by split_and!.
Qed.

Lemma dormant_mount (a c : bool) : a && c = false → dormant (mount a c).
Proof.
  intros E. unfold mount, effect. cbn. rewrite E. unfold dormant. cbn.
  by split_and!.
Qed.

(** X5. A hook whose schedule has never been active while the server was
    reachable (at mount or at any render) never creates a socket and never
    schedules a timer or sends a ping: it stays disconnected, loading,
    not ready and without items, whatever else is called. *)
Theorem never_enabled_never_connects
    (cfg : frontendConfig) (a c : bool) (evs : list event) (h : hook) :
  a && c = false → existsb enables evs = false →
  run cfg (mount a c) evs = Some h →
  sockets h = [] ∧ timeouts h = [] ∧ pings_sent h = [] ∧
  webSocketStatus h = disconnected ∧ exposed_serverReady h = false ∧
  loading h = true ∧ getCurrentMedia h = None.
Proof.
  intros Hac He Hr.
  assert (Hd : dormant h).
  { pose proof (dormant_mount a c Hac) as Hd. revert Hr Hd He.
    generalize (mount a c). induction evs as [|e evs IH]; intros h0 Hr Hd He.
    - by simplify_eq/=.
    - cbn in Hr, He. apply orb_false_iff in He as [He1 He2].
      destruct (step cfg h0 e) as [h1|] eqn:Hs; [|done].
      eauto using step_dormant. }
  destruct Hd as (Hp & Hso & Htm & Hpi & Hws & Hrt & Hst & Hsr & Hm & Hl & Hps).
  split_and!; try done.
  - unfold exposed_serverReady. by rewrite Hsr, Hm.
  - unfold getCurrentMedia. rewrite Hm. by case_match.
Qed.

Lemma never_enabled_never_connects_witness :
  ∃ h, run two_retries (mount true false)
         [Navigate "next"; Render false false; Render false true] = Some h ∧
       sockets h = [] ∧ webSocketStatus h = disconnected.
Proof.
  eexists. split; [vm_compute; reflexivity|].
  match goal with
  | |- sockets ?h = _ ∧ _ =>
      destruct (never_enabled_never_connects two_retries true false
                  [Navigate "next"; Render false false; Render false true] h)
        as (H1 & _ & _ & H4 & _); [reflexivity.. | vm_compute; reflexivity |]
  end.
  by split.
Defined.

(** ** Bookkeeping of sockets and timers *)

Lemma live_lt (l : list socket) (id : nat) :
  live l id → (id < length l)%nat.
Proof. intros (s & Hs & _). by eapply lookup_lt_Some. Qed.

Lemma live_alter_keep (f : socket → socket) (i : nat) (l : list socket)
    (id : nat) :
  (∀ s, l !! i = Some s →
        (readyState (f s) = CLOSED ↔ readyState s = CLOSED)) →
  live (alter f i l) id ↔ live l id.
Proof.
  intros Hf. unfold live. rewrite list_lookup_alter.
  case_decide as E; [subst i|done].
  destruct (l !! id) as [s|] eqn:Hs; cbn.
  - specialize (Hf s eq_refl). split.
    + intros (s' & [= <-] & Hn). exists s. split; [done|]. by rewrite <- Hf.
    + intros (s' & [= <-] & Hn). exists (f s). split; [done|]. by rewrite Hf.
  - split; by intros (? & ? & _).
Qed.

Lemma close_call_closed (s : socket) :
  readyState (close_call s) = CLOSED ↔ readyState s = CLOSED.
Proof. unfold close_call. by destruct (readyState s) eqn:E; cbn; rewrite ?E. Qed.

Lemma live_alter_closed (i : nat) (l : list socket) (id : nat) :
  live (alter (set_readyState CLOSED) i l) id ↔ live l id ∧ id ≠ i.
Proof.
  unfold live. rewrite list_lookup_alter. case_decide as E.
  - subst i. split.
    + intros (s & Hs & Hn). destruct (l !! id); by simplify_eq/=.
    + by intros [_ ?].
  - split; [intros H; split; [done | congruence] | by intros [? _]].
Qed.

Lemma live_snoc (l : list socket) (s : socket) (id : nat) :
  readyState s ≠ CLOSED →
  live (l ++ [s]) id ↔ live l id ∨ id = length l.
Proof.
  intros Hs. unfold live. split.
  - intros (s' & Hl & Hn).
    destruct (decide (id < length l)%nat) as [Hlt|Hge].
    + left. rewrite lookup_app_l in Hl by done. eauto.
    + right. apply lookup_lt_Some in Hl. rewrite length_app in Hl.
      cbn in Hl. lia.
  - intros [(s' & Hl & Hn) | ->].
    + exists s'. split; [|done]. by apply lookup_app_l_Some.
    + exists s. split; [|done]. by apply list_lookup_middle.
Qed.

Lemma tidy_frame (h h' : hook) :
  sockets h' = sockets h → pingIntervals h' = pingIntervals h →
  wsRef h' = wsRef h → timeouts h' = timeouts h →
  next_handle h' = next_handle h → tidy h → tidy h'.
Proof.
  unfold tidy, keep_alive_follows_sockets, current_socket_alive,
    handles_fresh.
  by intros -> -> -> -> ->.
Qed.

Lemma tidy_clearTimeout (t : nat) (h : hook) :
  tidy h → tidy (clearTimeout t h).
Proof.
  intros (Hk & Hc & Hf). unfold tidy. split_and!; [done..|].
  unfold handles_fresh, clearTimeout. cbn. by apply Forall_filter_keep.
Qed.

Lemma tidy_release_socket (h : hook) :
  tidy h → tidy (release_socket h) ∧ wsRef (release_socket h) = None ∧
  length (sockets (release_socket h)) = length (sockets h).
Proof.
  intros (Hk & Hc & Hf). unfold release_socket.
  destruct (wsRef h) as [id|] eqn:Hw; [|by split_and!].
  cbn. rewrite length_alter. split_and!; try done.
  unfold tidy. split_and!; [| by intros j | done].
  destruct Hk as [Hnd Hk]. split; [done|]. intros j. cbn.
  rewrite Hk. symmetry. apply live_alter_keep.
  intros s _. apply close_call_closed.
Qed.

Lemma tidy_connect (a c : bool) (h : hook) : tidy h → tidy (connect a c h).
Proof.
  intros Ht. unfold connect. destruct (_ || _); [done|].
  destruct (tidy_release_socket h Ht) as ((Hk & Hc & Hf) & Hw & Hlen).
  set (h1 := release_socket h) in *.
  assert (Hnew : CONNECTING ≠ CLOSED) by done.
  unfold tidy. split_and!.
  - destruct Hk as [Hnd Hk]. split; cbn.
    + apply NoDup_app. split_and!; [done | | apply NoDup_singleton].
      intros j Hj ->%list_elem_of_singleton.
      apply Hk, live_lt in Hj. lia.
    + intros j. rewrite elem_of_app, list_elem_of_singleton, Hk.
      symmetry. by apply live_snoc.
  - intros j. cbn. intros [= <-]. apply live_snoc; [done | by right].
  - done.
Qed.

Lemma tidy_onclose (cfg : frontendConfig) (id : nat) (s : socket)
    (h : hook) :
  sockets h !! id = Some s → tidy h →
  tidy (clear_ping id
          (onclose cfg (sock_active s) (sock_connected s)
             (set_sockets (alter (set_readyState CLOSED) id (sockets h)) h))).
Proof.
  intros Hid ((Hnd & Hk) & Hc & Hf).
  assert (Hcore :
    keep_alive_follows_sockets
      (clear_ping id
         (set_wsRef None
            (set_sockets (alter (set_readyState CLOSED) id (sockets h)) h)))).
  { split; cbn.
    - by apply NoDup_filter.
    - intros j. rewrite list_elem_of_filter, Hk, live_alter_closed. tauto. }
  unfold onclose. cbn. unfold tidy.
  destruct (_ && _).
  - split_and!; [exact Hcore | by intros j | ].
    unfold handles_fresh in *. cbn. apply Forall_app_2.
    + eapply Forall_impl; [exact Hf|]. cbn. intros; lia.
    + apply Forall_singleton. cbn. lia.
  - split_and!; [exact Hcore | by intros j | exact Hf].
Qed.

Lemma tidy_opened (id : nat) (s : socket) (h : hook) :
  sockets h !! id = Some s → readyState s = CONNECTING → tidy h →
  tidy (onopen (set_sockets (alter (set_readyState OPEN) id (sockets h)) h)).
Proof.
  intros Hid Hs ((Hnd & Hk) & Hc & Hf).
  assert (Hlive : ∀ j, live (alter (set_readyState OPEN) id (sockets h)) j
                       ↔ live (sockets h) j).
  { intros j. apply live_alter_keep. intros s' Hs'. simplify_eq.
    cbn. rewrite Hs. done. }
  assert (Ht : tidy (set_sockets (alter (set_readyState OPEN) id (sockets h)) h)).
  { unfold tidy. split_and!; [split; [done|] | | done].
    - intros j. cbn. by rewrite Hk, Hlive.
    - intros j Hj. cbn. apply Hlive. by apply Hc. }
  unfold onopen. cbn.
  destruct (reconnectTimerRef h) as [t|].
  - eapply tidy_frame; [.. | apply (tidy_clearTimeout t), Ht]; done.
  - eapply tidy_frame; [.. | exact Ht]; done.
Qed.

Lemma step_tidy (cfg : frontendConfig) (h h' : hook) (e : event) :
  step cfg h e = Some h' → tidy h → tidy h'.
Proof.
  intros Hs Ht. destruct e; unfold step in Hs.
  - destruct (sockets h !! id0) as [s|] eqn:Hid; [|done].
    case_bool_decide; simplify_eq. by eapply tidy_opened.
  - destruct (sockets h !! id0) as [s|] eqn:Hid; [|done].
    case_bool_decide; simplify_eq.
    eapply tidy_frame; [.. | exact Ht];
      destruct m as [|ty media]; unfold onmessage; try done;
      by destruct (is_playlist_kind ty).
  - destruct (sockets h !! id0) as [s|] eqn:Hid; [|done].
    case_bool_decide; simplify_eq. by eapply tidy_frame.
  - destruct (sockets h !! id0) as [s|] eqn:Hid; [|done].
    case_bool_decide; simplify_eq. by apply tidy_onclose.
  - destruct (list_find _ _) as [[i tm]|]; simplify_eq.
    by apply tidy_connect, tidy_clearTimeout.
  - case_bool_decide; simplify_eq. unfold ping.
    repeat case_match; try done; by eapply tidy_frame.
  - simplify_eq. rewrite (navigate_is_set direction).
    by eapply tidy_frame.
  - destruct (_ && _); simplify_eq; [done|].
    assert (Hc : tidy (cleanup h)).
    { unfold cleanup. destruct (reconnectTimerRef h) as [t|].
      - by apply tidy_release_socket, tidy_clearTimeout.
      - by apply tidy_release_socket. }
    assert (Hp : tidy (set_isServerConnected c
                         (set_isScheduleActive a (cleanup h))))
      by (by eapply tidy_frame).
    unfold effect. destruct (_ && _).
    + by apply tidy_connect.
    + by apply tidy_release_socket.
Qed.

Lemma tidy_mount (a c : bool) : tidy (mount a c).
Proof.
  assert (Hi : tidy (initial a c)).
  { unfold tidy. split_and!.
    - split; [constructor|]. intros id. cbn. split.
      + by intros ?%elem_of_nil.
      + by intros (s & ? & _).
    - by intros id.
    - constructor. }
  unfold mount, effect. destruct (_ && _).
  - by apply tidy_connect.
  - by apply tidy_release_socket.
Qed.

Lemma run_tidy (cfg : frontendConfig) (evs : list event) (h h' : hook) :
  run cfg h evs = Some h' → tidy h → tidy h'.
Proof.
  revert h. induction evs as [|e evs IH]; intros h Hr Ht; simplify_eq/=.
  - done.
  - destruct (step cfg h e) as [h1|] eqn:Hs; [|done].
    eauto using step_tidy.
Qed.

(** X6. In every state of a mounted hook the keep-alive timers installed
    are exactly those of the sockets that have not closed, one each: the
    timer of a socket is torn down when the socket closes and never leaks
    across reconnects; and the socket held in [wsRef] has not closed. *)
Theorem keep_alive_timers_follow_sockets
    (cfg : frontendConfig) (a c : bool) (evs : list event) (h : hook) :
  run cfg (mount a c) evs = Some h →
  NoDup (pingIntervals h) ∧
  (∀ id, id ∈ pingIntervals h ↔
         ∃ s, sockets h !! id = Some s ∧ readyState s ≠ CLOSED) ∧
  (∀ id, wsRef h = Some id →
         ∃ s, sockets h !! id = Some s ∧ readyState s ≠ CLOSED).
Proof.
  intros Hr.
  destruct (run_tidy _ _ _ _ Hr (tidy_mount a c)) as ((Hnd & Hk) & Hc & _).
  by split_and!.
Qed.

Lemma keep_alive_timers_follow_sockets_witness :
  ∃ h, run two_retries (mount true true) outage = Some h ∧
       pingIntervals h = [] ∧ NoDup (pingIntervals h).
Proof.
  eexists. split; [vm_compute; reflexivity|]. split; [reflexivity|].
  match goal with
  | |- NoDup (pingIntervals ?h) =>
      destruct (keep_alive_timers_follow_sockets two_retries true true
                  outage h) as (Hnd & _); [vm_compute; reflexivity|exact Hnd]
  end.
Defined.

(** ** Deactivation *)

Lemma list_find_snoc_fresh (t : nat) (l : list timeout) (tm : timeout) :
  Forall (λ x, (handle x < t)%nat) l → handle tm = t →
  list_find (λ x, handle x = t) (l ++ [tm]) = Some (length l, tm).
Proof.
  intros Hl Ht. apply list_find_Some. split_and!.
  - by apply list_lookup_middle.
  - done.
  - intros j y Hj Hlt Hy. rewrite lookup_app_l in Hj by done.
    pose proof (Forall_lookup_1 _ _ _ _ Hl Hj) as Hlt'. cbn in Hlt'. lia.
Qed.

(** What the cleanup of the effect leaves behind when a socket is held. *)
Lemma cleanup_holding (h : hook) (id : nat) :
  wsRef h = Some id →
  sockets (cleanup h) = alter close_call id (sockets h) ∧
  wsRef (cleanup h) = None ∧
  next_handle (cleanup h) = next_handle h ∧
  reconnectAttemptsRef (cleanup h) = reconnectAttemptsRef h ∧
  timeouts (cleanup h) ⊆ timeouts h.
Proof.
  intros Hw. unfold cleanup, release_socket.
  destruct (reconnectTimerRef h) as [t|]; cbn; rewrite Hw; cbn;
    split_and!; try done.
  apply list_subseteq_filter.
Qed.

(** X7. Deactivating the hook does not stop it from reconnecting.  When the
    schedule becomes inactive while a socket created under an active
    schedule and a reachable server is held, the cleanup closes that
    socket; its close event then still schedules a reconnect (its handler
    has the old flag), and when that timer fires a new socket is created
    although the schedule is inactive. *)
Theorem reconnect_outlives_deactivation
    (cfg : frontendConfig) (a c c' : bool) (evs : list event) (h : hook)
    (id : nat) (s : socket) :
  run cfg (mount a c) evs = Some h →
  wsRef h = Some id → sockets h !! id = Some s →
  sock_active s = true → sock_connected s = true →
  isScheduleActive h = true →
  reconnectAttemptsRef h < maxReconnectAttempts cfg →
  ∃ h', run cfg h [Render false c'; SockClose id;
                   TimeoutFires (next_handle h)] = Some h' ∧
        isScheduleActive h' = false ∧
        wsRef h' = Some (length (sockets h)) ∧
        sockets h' !! length (sockets h)
        = Some {| readyState := CONNECTING; sock_active := true;
                  sock_connected := true |} ∧
        webSocketStatus h' = connecting.
Proof.
  intros Hr Hw Hid Hact Hcon Ha Hlt.
  destruct (run_tidy _ _ _ _ Hr (tidy_mount a c)) as (_ & Hc & Hf).
  destruct (Hc id Hw) as (s0 & Hs0 & Hlive). simplify_eq.
  destruct (cleanup_holding h id Hw) as (Cs & Cw & Cn & Ca & Ct).
  (* the render that deactivates *)
  set (h1 := set_isServerConnected c'
               (set_isScheduleActive false (cleanup h))).
  assert (S1 : step cfg h (Render false c') = Some h1).
  { unfold step. rewrite Ha. cbn. unfold effect. cbn.
    unfold release_socket. cbn. by rewrite Cw. }
  (* the close event of the socket the cleanup closed *)
  assert (Hid1 : sockets h1 !! id = Some (close_call s)).
  { cbn. rewrite Cs, list_lookup_alter. rewrite decide_True by done.
    by rewrite Hid. }
  assert (Hopen : readyState (close_call s) ≠ CLOSED)
    by (by rewrite close_call_closed).
  assert (Hflags : sock_active (close_call s) = true ∧
                   sock_connected (close_call s) = true).
  { unfold close_call. by destruct (readyState s). }
  destruct Hflags as [Hact1 Hcon1].
  set (tm := {| handle := next_handle h; delay := reconnectInterval cfg;
                tm_active := true; tm_connected := true |}).
  destruct (step cfg h1 (SockClose id)) as [h2|] eqn:S2; cycle 1.
  { unfold step in S2. rewrite Hid1 in S2.
    by rewrite bool_decide_eq_false_2 in S2. }
  assert (H2 : timeouts h2 = timeouts (cleanup h) ++ [tm] ∧
               wsRef h2 = None ∧
               length (sockets h2) = length (sockets h) ∧
               isScheduleActive h2 = false).
  { unfold step in S2. rewrite Hid1 in S2.
    rewrite bool_decide_eq_false_2 in S2 by done. simplify_eq.
    unfold onclose. cbn. rewrite Hact1, Hcon1, Ca. cbn.
    destruct (Z.ltb_spec (reconnectAttemptsRef h)
                (maxReconnectAttempts cfg)); [|lia].
    cbn. rewrite Cn, Cs, !length_alter. by split_and!. }
  destruct H2 as (T2 & W2 & L2 & A2).
  (* the reconnect fires *)
  assert (Hfind : list_find (λ x, handle x = next_handle h) (timeouts h2)
                  = Some (length (timeouts (cleanup h)), tm)).
  { rewrite T2. apply list_find_snoc_fresh; [|done].
    apply Forall_forall. intros x Hx. apply Ct in Hx.
    unfold handles_fresh in Hf. rewrite Forall_forall in Hf. by apply Hf. }
  eexists. split.
  { cbn [run]. rewrite S1, S2. unfold step. rewrite Hfind. reflexivity. }
  unfold connect, current_is_open, release_socket, clearTimeout.
  cbn [wsRef set_timeouts negb orb]. rewrite !W2.
  cbn. rewrite A2, L2. split_and!; try done.
  apply list_lookup_middle. by rewrite L2.
Qed.

Lemma reconnect_outlives_deactivation_witness :
  ∃ h', run two_retries (mount true true)
          [Render false true; SockClose 0; TimeoutFires 1] = Some h' ∧
        isScheduleActive h' = false ∧ wsRef h' = Some 1%nat ∧
        webSocketStatus h' = connecting.
Proof.
  destruct (reconnect_outlives_deactivation two_retries true true true []
              (mount true true) 0
              {| readyState := CONNECTING; sock_active := true;
                 sock_connected := true |})
    as (h' & Hr & Ha & Hw & _ & Hs); try reflexivity.
  exists h'. by split_and!.
Defined.

End HookFacts.

(* ===================================================================== *)
(** * Part IV. Properties of the mirror job                               *)
(* ===================================================================== *)

Module DriveFacts.
Import Drive.

(** ** Running a computation *)

Lemma bind_ok {A B} (m : M A) (f : A → M B) (w w1 : world) (a : A) :
  m w = (Ok a, w1) → bind m f w = f a w1.
Proof. unfold bind. by intros ->. Qed.

Lemma bind_throw {A B} (m : M A) (f : A → M B) (w w1 : world) (e : error) :
  m w = (Throw e, w1) → bind m f w = (Throw e, w1).
Proof. unfold bind. by intros ->. Qed.

Lemma bind_inv_ok {A B} (m : M A) (f : A → M B) (w w' : world) (b : B) :
  bind m f w = (Ok b, w') →
  ∃ a w1, m w = (Ok a, w1) ∧ f a w1 = (Ok b, w').
Proof.
  unfold bind. destruct (m w) as [[a|e| |] w1]; intros; simplify_eq. eauto.
Qed.

Lemma try_catch_ok {A} (m : M A) (h : error → M A) (w w1 : world) (a : A) :
  m w = (Ok a, w1) → try_catch m h w = (Ok a, w1).
Proof. unfold try_catch. by intros ->. Qed.

Lemma try_catch_throw {A} (m : M A) (h : error → M A) (w w1 : world)
    (e : error) :
  m w = (Throw e, w1) → try_catch m h w = h e w1.
Proof. unfold try_catch. by intros ->. Qed.

(** Splits a run of [bind] or [try_catch] by the outcome of its first part. *)
Ltac run_first :=
  match goal with
  | H : context [bind ?m ?f ?w] |- _ =>
      let E := fresh "E" in
      unfold bind at 1 in H;
      destruct (m w) as [[?|?| |] ?] eqn:E; simplify_eq
  | H : context [try_catch ?m ?f ?w] |- _ =>
      let E := fresh "E" in
      unfold try_catch at 1 in H;
      destruct (m w) as [[?|?| |] ?] eqn:E; simplify_eq
  end.

(** ** What a computation leaves alone *)

Section Respects.
Context (R : relation world) `{!PreOrder R}.

Lemma respects_ret {A} (a : A) : respects R (ret a).
Proof. intros w r w' [= <- <-]. done. Qed.

Lemma respects_throw {A} (e : error) : respects R (@throw A e).
Proof. intros w r w' [= <- <-]. done. Qed.

Lemma respects_never {A} : respects R (@never A).
Proof. intros w r w' [= <- <-]. done. Qed.

Lemma respects_out_of_fuel {A} : respects R (@out_of_fuel A).
Proof. intros w r w' [= <- <-]. done. Qed.

Lemma respects_update (f : world → world) :
  (∀ w, R w (f w)) → respects R (update f).
Proof. intros Hf w r w' [= <- <-]. done. Qed.

Lemma respects_bind {A B} (m : M A) (f : A → M B) :
  respects R m → (∀ a, respects R (f a)) → respects R (bind m f).
Proof.
  intros Hm Hf w r w' H. unfold bind in H.
  destruct (m w) as [[a|e| |] w1] eqn:E; simplify_eq; try by eapply Hm.
  etrans; [by eapply Hm | by eapply Hf].
Qed.

Lemma respects_try_catch {A} (m : M A) (h : error → M A) :
  respects R m → (∀ e, respects R (h e)) → respects R (try_catch m h).
Proof.
  intros Hm Hh w r w' H. unfold try_catch in H.
  destruct (m w) as [[a|e| |] w1] eqn:E; simplify_eq; try by eapply Hm.
  etrans; [by eapply Hm | by eapply Hh].
Qed.

End Respects.

#[local] Instance steady_preorder : PreOrder steady.
Proof.
  split.
  - intros w. unfold steady. by split_and!.
  - intros w1 w2 w3 (?&?&?&?&?&?&?&?) (?&?&?&?&?&?&?&?).
    unfold steady. split_and!; try congruence; [by etrans | lia].
Qed.

#[local] Instance log_grows_preorder : PreOrder log_grows.
Proof.
  split; [intros w | intros w1 w2 w3 ? ?]; unfold log_grows in *;
    [done | by etrans].
Qed.

Lemma steady_log_grows (w w' : world) : steady w w' → log_grows w w'.
Proof. by intros (?&?&?&?&?&?&?&?). Qed.

Lemma steady_tick (w : world) : steady w (tick w).
Proof. unfold steady, tick. cbn. split_and!; try done. lia. Qed.

Lemma steady_log (w : world) (l : list (level * message)) :
  steady w (set_log (log w ++ l) w).
Proof.
  unfold steady. cbn. split_and!; try done. by apply prefix_app_r.
Qed.

(** Takes a computation apart along [bind] and [try_catch]. *)
Ltac frames :=
  repeat first
    [ apply respects_bind | apply respects_try_catch | apply respects_ret
    | apply respects_throw | apply respects_never
    | apply respects_out_of_fuel
    | match goal with
      | |- PreOrder _ => apply _
      | |- ∀ _, respects _ _ => intros ?
      end ].

Section Frames.
Variable env : Env.

Lemma logger_steady (l : level) (m : message) : respects steady (logger l m).
Proof. apply respects_update. intros w. apply steady_log. Qed.

Lemma files_list_steady (fid : string) : respects steady (files_list env fid).
Proof.
  intros w r w' H. unfold files_list, settle in H.
  destruct (drive_files_list _ _ _); unfold ret, throw in H; simplify_eq;
    apply steady_tick.
Qed.

Lemma files_get_steady (fid : string) : respects steady (files_get env fid).
Proof.
  intros w r w' H. unfold files_get, settle in H.
  destruct (drive_files_get _ _ _); unfold ret, throw in H; simplify_eq;
    apply steady_tick.
Qed.

Lemma readdir_steady : respects steady (readdir env).
Proof.
  intros w r w' H. unfold readdir in H.
  destruct (fs_readdir_error _ _); simplify_eq; apply steady_tick.
Qed.

Lemma fetch_loop_steady (self : string → M (list RemoteFile)) :
  (∀ fid, respects steady (self fid)) →
  ∀ fuel files i, respects steady (fetch_loop self fuel files i).
Proof.
  intros Hself fuel. induction fuel as [|fuel IH]; intros files i; cbn.
  - frames.
  - destruct (files !! i) as [file|]; [|frames].
    destruct (is_folder file); [|apply IH].
    frames; [apply Hself | apply IH].
Qed.

Lemma fetchFilesFromDrive_steady (fuel : nat) (fid : string) :
  respects steady (fetchFilesFromDrive env fuel fid).
Proof.
  revert fid. induction fuel as [|fuel IH]; intros fid; cbn.
  - frames.
  - frames; [apply files_list_steady | by apply fetch_loop_steady
            | apply logger_steady].
Qed.

Lemma listFiles_steady (fuel : nat) : respects steady (listFiles env fuel).
Proof. unfold listFiles. frames. apply fetchFilesFromDrive_steady. Qed.

End Frames.

(** ** Records returned twice *)

Lemma twice_app_r {A} (x : A) (l1 l2 : list A) :
  twice x l2 → twice x (l1 ++ l2).
Proof.
  intros (i & j & Hij & Hi & Hj).
  exists (length l1 + i)%nat, (length l1 + j)%nat.
  split_and!; [lia | by rewrite lookup_app_r, Nat.add_comm, Nat.add_sub
                      by lia..].
Qed.

Lemma twice_split {A} (x : A) (l : list A) :
  twice x l ↔ ∃ l1 l2 l3, l = l1 ++ x :: l2 ++ x :: l3.
Proof.
  split.
  - intros (i & j & Hij & Hi & Hj).
    apply list_elem_of_split_length in Hi as (l1 & r & -> & ->).
    rewrite lookup_app_r in Hj by lia.
    replace (j - length l1)%nat with (S (j - length l1 - 1)) in Hj by lia.
    cbn in Hj.
    apply list_elem_of_split_length in Hj as (l2 & l3 & -> & _).
    by exists l1, l2, l3.
  - intros (l1 & l2 & l3 & ->).
    exists (length l1), (length l1 + S (length l2))%nat. split_and!.
    + lia.
    + by apply list_lookup_middle.
    + rewrite lookup_app_r by lia.
      replace (length l1 + S (length l2) - length l1)%nat
        with (S (length l2)) by lia.
      cbn. by apply list_lookup_middle.
Qed.

Lemma twice_filter {A} (P : A → Prop) `{!∀ x, Decision (P x)} (x : A)
    (l : list A) :
  P x → twice x l → twice x (filter P l).
Proof.
  intros HP (l1 & l2 & l3 & ->)%twice_split. apply twice_split.
  exists (filter P l1), (filter P l2), (filter P l3).
  rewrite filter_app, filter_cons_True, filter_app, filter_cons_True by done.
  done.
Qed.

Lemma twice_not_NoDup {A} (x : A) (l : list A) : twice x l → ¬ NoDup l.
Proof.
  intros (i & j & Hij & Hi & Hj) Hnd.
  pose proof (NoDup_lookup _ _ _ _ Hnd Hi Hj). lia.
Qed.

Lemma elem_of_concat {A} (x : A) (ls : list (list A)) :
  x ∈ concat ls ↔ ∃ l, l ∈ ls ∧ x ∈ l.
Proof.
  induction ls as [|l ls IH]; cbn.
  - split; [by intros ?%elem_of_nil | by intros (? & ?%elem_of_nil & _)].
  - rewrite elem_of_app, IH. split.
    + intros [?|(l' & ? & ?)]; [exists l | exists l']; split; try done;
        [left | by right].
    + intros (l' & [->|?]%elem_of_cons & ?); [by left | right; eauto].
Qed.

(** Two segments of a concatenation holding [x]. *)
Lemma twice_concat {A} (x : A) (subs : list (list A)) (j1 j2 : nat)
    (s1 s2 : list A) :
  (j1 < j2)%nat → subs !! j1 = Some s1 → subs !! j2 = Some s2 →
  x ∈ s1 → x ∈ s2 → twice x (concat subs).
Proof.
  intros Hlt H1 H2 Hx1 Hx2.
  rewrite <- (take_drop_middle subs j2 s2 H2).
  assert (Hs1 : s1 ∈ take j2 subs).
  { apply list_elem_of_lookup. exists j1. by rewrite lookup_take_lt. }
  assert (Hin : x ∈ concat (take j2 subs)).
  { apply elem_of_concat. eauto. }
  apply list_elem_of_split in Hin as (a & b & Ea).
  apply list_elem_of_split in Hx2 as (c & d & ->).
  rewrite concat_app, Ea. cbn. apply twice_split.
  exists a, (b ++ c), (d ++ concat (drop (S j2) subs)).
  by rewrite <- !app_assoc.
Qed.

(** ** The walk over the folder tree *)

(** The array the loop returns is the array it started with, followed by
    what was pushed for each record from position [i] on, in order. *)
Lemma fetch_loop_shape (self : string → M (list RemoteFile)) (fuel : nat) :
  ∀ files i w out w',
    fetch_loop self fuel files i w = (Ok out, w') →
    ∃ subs, out = files ++ concat subs ∧
            Forall2 (pushed_for self) (drop i out) subs.
Proof.
  induction fuel as [|fuel IH]; intros files i w out w' H; [done|].
  cbn in H. destruct (files !! i) as [file|] eqn:Hi.
  - destruct (is_folder file) eqn:Hf.
    + apply bind_inv_ok in H as (sub & w1 & Hsub & H).
      apply IH in H as (subs & -> & Hall).
      exists (sub :: subs). split; [cbn; by rewrite <- !app_assoc|].
      erewrite (drop_S _ file i)
        by (rewrite <- app_assoc; by apply lookup_app_l_Some).
      constructor; [|done]. unfold pushed_for. rewrite Hf. eauto.
    + apply IH in H as (subs & -> & Hall).
      exists ([] :: subs). split; [done|].
      erewrite (drop_S _ file i) by (by apply lookup_app_l_Some).
      constructor; [|done]. unfold pushed_for. by rewrite Hf.
  - unfold ret in H. simplify_eq. exists []. split; [by rewrite app_nil_r|].
    rewrite drop_ge by (by apply lookup_ge_None). constructor.
Qed.

(** What is true of the listed records and carried over by every push is
    true of all the records returned. *)
Lemma fetch_loop_all (P : RemoteFile → Prop)
    (self : string → M (list RemoteFile)) :
  (∀ g sub w1 w2, P g → is_folder g = true →
                  self (id g) w1 = (Ok sub, w2) → Forall P sub) →
  ∀ fuel files i w out w',
    Forall P files →
    fetch_loop self fuel files i w = (Ok out, w') → Forall P out.
Proof.
  intros Hself fuel.
  induction fuel as [|fuel IH]; intros files i w out w' HP H; [done|].
  cbn in H. destruct (files !! i) as [file|] eqn:Hi.
  - destruct (is_folder file) eqn:Hf.
    + apply bind_inv_ok in H as (sub & w1 & Hsub & H).
      eapply IH; [|done]. apply Forall_app_2; [done|].
      eapply Hself; [|done..]. by eapply Forall_lookup_1.
    + by eapply IH.
  - unfold ret in H. by simplify_eq.
Qed.

Section Tree.
Variable env : Env.
Variable children : string → list RemoteFile.
Hypothesis env_static : static env children.

Lemma files_list_static (fid : string) (w : world) :
  files_list env fid w = (Ok (children fid), tick w).
Proof. unfold files_list. by rewrite env_static. Qed.

Lemma fetch_unfold (fuel : nat) (fid : string) (w : world) :
  fetchFilesFromDrive env (S fuel) fid w
  = try_catch
      (fetch_loop (fetchFilesFromDrive env fuel) fuel (children fid) 0)
      (λ e, logger ERROR (Failed_to_fetch_files e) >> throw e) (tick w).
Proof.
  cbn. unfold try_catch, bind at 1. by rewrite files_list_static.
Qed.

Lemma fetch_ok_inv (fuel : nat) (fid : string) (w w' : world)
    (out : list RemoteFile) :
  fetchFilesFromDrive env fuel fid w = (Ok out, w') →
  ∃ fuel', fuel = S fuel' ∧
    fetch_loop (fetchFilesFromDrive env fuel') fuel' (children fid) 0 (tick w)
    = (Ok out, w').
Proof.
  destruct fuel as [|fuel]; [done|]. rewrite fetch_unfold. intros H.
  exists fuel. split; [done|]. unfold try_catch in H.
  destruct (fetch_loop _ _ _ _ _) as [[?|?| |] ?]; simplify_eq; try done.
Qed.

Lemma fetch_shape (fuel : nat) (fid : string) (w w' : world)
    (out : list RemoteFile) :
  fetchFilesFromDrive env fuel fid w = (Ok out, w') →
  ∃ fuel' subs, fuel = S fuel' ∧ out = children fid ++ concat subs ∧
    Forall2 (pushed_for (fetchFilesFromDrive env fuel')) out subs.
Proof.
  intros (fuel' & -> & H)%fetch_ok_inv.
  apply fetch_loop_shape in H as (subs & -> & Hall).
  exists fuel', subs. by rewrite drop_0 in Hall.
Qed.

Lemma below_trans (fid : string) (sub file : RemoteFile) :
  below children fid sub → is_folder sub = true →
  below children (id sub) file → below children fid file.
Proof.
  intros Hsub. revert file.
  induction Hsub as [fid sub Hin | fid mid sub Hin Hmid Hsub IH];
    intros file Hf Hfile.
  - by eapply below_deeper.
  - eapply below_deeper; [done..|]. by apply IH.
Qed.

(** The walk returns nothing that is not in the tree. *)
Lemma fetch_only_below (fuel : nat) :
  ∀ fid w out w',
    fetchFilesFromDrive env fuel fid w = (Ok out, w') →
    Forall (below children fid) out.
Proof.
  induction fuel as [|fuel IH]; intros fid w out w' H; [done|].
  apply fetch_ok_inv in H as (? & [= <-] & H).
  eapply fetch_loop_all; [| |exact H].
  - intros g sub w1 w2 Hg Hf Hsub.
    apply IH in Hsub. eapply Forall_impl; [exact Hsub|].
    intros file. by apply below_trans.
  - apply Forall_forall. intros file. apply below_child.
Qed.

(** The walk returns everything that is in the tree. *)
Lemma fetch_all_below (fid : string) (file : RemoteFile) :
  below children fid file →
  ∀ fuel w out w',
    fetchFilesFromDrive env fuel fid w = (Ok out, w') → file ∈ out.
Proof.
  induction 1 as [fid file Hin | fid sub file Hin Hf Hfile IH];
    intros fuel w out w' H;
    apply fetch_shape in H as (fuel' & subs & -> & -> & Hall).
  - apply elem_of_app. by left.
  - assert (Hsub : sub ∈ children fid ++ concat subs)
      by (apply elem_of_app; by left).
    apply list_elem_of_lookup in Hsub as [j Hj].
    destruct (Forall2_lookup_l _ _ _ _ _ Hall Hj) as (s & Hs & Hp).
    unfold pushed_for in Hp. rewrite Hf in Hp.
    destruct Hp as (w1 & w2 & Hp). apply IH in Hp.
    apply elem_of_app. right. apply elem_of_concat. exists s. split; [|done].
    apply list_elem_of_lookup. eauto.
Qed.

(** A record below a folder [B] of a folder [A] of the walked folder is
    returned twice: with what is pushed for [A], and again with what is
    pushed for the record of [B] that came with it. *)
Lemma fetch_twice (root : string) (A B file : RemoteFile) (fuel : nat)
    (w w' : world) (out : list RemoteFile) :
  A ∈ children root → is_folder A = true →
  B ∈ children (id A) → is_folder B = true →
  below children (id B) file →
  fetchFilesFromDrive env fuel root w = (Ok out, w') →
  twice file out.
Proof.
  intros HA HfA HB HfB Hfile H.
  apply fetch_shape in H as (fuel' & subs & -> & -> & Hall).
  apply twice_app_r.
  (* the record of A is listed, at position jA *)
  apply list_elem_of_lookup in HA as [jA HjA].
  pose proof (lookup_lt_Some _ _ _ HjA) as HltA.
  assert (HjA' : (children root ++ concat subs) !! jA = Some A)
    by (by apply lookup_app_l_Some).
  destruct (Forall2_lookup_l _ _ _ _ _ Hall HjA') as (sA & HsA & HpA).
  unfold pushed_for in HpA. rewrite HfA in HpA.
  destruct HpA as (w1 & w2 & HpA).
  assert (HBA : B ∈ sA)
    by (eapply fetch_all_below; [by apply below_child | exact HpA]).
  assert (HfileA : file ∈ sA).
  { eapply fetch_all_below; [|exact HpA]. by eapply below_deeper. }
  (* the record of B came with what was pushed for A *)
  assert (HBc : B ∈ concat subs).
  { apply elem_of_concat. exists sA. split; [|done].
    apply list_elem_of_lookup. eauto. }
  apply list_elem_of_lookup in HBc as [q Hq].
  assert (Hq' : (children root ++ concat subs) !! (length (children root) + q)%nat
                = Some B).
  { rewrite lookup_app_r by lia. by rewrite Nat.add_comm, Nat.add_sub. }
  destruct (Forall2_lookup_l _ _ _ _ _ Hall Hq') as (sB & HsB & HpB).
  unfold pushed_for in HpB. rewrite HfB in HpB.
  destruct HpB as (w3 & w4 & HpB).
  assert (HfileB : file ∈ sB) by (by eapply fetch_all_below).
  eapply (twice_concat file subs jA); [|done..]. lia.
Qed.

(** *** More fuel changes nothing *)

Lemma fetch_loop_mono (self self' : string → M (list RemoteFile)) :
  (∀ fid w out w', self fid w = (Ok out, w') → self' fid w = (Ok out, w')) →
  ∀ fuel fuel' files i w out w',
    (fuel ≤ fuel')%nat →
    fetch_loop self fuel files i w = (Ok out, w') →
    fetch_loop self' fuel' files i w = (Ok out, w').
Proof.
  intros Hself fuel.
  induction fuel as [|fuel IH]; intros fuel' files i w out w' Hle H; [done|].
  destruct fuel' as [|fuel']; [lia|]. cbn in *.
  destruct (files !! i) as [file|]; [|done].
  destruct (is_folder file); [|apply IH; [lia | done]].
  apply bind_inv_ok in H as (sub & w1 & Hsub & H).
  rewrite (bind_ok _ _ _ _ _ (Hself _ _ _ _ Hsub)).
  apply IH; [lia | done].
Qed.

Lemma fetch_mono (fuel : nat) :
  ∀ fuel' fid w out w',
    (fuel ≤ fuel')%nat →
    fetchFilesFromDrive env fuel fid w = (Ok out, w') →
    fetchFilesFromDrive env fuel' fid w = (Ok out, w').
Proof.
  induction fuel as [|fuel IH]; intros fuel' fid w out w' Hle H; [done|].
  destruct fuel' as [|fuel']; [lia|].
  apply fetch_ok_inv in H as (? & [= <-] & H).
  rewrite fetch_unfold. apply try_catch_ok.
  eapply fetch_loop_mono; [|by apply Nat.succ_le_mono|exact H].
  intros. eapply IH; [|done]. lia.
Qed.

(** *** The walk of a finite tree returns *)

Section Finite.
Variable rank : string → nat.
Hypothesis rank_decreases :
  ∀ fid g, g ∈ children fid → is_folder g = true →
           (rank (id g) < rank fid)%nat.

Lemma below_rank (fid : string) (g : RemoteFile) :
  below children fid g → is_folder g = true → (rank (id g) < rank fid)%nat.
Proof.
  induction 1 as [fid g Hin | fid sub g Hin Hf Hg IH]; intros Hfg.
  - by apply rank_decreases.
  - specialize (IH Hfg). specialize (rank_decreases _ _ Hin Hf). lia.
Qed.

(** One pass over the records [q] waiting at the end of the array: each
    is visited once, and what was pushed meanwhile waits in turn. *)
Lemma fetch_loop_pass (P : RemoteFile → Prop) (q : list RemoteFile) :
  (∀ g, g ∈ q → is_folder g = true →
        ∀ w, ∃ m sub w', fetchFilesFromDrive env m (id g) w = (Ok sub, w')
                         ∧ Forall P sub) →
  ∀ p rest w, ∃ m0 ext w',
    Forall P ext ∧
    ∀ m n, (m0 ≤ m)%nat →
      fetch_loop (fetchFilesFromDrive env m) (length q + n)
                 (p ++ q ++ rest) (length p) w
      = fetch_loop (fetchFilesFromDrive env m) n
                   (p ++ q ++ rest ++ ext) (length p + length q) w'.
Proof.
  induction q as [|g q IH]; intros Hq p rest w.
  - exists 0%nat, [], w. split; [done|]. intros m n _. cbn.
    by rewrite app_nil_r, Nat.add_0_r.
  - assert (Hq' : ∀ g', g' ∈ q → is_folder g' = true →
        ∀ w, ∃ m sub w', fetchFilesFromDrive env m (id g') w = (Ok sub, w')
                         ∧ Forall P sub).
    { intros g' Hg'. apply Hq. by right. }
    assert (Hg : (p ++ (g :: q) ++ rest) !! length p = Some g)
      by (by apply list_lookup_middle).
    destruct (is_folder g) eqn:Hf.
    + destruct (Hq g (list_elem_of_here _ _) Hf w) as (m1 & sub & w1 & H1 & HP).
      destruct (IH Hq' (p ++ [g]) (rest ++ sub) w1) as (m0 & ext & w' & HPe & Heq).
      exists (m1 `max` m0)%nat, (sub ++ ext), w'.
      split; [by apply Forall_app_2|].
      intros m n Hm. cbn [length Nat.add fetch_loop]. rewrite Hg, Hf.
      erewrite bind_ok by (eapply fetch_mono; [|exact H1]; lia).
      specialize (Heq m n ltac:(lia)).
      rewrite length_app in Heq. cbn [length] in Heq.
      replace (length p + 1)%nat with (S (length p)) in Heq by lia.
      replace (length p + S (length q))%nat
        with (S (length p) + length q)%nat by lia.
      rewrite <- !app_assoc in Heq. cbn in Heq.
      rewrite <- ?app_assoc. cbn. rewrite <- ?app_assoc. exact Heq.
    + destruct (IH Hq' (p ++ [g]) rest w) as (m0 & ext & w' & HPe & Heq).
      exists m0, ext, w'. split; [done|].
      intros m n Hm. cbn [length Nat.add fetch_loop]. rewrite Hg, Hf.
      specialize (Heq m n Hm).
      rewrite length_app in Heq. cbn [length] in Heq.
      replace (length p + 1)%nat with (S (length p)) in Heq by lia.
      replace (length p + S (length q))%nat
        with (S (length p) + length q)%nat by lia.
      rewrite <- !app_assoc in Heq. cbn in Heq. exact Heq.
Qed.

Lemma fetch_loop_at_end (self : string → M (list RemoteFile))
    (fuel : nat) (files : list RemoteFile) (w : world) :
  fetch_loop self (S fuel) files (length files) w = (Ok files, w).
Proof. cbn. by rewrite lookup_ge_None_2. Qed.

Lemma fetch_loop_pass_end (P : RemoteFile → Prop) (q : list RemoteFile) :
  (∀ g, g ∈ q → is_folder g = true →
        ∀ w, ∃ m sub w', fetchFilesFromDrive env m (id g) w = (Ok sub, w')
                         ∧ Forall P sub) →
  ∀ p w, ∃ m0 ext w',
    Forall P ext ∧
    ∀ m n, (m0 ≤ m)%nat →
      fetch_loop (fetchFilesFromDrive env m) (length q + n)
                 (p ++ q) (length p) w
      = fetch_loop (fetchFilesFromDrive env m) n
                   ((p ++ q) ++ ext) (length (p ++ q)) w'.
Proof.
  intros Hq p w.
  destruct (fetch_loop_pass P q Hq p [] w) as (m0 & ext & w' & Hext & Heq).
  exists m0, ext, w'. split; [done|]. intros m n Hm.
  specialize (Heq m n Hm). rewrite app_nil_r in Heq. cbn in Heq.
  by rewrite length_app, <- app_assoc.
Qed.

Lemma fetch_loop_terminates (r : nat) :
  (∀ fid, (rank fid < r)%nat →
          ∀ w, ∃ m out w', fetchFilesFromDrive env m fid w = (Ok out, w')) →
  ∀ q p w,
    Forall (λ g, is_folder g = true → (rank (id g) < r)%nat) q →
    ∃ m out w',
      fetch_loop (fetchFilesFromDrive env m) m (p ++ q) (length p) w
      = (Ok out, w').
Proof.
  induction r as [|r IHr]; intros HT q p w Hq.
  - (* no folder is waiting *)
    destruct (fetch_loop_pass_end (λ _, False) q) with (p := p) (w := w)
      as (m0 & ext & w' & Hext & Heq).
    { intros g Hg Hf. rewrite Forall_forall in Hq.
      specialize (Hq g Hg Hf). lia. }
    destruct ext as [|x ext]; [|by inversion Hext].
    exists (m0 `max` S (length q))%nat, (p ++ q), w'.
    eapply (fetch_loop_mono _ _ (λ _ _ _ _ H, H) (length q + 1));
      [lia|].
    rewrite Heq by lia. rewrite app_nil_r. apply fetch_loop_at_end.
  - destruct (fetch_loop_pass_end
                (λ h, is_folder h = true → (rank (id h) < r)%nat) q)
      with (p := p) (w := w)
      as (m0 & ext & w' & Hext & Heq).
    { intros g Hg Hf w0. rewrite Forall_forall in Hq.
      specialize (Hq g Hg Hf).
      destruct (HT (id g) Hq w0) as (m & sub & w1 & Hsub).
      exists m, sub, w1. split; [done|].
      eapply Forall_impl; [by eapply fetch_only_below|].
      intros h Hh Hfh. cbn. apply (below_rank _ _ Hh) in Hfh. lia. }
    destruct (IHr (λ fid Hfid, HT fid (Nat.lt_lt_succ_r _ _ Hfid))
                ext (p ++ q) w' Hext) as (m1 & out & w'' & H1).
    exists (length q + (m0 `max` m1))%nat, out, w''.
    rewrite Heq by lia.
    eapply fetch_loop_mono; [| |exact H1]; [|lia].
    intros. eapply fetch_mono; [|done]. lia.
Qed.

Lemma fetch_terminates_below (n : nat) :
  ∀ fid, (rank fid < n)%nat →
         ∀ w, ∃ m out w', fetchFilesFromDrive env m fid w = (Ok out, w').
Proof.
  induction n as [|n IH]; intros fid Hn w; [lia|].
  destruct (fetch_loop_terminates (rank fid)) with
    (q := children fid) (p := @nil RemoteFile) (w := tick w)
    as (m & out & w' & H).
  - intros fid' Hfid'. apply IH. lia.
  - apply Forall_forall. intros g Hg Hf. by apply rank_decreases.
  - exists (S m), out, w'. rewrite fetch_unfold. by apply try_catch_ok.
Qed.

(** With enough fuel the walk of a finite tree returns. *)
Lemma fetch_terminates (fid : string) (w : world) :
  ∃ m out w', fetchFilesFromDrive env m fid w = (Ok out, w').
Proof. by apply (fetch_terminates_below (S (rank fid))); lia. Qed.

End Finite.

End Tree.

(** ** The files part of a pass *)

#[local] Instance working_preorder : PreOrder working.
Proof.
  split.
  - intros w. unfold working. by split_and!.
  - intros w1 w2 w3 (?&?&?&?&?&?&?) (?&?&?&?&?&?&?).
    unfold working. split_and!; try congruence; [by etrans | lia].
Qed.

Lemma steady_working (w w' : world) : steady w w' → working w w'.
Proof. intros (?&?&?&?&?&?&?&?). by unfold working. Qed.

Lemma working_log_grows (w w' : world) : working w w' → log_grows w w'.
Proof. by intros (?&?&?&?&?&?&?). Qed.

Lemma respects_weaken {A} (R R' : relation world) (m : M A) :
  (∀ w w', R w w' → R' w w') → respects R m → respects R' m.
Proof. intros HR Hm w r w' H. eapply HR, Hm, H. Qed.

Lemma working_set_dir (d : gset string) (w : world) : working w (set_dir d w).
Proof. unfold working. cbn. by split_and!. Qed.

Lemma working_logged (l : level) (m : message) (w : world) :
  working w (logged l m w).
Proof. apply steady_working, steady_log. Qed.

Lemma set_dir_same (w : world) : set_dir (dir w) w = w.
Proof. by destruct w. Qed.

Lemma written_app (w w1 w2 : world) :
  log_grows w w1 → log_grows w1 w2 →
  written w w2 = written w w1 ++ written w1 w2.
Proof.
  intros [a Ha] [b Hb]. unfold written. rewrite Hb, Ha.
  rewrite <- app_assoc, !drop_app_length.
  by rewrite app_assoc, drop_app_length.
Qed.

Lemma written_logged (l : level) (m : message) (w : world) :
  written w (logged l m w) = [(l, m)].
Proof. unfold written, logged. cbn. by rewrite drop_app_length. Qed.

Section Pass.
Variable env : Env.

(** The listener that resolves is the one of [dest]'s finish. *)
Lemma resolve_touches_file (ev : stream_event) :
  listener_for ev = Some Resolve → touches_file ev = true.
Proof.
  destruct ev as [[] [] ?]; vm_compute; congruence.
Qed.

Lemma elem_of_with_file (p : path) (d : gset string) (n : string) :
  n ∈ with_file env p d ↔ n ∈ d ∨ entry_of (downloadPath env) p = Some n.
Proof.
  unfold with_file. destruct (entry_of _ p) as [m|].
  - rewrite elem_of_union, elem_of_singleton. split.
    + intros [->|?]; [by right | by left].
    + intros [?|[= ->]]; [by right | by left].
  - split; [by left | by intros [?|?]].
Qed.

Lemma elem_of_without (p : path) (d : gset string) (n : string) :
  n ∈ without env p d ↔ n ∈ d ∧ entry_of (downloadPath env) p ≠ Some n.
Proof.
  unfold without. destruct (entry_of _ p) as [m|].
  - rewrite elem_of_difference, elem_of_singleton. split.
    + intros [? Hn]. split; [done|]. intros [= ->]. by apply Hn.
    + intros [? Hn]. split; [done|]. intros ->. by apply Hn.
  - split; [by intros ? | by intros [? _]].
Qed.

Lemma with_file_twice (p : path) (d : gset string) :
  with_file env p (with_file env p d) = with_file env p d.
Proof.
  apply set_eq. intros n. rewrite !elem_of_with_file. tauto.
Qed.

(** How the promise settles decides what [await] gives; only the file at
    [localPath] may have appeared meanwhile. *)
Lemma await_streams_run (localPath : path) (evs : list stream_event)
    (w : world) :
  ∃ d, (d = dir w ∨ d = with_file env localPath (dir w)) ∧
    match settles_with evs with
    | Some Resolve =>
        await_streams env localPath evs w = (Ok tt, set_dir d w) ∧
        d = with_file env localPath (dir w)
    | Some Reject =>
        ∃ e, await_streams env localPath evs w = (Throw e, set_dir d w)
    | None => await_streams env localPath evs w = (Pending, set_dir d w)
    end.
Proof.
  revert w. induction evs as [|ev evs IH]; intros w.
  - exists (dir w). rewrite set_dir_same. cbn. split; [by left | done].
  - cbn [await_streams settles_with].
    destruct (touches_file ev) eqn:Ht.
    + unfold bind at 1, update.
      destruct (listener_for ev) as [[|]|] eqn:Hl.
      * exists (with_file env localPath (dir w)). unfold ret.
        split; [by right | done].
      * exists (with_file env localPath (dir w)). unfold throw.
        split; [by right | eauto].
      * destruct (IH (set_dir (with_file env localPath (dir w)) w))
          as (d & Hd1 & Hd).
        exists d. cbn in Hd1, Hd. rewrite with_file_twice in Hd1, Hd.
        split; [right; by destruct Hd1 | done].
    + unfold bind at 1, ret at 1.
      destruct (listener_for ev) as [[|]|] eqn:Hl.
      * by rewrite (resolve_touches_file _ Hl) in Ht.
      * exists (dir w). rewrite set_dir_same. unfold throw.
        split; [by left | eauto].
      * apply IH.
Qed.

Lemma downloadFile_rejected_request (fileId : string) (localPath : path)
    (w : world) (e : error) :
  drive_files_get env (clock w) fileId = Rejects e →
  downloadFile env fileId localPath w
  = (Throw e, logged ERROR (Failed_to_download_file fileId e) (tick w)).
Proof.
  intros H. unfold downloadFile, bind at 1, try_catch, files_get.
  by rewrite H.
Qed.

Lemma downloadFile_streams (fileId : string) (localPath : path) (w : world)
    (evs : list stream_event) :
  drive_files_get env (clock w) fileId = Resolves evs →
  downloadFile env fileId localPath w
  = await_streams env localPath evs (tick w).
Proof.
  intros H. unfold downloadFile, bind at 1, try_catch, files_get.
  by rewrite H.
Qed.

(** [downloadFile] leaves the schedule alone and can only create the file
    it was asked for; when it returns, that file exists. *)
Lemma downloadFile_run (fileId : string) (localPath : path) (w w' : world)
    (r : result unit) :
  downloadFile env fileId localPath w = (r, w') →
  working w w' ∧
  (dir w' = dir w ∨ dir w' = with_file env localPath (dir w)) ∧
  (r = Ok tt → dir w' = with_file env localPath (dir w)) ∧ r ≠ OutOfFuel.
Proof.
  intros H. destruct (drive_files_get env (clock w) fileId) as [evs|e] eqn:Hg.
  - rewrite (downloadFile_streams _ _ _ _ Hg) in H.
    destruct (await_streams_run localPath evs (tick w)) as (d & Hd1 & Hd).
    assert (Hw : working w (set_dir d (tick w))).
    { etrans; [apply steady_working, steady_tick | apply working_set_dir]. }
    destruct (settles_with evs) as [[|]|].
    + destruct Hd as [Hd Hin]. rewrite Hd in H. simplify_eq. by split_and!.
    + destruct Hd as [e Hd]. rewrite Hd in H. simplify_eq. by split_and!.
    + rewrite Hd in H. simplify_eq. by split_and!.
  - rewrite (downloadFile_rejected_request _ _ _ _ Hg) in H. simplify_eq.
    split_and!; try done; [|by left].
    etrans; [apply steady_working, steady_tick | apply working_logged].
Qed.

(** The body of the download loop, by cases. *)
Lemma download_step_unfold (file : RemoteFile) (w : world) :
  download_step env file w
  = if exists_at env (local_path env (name file)) w then (Ok tt, w)
    else match downloadFile env (id file) (local_path env (name file)) w with
         | (Ok _, w1) => (Ok tt, logged INFO (Downloaded (name file)) w1)
         | (Throw e, w1) =>
             (Ok tt, logged WARN
                       (Failed_to_download_skipping (name file) e) w1)
         | (Pending, w1) => (Pending, w1)
         | (OutOfFuel, w1) => (OutOfFuel, w1)
         end.
Proof.
  unfold download_step, try_catch, bind at 1, pathExists.
  destruct (exists_at _ _ _); [done|]. unfold bind.
  by destruct (downloadFile _ _ _ _) as [[[]|?| |] ?].
Qed.

Lemma exists_at_entry (n l : string) (w : world) :
  entry env l = Some n →
  exists_at env (local_path env l) w = bool_decide (n ∈ dir w).
Proof. unfold entry, exists_at. by intros ->. Qed.

Lemma download_step_run (file : RemoteFile) (w w' : world)
    (r : result unit) :
  download_step env file w = (r, w') →
  working w w' ∧
  (dir w' = dir w ∨
   dir w' = with_file env (local_path env (name file)) (dir w)) ∧
  (r = Ok tt ∨ r = Pending) ∧
  (r = Ok tt → quiet (written w w') →
   ∀ n, entry env (name file) = Some n → n ∈ dir w').
Proof.
  rewrite download_step_unfold.
  destruct (exists_at _ _ _) eqn:Hex.
  - intros [= <- <-]. split_and!; try done; [by left..|].
    intros _ _ n Hn. rewrite (exists_at_entry _ _ _ Hn) in Hex.
    by apply bool_decide_eq_true in Hex.
  - destruct (downloadFile _ _ _ _) as [r1 w1] eqn:Hd.
    apply downloadFile_run in Hd as (Hw & Hd1 & Hok & Hfuel).
    destruct r1 as [[]|e| |]; intros [= <- <-]; try done.
    + split_and!; try done; [by etrans; [|apply working_logged] | by left |].
      intros _ _ n Hn. cbn. rewrite Hok by done.
      apply elem_of_with_file. by right.
    + split_and!; try done; [by etrans; [|apply working_logged] | by left |].
      intros _ Hq. exfalso.
      rewrite (written_app w w1) in Hq;
        [| by apply working_log_grows
         | apply working_log_grows, working_logged ].
      rewrite written_logged in Hq. apply Forall_app in Hq as [_ Hq].
      by inversion Hq.
    + split_and!; try done. by right.
Qed.

Lemma download_step_settles (file : RemoteFile) (w : world) :
  downloads_settle env → ∃ w', download_step env file w = (Ok tt, w').
Proof.
  intros Hs. rewrite download_step_unfold.
  destruct (exists_at _ _ _); [by eauto|].
  destruct (drive_files_get env (clock w) (id file)) as [evs|e] eqn:Hg.
  - rewrite (downloadFile_streams _ _ _ _ Hg).
    destruct (await_streams_run (local_path env (name file)) evs (tick w))
      as (d & _ & Hd).
    specialize (Hs _ _ _ Hg).
    destruct (settles_with evs) as [[|]|]; [| |done].
    + destruct Hd as [-> _]. eauto.
    + destruct Hd as [e ->]. eauto.
  - rewrite (downloadFile_rejected_request _ _ _ _ Hg). eauto.
Qed.

(** The download loop only adds entries, and only those its files are
    written at; when it has skipped nothing, all of these are there. *)
Lemma download_loop_run (files : list RemoteFile) :
  ∀ w w' r,
    download_loop env files w = (r, w') →
    working w w' ∧ dir w ⊆ dir w' ∧
    (∀ n, n ∈ dir w' →
          n ∈ dir w ∨ ∃ file, file ∈ files ∧ entry env (name file) = Some n) ∧
    (r = Ok tt ∨ r = Pending) ∧
    (r = Ok tt → quiet (written w w') →
     ∀ file n, file ∈ files → entry env (name file) = Some n → n ∈ dir w').
Proof.
  induction files as [|file files IH]; intros w w' r H.
  - cbn in H. unfold ret in H. simplify_eq.
    split_and!; try done; [by left.. |].
    intros _ _ file n Hin. by apply elem_of_nil in Hin.
  - cbn in H. unfold bind at 1 in H.
    destruct (download_step env file w) as [r1 w1] eqn:Hstep.
    apply download_step_run in Hstep as (Hw1 & Ha & Hr1 & Hq1).
    assert (Hsub1 : dir w ⊆ dir w1).
    { destruct Ha as [-> | ->]; [done|].
      intros n Hn. apply elem_of_with_file. by left. }
    assert (Hnew1 : ∀ n, n ∈ dir w1 →
              n ∈ dir w ∨ entry env (name file) = Some n).
    { intros n Hn. destruct Ha as [Ha|Ha]; rewrite Ha in Hn; [by left|].
      by apply elem_of_with_file in Hn. }
    destruct r1 as [[]|e| |]; try (by destruct Hr1).
    + apply IH in H as (Hw & Hc & Hd & Hr & Hq).
      split_and!; [by etrans | by etrans | | done |].
      * intros n Hn. destruct (Hd n Hn) as [Hn1|(f & Hf & Hfn)].
        -- destruct (Hnew1 n Hn1) as [?|?]; [by left|].
           right. exists file. split; [left | done].
        -- right. exists f. split; [by right | done].
      * intros Hok Hquiet f n Hf Hfn.
        rewrite (written_app w w1 w') in Hquiet
          by (by apply working_log_grows).
        apply Forall_app in Hquiet as [Hquiet1 Hquiet2].
        apply elem_of_cons in Hf as [->|Hf].
        -- apply Hc. by apply (Hq1 eq_refl Hquiet1).
        -- by apply (Hq Hok Hquiet2 f).
    + simplify_eq. split_and!; [done | done | | by right | done].
      intros n Hn. destruct (Hnew1 n Hn) as [?|?]; [by left|].
      right. exists file. split; [left | done].
Qed.

Lemma download_loop_settles (files : list RemoteFile) (w : world) :
  downloads_settle env → ∃ w', download_loop env files w = (Ok tt, w').
Proof.
  intros Hs. revert w. induction files as [|file files IH]; intros w.
  - by eexists.
  - destruct (download_step_settles file w Hs) as [w1 H1].
    destruct (IH w1) as [w' H']. exists w'. cbn.
    by rewrite (bind_ok _ _ _ _ _ H1).
Qed.

(** The body of the removal loop, by cases. *)
Lemma remove_step_unfold (files : list RemoteFile) (localFile : string)
    (w : world) :
  remove_step env files localFile w
  = if some_named files localFile then (Ok tt, w)
    else match fs_remove_error env (clock w) (local_path env localFile) with
         | Some e => (Ok tt, logged WARN (Failed_to_remove localFile e)
                               (tick w))
         | None => (Ok tt, logged INFO (Removed_local_file localFile)
                             (set_dir (without env (local_path env localFile)
                                         (dir w)) (tick w)))
         end.
Proof.
  unfold remove_step. destruct (some_named files localFile); [done|]. cbn.
  unfold try_catch, bind, remove.
  by destruct (fs_remove_error env (clock w) _).
Qed.

Lemma remove_step_run (files : list RemoteFile) (l : string) (w : world) :
  ∃ w', remove_step env files l w = (Ok tt, w') ∧ working w w' ∧
    (dir w' = dir w ∨
     some_named files l = false ∧
     dir w' = without env (local_path env l) (dir w)) ∧
    (quiet (written w w') → some_named files l = false →
     dir w' = without env (local_path env l) (dir w)).
Proof.
  rewrite remove_step_unfold. destruct (some_named files l) eqn:Hn.
  - exists w. split_and!; try done. by left.
  - destruct (fs_remove_error env (clock w) _) as [e|] eqn:He.
    + eexists. split_and!; [done | | by left |].
      * etrans; [apply steady_working, steady_tick|apply working_logged].
      * intros Hq. exfalso.
        rewrite (written_app w (tick w)) in Hq;
          [| apply steady_log_grows, steady_tick
           | apply working_log_grows, working_logged ].
        rewrite written_logged in Hq. apply Forall_app in Hq as [_ Hq].
        by inversion Hq.
    + eexists. split_and!; [done | | by right | done].
      etrans; [apply steady_working, steady_tick|].
      etrans; [apply working_set_dir | apply working_logged].
Qed.

(** The removal loop only removes entries, and only those of names read
    from the directory that no listed file has; when it has skipped
    nothing, all of these are gone. *)
Lemma remove_loop_run (files : list RemoteFile) (ls : list string) :
  ∀ w, ∃ w',
    remove_loop env files ls w = (Ok tt, w') ∧
    working w w' ∧ dir w' ⊆ dir w ∧
    (∀ n, n ∈ dir w → n ∉ dir w' →
          ∃ l, l ∈ ls ∧ some_named files l = false ∧ entry env l = Some n) ∧
    (quiet (written w w') →
     ∀ l n, l ∈ ls → some_named files l = false → entry env l = Some n →
            n ∉ dir w').
Proof.
  induction ls as [|l ls IH]; intros w.
  - exists w. split_and!; try done.
    intros _ l n Hl. by apply elem_of_nil in Hl.
  - cbn [remove_loop].
    destruct (remove_step_run files l w) as (w1 & H1 & Hw1 & Hd1 & Hq1).
    destruct (IH w1) as (w' & H' & Hw' & Hd' & Hrm' & Hq').
    exists w'. rewrite (bind_ok _ _ _ _ _ H1).
    assert (Hsub1 : dir w1 ⊆ dir w).
    { destruct Hd1 as [-> | [_ ->]]; [done|].
      intros n Hn. by apply elem_of_without in Hn as [? _]. }
    split_and!; [done | by etrans | by etrans | |].
    + intros n Hn Hn'. destruct (decide (n ∈ dir w1)) as [Hin|Hout].
      * destruct (Hrm' n Hin Hn') as (l' & Hl' & Hs' & He').
        exists l'. split_and!; [by right | done..].
      * exists l. destruct Hd1 as [E | [Hs E]]; [by rewrite E in Hout|].
        split_and!; [left | done |].
        rewrite E in Hout. unfold entry.
        destruct (decide (entry_of (downloadPath env) (local_path env l)
                          = Some n)) as [?|Hne]; [done|].
        exfalso. apply Hout. by apply elem_of_without.
    + intros Hquiet l' n Hl' Hs' He' Hin.
      rewrite (written_app w w1 w') in Hquiet by (by apply working_log_grows).
      apply Forall_app in Hquiet as [Hquiet1 Hquiet2].
      apply elem_of_cons in Hl' as [->|Hl'].
      * apply Hd' in Hin. rewrite (Hq1 Hquiet1 Hs') in Hin.
        apply elem_of_without in Hin as [_ Hne]. by apply Hne.
      * by apply (Hq' Hquiet2 l' n).
Qed.

(** *** One attempt *)

Lemma logger_run (l : level) (m : message) (w : world) :
  logger l m w = (Ok tt, logged l m w).
Proof. done. Qed.

Lemma sync_attempt_working (fuel : nat) :
  respects working (sync_attempt env fuel).
Proof.
  unfold sync_attempt.
  apply respects_bind; [apply _ | | intros files].
  { eapply respects_weaken; [apply steady_working | apply listFiles_steady]. }
  apply respects_bind; [apply _ | | intros _].
  { eapply respects_weaken; [apply steady_working | apply logger_steady]. }
  apply respects_bind; [apply _ | | intros localFiles].
  { eapply respects_weaken; [apply steady_working | apply readdir_steady]. }
  apply respects_bind; [apply _ | | intros _].
  { intros w r w' H. by apply download_loop_run in H as (? & _). }
  apply respects_bind; [apply _ | | intros _; frames].
  intros w r w' H.
  destruct (remove_loop_run files localFiles w) as (w1 & H1 & Hw & _).
  rewrite H1 in H. by simplify_eq.
Qed.

(** An attempt that returns has listed the files, read the directory, and
    gone through both loops. *)
Lemma sync_attempt_ok (fuel : nat) (w w' : world) (files : list RemoteFile) :
  sync_attempt env fuel w = (Ok files, w') →
  ∃ w1 w3,
    listFiles env fuel w = (Ok files, w1) ∧ steady w w1 ∧
    fs_readdir_error env (clock w1) = None ∧
    download_loop env files
      (tick (logged INFO (Found_valid_files (length files)) w1))
    = (Ok tt, w3) ∧
    remove_loop env files (elements (dir w)) w3 = (Ok tt, w').
Proof.
  unfold sync_attempt. intros H.
  apply bind_inv_ok in H as (files' & w1 & Hl & H).
  pose proof (listFiles_steady env fuel _ _ _ Hl) as Hs1.
  rewrite (bind_ok _ _ _ _ _ (logger_run _ _ _)) in H.
  apply bind_inv_ok in H as (ls & w2 & Hr & H).
  unfold readdir in Hr. cbn in Hr.
  destruct (fs_readdir_error env (clock w1)) eqn:He; simplify_eq.
  apply bind_inv_ok in H as ([] & w3 & Hd & H).
  apply bind_inv_ok in H as ([] & w4 & Hrm & H).
  unfold ret in H. simplify_eq.
  exists w1, w3. pose proof Hs1 as (Hdir & _). rewrite <- Hdir.
  by split_and!.
Qed.

(** An attempt throws before it has touched any file. *)
Lemma sync_attempt_throw (fuel : nat) (w w' : world) (e : error) :
  sync_attempt env fuel w = (Throw e, w') → steady w w'.
Proof.
  unfold sync_attempt. intros H. unfold bind at 1 in H.
  destruct (listFiles env fuel w) as [[files| | |] w1] eqn:Hl; simplify_eq;
    pose proof (listFiles_steady env fuel _ _ _ Hl) as Hs1; [|done].
  rewrite (bind_ok _ _ _ _ _ (logger_run _ _ _)) in H.
  unfold bind at 1 in H.
  destruct (readdir env _) as [[ls| | |] w2] eqn:Hr; simplify_eq;
    pose proof (readdir_steady env _ _ _ Hr) as Hs2.
  - unfold bind at 1 in H.
    destruct (download_loop env files w2) as [r3 w3] eqn:Hd.
    apply download_loop_run in Hd as (_ & _ & _ & [->| ->] & _);
      [|by simplify_eq].
    destruct (remove_loop_run files ls w3) as (w4 & H4 & _).
    rewrite (bind_ok _ _ _ _ _ H4) in H. by unfold ret in H.
  - etrans; [exact Hs1|]. etrans; [apply steady_log | exact Hs2].
Qed.

(** An attempt that has its listing and can read the directory returns,
    whatever happens to single files, provided the downloads settle. *)
Lemma sync_attempt_returns (fuel : nat) (w w1 : world)
    (files : list RemoteFile) :
  downloads_settle env →
  listFiles env fuel w = (Ok files, w1) →
  fs_readdir_error env (clock w1) = None →
  ∃ w', sync_attempt env fuel w = (Ok files, w').
Proof.
  intros Hs Hl He. unfold sync_attempt.
  rewrite (bind_ok _ _ _ _ _ Hl), (bind_ok _ _ _ _ _ (logger_run _ _ _)).
  unfold bind at 1, readdir. cbn. rewrite He.
  destruct (download_loop_settles files
              (tick (logged INFO (Found_valid_files (length files)) w1)) Hs)
    as [w3 H3].
  rewrite (bind_ok _ _ _ _ _ H3).
  destruct (remove_loop_run files (elements (dir w1)) w3) as (w4 & H4 & _).
  rewrite (bind_ok _ _ _ _ _ H4). by eexists.
Qed.

(** *** The retry loop *)

Lemma syncFiles_unfold (fuel : nat) (w : world) :
  syncFiles env fuel w
  = match sync_attempt env fuel w with
    | (Ok files, w1) => (Ok (Some files), w1)
    | (Throw e1, w1) =>
        match sync_attempt env fuel (backed_off 1 e1 w1) with
        | (Ok files, w2) => (Ok (Some files), w2)
        | (Throw e2, w2) =>
            match sync_attempt env fuel (backed_off 2 e2 w2) with
            | (Ok files, w3) => (Ok (Some files), w3)
            | (Throw e3, w3) =>
                (Throw e3,
                 logged ERROR Max_retry_attempts_reached
                   (logged WARN (Sync_attempt_failed 3 e3) w3))
            | (Pending, w3) => (Pending, w3)
            | (OutOfFuel, w3) => (OutOfFuel, w3)
            end
        | (Pending, w2) => (Pending, w2)
        | (OutOfFuel, w2) => (OutOfFuel, w2)
        end
    | (Pending, w1) => (Pending, w1)
    | (OutOfFuel, w1) => (OutOfFuel, w1)
    end.
Proof.
  unfold syncFiles. change (Z.to_nat MAX_RETRIES) with 3%nat.
  cbn [sync_loop]. change (0 <? MAX_RETRIES) with true. cbv iota.
  unfold try_catch at 1, bind at 1.
  destruct (sync_attempt env fuel w) as [[files|e1| |] w1]; try done.
  cbv zeta. change (0 + 1) with 1. change (1 =? MAX_RETRIES) with false.
  change (1 <? MAX_RETRIES) with true. cbv iota.
  unfold bind at 1, logger at 1, update at 1.
  unfold bind at 1, sleep at 1, update at 1.
  change (set_waits _ _) with (backed_off 1 e1 w1).
  unfold try_catch at 1, bind at 1.
  destruct (sync_attempt env fuel _) as [[files|e2| |] w2]; try done.
  cbv zeta. change (1 + 1) with 2. change (2 =? MAX_RETRIES) with false.
  change (2 <? MAX_RETRIES) with true. cbv iota.
  unfold bind at 1, logger at 1, update at 1.
  unfold bind at 1, sleep at 1, update at 1.
  change (set_waits _ _) with (backed_off 2 e2 w2).
  unfold try_catch at 1, bind at 1.
  destruct (sync_attempt env fuel _) as [[files|e3| |] w3]; try done.
Qed.

Lemma working_backed_off (n : Z) (e : error) (w : world) :
  log_grows w (backed_off n e w) ∧ dir (backed_off n e w) = dir w ∧
  waits (backed_off n e w) = waits w ++ [1000 * n].
Proof.
  unfold backed_off, logged, log_grows. cbn. split_and!; try done.
  by apply prefix_app_r.
Qed.

(** The attempt that returned is the last one made; the attempts before it
    have thrown and left the files alone. *)
Lemma syncFiles_ok (fuel : nat) (w w' : world) (files : list RemoteFile) :
  syncFiles env fuel w = (Ok (Some files), w') →
  ∃ w0, sync_attempt env fuel w0 = (Ok files, w') ∧
        log_grows w w0 ∧ dir w0 = dir w.
Proof.
  rewrite syncFiles_unfold.
  destruct (sync_attempt env fuel w) as [[files1|e1| |] w1] eqn:H1;
    try done.
  { intros [= <- <-]. by exists w. }
  apply sync_attempt_throw in H1.
  destruct (working_backed_off 1 e1 w1) as (Hl1 & Hd1 & _).
  destruct (sync_attempt env fuel (backed_off 1 e1 w1))
    as [[files2|e2| |] w2] eqn:H2; try done.
  { intros [= <- <-]. exists (backed_off 1 e1 w1). split_and!; [done| |].
    - etrans; [by apply steady_log_grows | done].
    - rewrite Hd1. by destruct H1 as (? & _). }
  apply sync_attempt_throw in H2.
  destruct (working_backed_off 2 e2 w2) as (Hl2 & Hd2 & _).
  destruct (sync_attempt env fuel (backed_off 2 e2 w2))
    as [[files3|e3| |] w3] eqn:H3; try done.
  intros [= <- <-]. exists (backed_off 2 e2 w2). split_and!; [done| |].
  - etrans; [by apply steady_log_grows|]. etrans; [done|].
    etrans; [by apply steady_log_grows | done].
  - rewrite Hd2. destruct H2 as (-> & _). rewrite Hd1.
    by destruct H1 as (? & _).
Qed.

End Pass.

(** ** Downloads *)

Lemma settles_with_app (evs evs' : list stream_event) :
  settles_with (evs ++ evs')
  = match settles_with evs with
    | Some a => Some a
    | None => settles_with evs'
    end.
Proof.
  induction evs as [|ev evs IH]; [done|]. cbn.
  by destruct (listener_for ev).
Qed.

(** C8, where the code departs from it. An ['error'] event of the remote
    read stream, arriving before [dest] has finished or failed, does not
    reject the download: no listener is installed for it, and the promise
    [downloadFile] returned stays pending. *)
Theorem read_stream_error_does_not_reject
    (env : Env) (fileId : string) (localPath : path) (w : world)
    (evs : list stream_event) (e : error) :
  drive_files_get env (clock w) fileId
  = Resolves (evs ++ [ {| ev_source := ResponseData; ev_name := EvError;
                          ev_error := e |} ]) →
  settles_with evs = None →
  ∃ w', downloadFile env fileId localPath w = (Pending, w').
Proof.
  intros Hg Hs. rewrite (downloadFile_streams _ _ _ _ _ Hg).
  destruct (await_streams_run env localPath
              (evs ++ [ {| ev_source := ResponseData; ev_name := EvError;
                           ev_error := e |} ]) (tick w))
    as (d & _ & Hd).
  rewrite settles_with_app, Hs in Hd.
  change (settles_with [_]) with (@None action) in Hd. cbv iota in Hd.
  eauto.
Qed.

Lemma read_stream_error_does_not_reject_witness :
  (∃ w', downloadFile broken_stream_env "id-b.mp4" (in_media_dir "b.mp4")
           (start local_before) = (Pending, w')) ∧
  (syncFiles broken_stream_env 5 (start local_before)).1 = Pending.
Proof.
  split.
  - apply (read_stream_error_does_not_reject broken_stream_env
             "id-b.mp4" (in_media_dir "b.mp4") (start local_before)
             [emits Dest EvOpen; emits ResponseData EvData] "aborted");
      reflexivity.
  - vm_compute. reflexivity.
Defined.

(** The two things [downloadFile] does get right: it returns only when
    [dest] has finished, and then the file exists; an error of [dest]
    makes it throw. *)
Lemma downloadFile_returns_on_finish
    (env : Env) (fileId : string) (localPath : path) (w w' : world) :
  downloadFile env fileId localPath w = (Ok tt, w') →
  ∃ evs, drive_files_get env (clock w) fileId = Resolves evs ∧
         settles_with evs = Some Resolve ∧
         dir w' = with_file env localPath (dir w).
Proof.
  intros H. destruct (drive_files_get env (clock w) fileId) as [evs|e] eqn:Hg.
  - exists evs. rewrite (downloadFile_streams _ _ _ _ _ Hg) in H.
    destruct (await_streams_run env localPath evs (tick w)) as (d & _ & Hd).
    destruct (settles_with evs) as [[|]|].
    + destruct Hd as [Hd Hin]. rewrite Hd in H. by simplify_eq.
    + destruct Hd as [e Hd]. by rewrite Hd in H.
    + by rewrite Hd in H.
  - by rewrite (downloadFile_rejected_request _ _ _ _ _ Hg) in H.
Qed.

(** ** C10 *)

Lemma listFiles_ok_inv (env : Env) (fuel : nat) (w w' : world)
    (valid : list RemoteFile) :
  listFiles env fuel w = (Ok valid, w') →
  ∃ out, fetchFilesFromDrive env fuel (config_google_folderId env) w
         = (Ok out, w') ∧
         valid = filter (λ file, isValidFile env (name file) = true) out.
Proof.
  unfold listFiles. intros (out & w1 & H1 & H)%bind_inv_ok.
  unfold ret in H. simplify_eq. eauto.
Qed.

(** C10. In a finite folder tree that does not change, take a folder A of
    the root, a folder B of A, and a valid file in B or below it.  Then,
    with enough fuel, [listFiles] returns, and whenever
    [fetchFilesFromDrive] or [listFiles] return, the record of the file is
    in the result at two positions: the list is not duplicate-free. *)
Theorem nested_files_are_listed_twice
    (env : Env) (children : string → list RemoteFile) (rank : string → nat)
    (A B file : RemoteFile) :
  static env children →
  (∀ fid g, g ∈ children fid → is_folder g = true →
            (rank (id g) < rank fid)%nat) →
  A ∈ children (config_google_folderId env) → is_folder A = true →
  B ∈ children (id A) → is_folder B = true →
  below children (id B) file →
  isValidFile env (name file) = true →
  (∀ w, ∃ fuel valid w', listFiles env fuel w = (Ok valid, w')) ∧
  (∀ fuel w out w',
     fetchFilesFromDrive env fuel (config_google_folderId env) w
     = (Ok out, w') →
     twice file out) ∧
  (∀ fuel w valid w',
     listFiles env fuel w = (Ok valid, w') →
     twice file valid ∧ ¬ NoDup valid).
Proof.
  intros Hstatic Hrank HA HfA HB HfB Hfile Hvalid.
  assert (Htwice : ∀ fuel w out w',
    fetchFilesFromDrive env fuel (config_google_folderId env) w
    = (Ok out, w') → twice file out).
  { intros fuel w out w' H.
    by eapply (fetch_twice env children Hstatic _ A B). }
  split_and!; [|done|].
  - intros w.
    destruct (fetch_terminates env children Hstatic rank Hrank
                (config_google_folderId env) w) as (fuel & out & w' & H).
    exists fuel. eexists. exists w'. unfold listFiles.
    by rewrite (bind_ok _ _ _ _ _ H).
  - intros fuel w valid w' (out & H & ->)%listFiles_ok_inv.
    assert (twice file
              (filter (λ f, isValidFile env (name f) = true) out))
      by (apply twice_filter; [done | by eapply Htwice]).
    split; [done | by apply twice_not_NoDup with file].
Qed.

Lemma nested_rank_decreases (fid : string) (g : RemoteFile) :
  g ∈ nested fid → is_folder g = true →
  (nested_rank (id g) < nested_rank fid)%nat.
Proof.
  unfold nested, nested_rank. intros Hg Hf.
  repeat case_decide; subst;
    repeat match goal with
           | H : _ ∈ [] |- _ => by apply elem_of_nil in H
           | H : _ ∈ [_] |- _ => apply list_elem_of_singleton in H; subst
           end;
    cbn in *; try done; lia.
Qed.

Lemma nested_files_are_listed_twice_witness :
  ∃ valid w',
    listFiles nested_env 8 (start ∅) = (Ok valid, w') ∧
    valid = [media_in "B" "f.jpg"; media_in "B" "f.jpg"] ∧ ¬ NoDup valid.
Proof.
  eexists. eexists. split; [vm_compute; reflexivity|].
  split; [reflexivity|].
  destruct (nested_files_are_listed_twice nested_env nested nested_rank
              (folder "A" "root") (folder "B" "A") (media_in "B" "f.jpg"))
    as (_ & _ & H).
  - done.
  - apply nested_rank_decreases.
  - by apply list_elem_of_singleton.
  - reflexivity.
  - by apply list_elem_of_singleton.
  - reflexivity.
  - apply below_child. by apply list_elem_of_singleton.
  - reflexivity.
  - refine (proj2 (H 8%nat (start ∅) _ _ _)). vm_compute. reflexivity.
Defined.

(** ** C1 *)

Lemma some_named_names (files : list RemoteFile) (n : string) :
  some_named files n = true ↔ n ∈ names files.
Proof.
  unfold some_named, names. induction files as [|file files IH]; cbn.
  - split; [done | by intros ?%not_elem_of_empty].
  - rewrite orb_true_iff, bool_decide_eq_true, IH, elem_of_union,
      elem_of_singleton. split; intros [?|?]; auto.
Qed.

Lemma elem_of_names (files : list RemoteFile) (n : string) :
  n ∈ names files ↔ ∃ file, file ∈ files ∧ name file = n.
Proof.
  unfold names. rewrite elem_of_list_to_set, list_elem_of_fmap.
  split; intros (file & ? & ?); exists file; by split.
Qed.

(** *** Paths *)

(** Joined to the directory, a plain name is the entry of that name. *)
Lemma entry_of_join_plain (d : path) (n : string) :
  plain n = true → entry_of d (path_join d n) = Some n.
Proof.
  intros Hp. pose proof Hp as (Hs & H1 & H2 & H3)%bool_decide_eq_true.
  unfold path_join. rewrite Hs. cbn [foldl last]. unfold descend.
  rewrite decide_False by (by intros [?|?]).
  rewrite decide_False by done.
  rewrite decide_False by (intros (_ & _ & [= ?]); done).
  rewrite app_nil_r. cbn [rev]. rewrite rev_involutive.
  unfold entry_of. rewrite take_app_length, decide_True by done.
  by rewrite drop_app_length, Hp.
Qed.

Lemma entry_plain (env : Env) (n : string) :
  plain n = true → entry env n = Some n.
Proof. apply entry_of_join_plain. Qed.





(** ** C4 *)

Lemma rough_downloads_settle : downloads_settle rough_env.
Proof.
  intros t fileId evs. cbn. case_decide; [done|].
  intros [= <-]. vm_compute. discriminate.
Qed.

(** C4, where the code departs from it. When the remote read stream of a
    download fails before [dest] has finished or failed, the promise of
    [downloadFile] never settles (the defect of C8) and the pass stops at
    that file for good: no skip is logged, no further request is made, so
    the files after it are not visited and the removal loop is not
    reached, and [syncFiles] neither returns nor throws. *)
Theorem unsettled_download_stalls_the_pass (env : Env) :
  (∀ file rest w evs e,
     exists_at env (local_path env (name file)) w = false →
     drive_files_get env (clock w) (id file)
     = Resolves (evs ++ [ {| ev_source := ResponseData; ev_name := EvError;
                             ev_error := e |} ]) →
     settles_with evs = None →
     ∃ w', download_loop env (file :: rest) w = (Pending, w') ∧
           written w w' = [] ∧ clock w' = S (clock w)) ∧
  (∀ fuel w w1 w3 files,
     listFiles env fuel w = (Ok files, w1) →
     fs_readdir_error env (clock w1) = None →
     download_loop env files
       (tick (logged INFO (Found_valid_files (length files)) w1))
     = (Pending, w3) →
     syncFiles env fuel w = (Pending, w3) ∧ waits w3 = waits w ∧
     dir w ⊆ dir w3).
Proof.
  split.
  - intros file rest w evs e Hex Hg Hs. cbn [download_loop].
    unfold bind at 1. rewrite download_step_unfold, Hex.
    rewrite (downloadFile_streams _ _ _ _ _ Hg).
    destruct (await_streams_run env (local_path env (name file))
                (evs ++ [ {| ev_source := ResponseData; ev_name := EvError;
                             ev_error := e |} ]) (tick w))
      as (d & _ & Hd).
    rewrite settles_with_app, Hs in Hd.
    change (settles_with [_]) with (@None action) in Hd. cbv iota in Hd.
    rewrite Hd. eexists. split_and!; [done | | done].
    unfold written. cbn. by rewrite drop_all.
  - intros fuel w w1 w3 files Hl He Hd.
    assert (Ha : sync_attempt env fuel w = (Pending, w3)).
    { unfold sync_attempt.
      rewrite (bind_ok _ _ _ _ _ Hl), (bind_ok _ _ _ _ _ (logger_run _ _ _)).
      unfold bind at 1, readdir. cbn. rewrite He.
      unfold bind at 1. by rewrite Hd. }
    split_and!.
    + by rewrite syncFiles_unfold, Ha.
    + by destruct (sync_attempt_working env fuel _ _ _ Ha) as (? & _).
    + pose proof (listFiles_steady env fuel _ _ _ Hl) as (Hd1 & _).
      apply download_loop_run in Hd as (_ & Hsub & _). cbn in Hsub.
      by rewrite Hd1 in Hsub.
Qed.

Lemma unsettled_download_stalls_the_pass_witness :
  (syncFiles broken_stream_env 5 (start local_before)).1 = Pending ∧
  "c.jpg" ∈ dir (syncFiles broken_stream_env 5 (start local_before)).2 ∧
  written (start local_before)
    (syncFiles broken_stream_env 5 (start local_before)).2
  = [(INFO, Found_valid_files 2)].
Proof.
  destruct (unsettled_download_stalls_the_pass broken_stream_env)
    as [_ Hb].
  destruct (Hb 5%nat (start local_before)
              (listFiles broken_stream_env 5 (start local_before)).2
              (download_loop broken_stream_env
                 [media "a.jpg"; media "b.mp4"]
                 (tick (logged INFO (Found_valid_files 2)
                    (listFiles broken_stream_env 5
                       (start local_before)).2))).2
              [media "a.jpg"; media "b.mp4"])
    as (Hs & _ & Hsub).
  - vm_compute. reflexivity.
  - vm_compute. reflexivity.
  - vm_compute. reflexivity.
  - rewrite Hs. split_and!.
    + reflexivity.
    + apply Hsub. vm_compute. reflexivity.
    + vm_compute. reflexivity.
Defined.

(** ** Files that are skipped *)

(** X15. A download that throws is logged and its file skipped: the loop
    goes on with the next file.  So is a removal that fails.  Neither makes
    the attempt throw: provided every download settles, an attempt that has
    its listing and can read the directory goes through both loops to
    their ends and returns that listing; nothing is waited for, and no
    further attempt is made. *)
Theorem skipped_files_do_not_fail_the_pass (env : Env) :
  (∀ file rest w e w1,
     exists_at env (local_path env (name file)) w = false →
     downloadFile env (id file) (local_path env (name file)) w
     = (Throw e, w1) →
     download_loop env (file :: rest) w
     = download_loop env rest
         (logged WARN (Failed_to_download_skipping (name file) e) w1)) ∧
  (∀ files n rest w e,
     some_named files n = false →
     fs_remove_error env (clock w) (local_path env n) = Some e →
     remove_loop env files (n :: rest) w
     = remove_loop env files rest
         (logged WARN (Failed_to_remove n e) (tick w))) ∧
  (∀ fuel w w1 files,
     downloads_settle env →
     listFiles env fuel w = (Ok files, w1) →
     fs_readdir_error env (clock w1) = None →
     ∃ w3 w', sync_attempt env fuel w = (Ok files, w') ∧
              syncFiles env fuel w = (Ok (Some files), w') ∧
              waits w' = waits w ∧
              download_loop env files
                (tick (logged INFO (Found_valid_files (length files)) w1))
              = (Ok tt, w3) ∧
              remove_loop env files (elements (dir w)) w3 = (Ok tt, w')).
Proof.
  split_and!.
  - intros file rest w e w1 Hin Hd. cbn [download_loop].
    unfold bind at 1. rewrite download_step_unfold.
    by rewrite Hin, Hd.
  - intros files n rest w e Hn He. cbn [remove_loop].
    unfold bind at 1. rewrite remove_step_unfold. by rewrite Hn, He.
  - intros fuel w w1 files Hs Hl He.
    destruct (sync_attempt_returns env fuel w w1 files Hs Hl He) as [w' H].
    pose proof (sync_attempt_ok env fuel _ _ _ H)
      as (w1' & w3 & Hl' & _ & _ & Hd & Hr).
    assert (w1' = w1) as -> by congruence.
    exists w3, w'. split_and!; [done | | | done..].
    + by rewrite syncFiles_unfold, H.
    + by destruct (sync_attempt_working env fuel _ _ _ H) as (? & _).
Qed.

Lemma skipped_files_do_not_fail_the_pass_witness :
  ∃ w', syncFiles rough_env 5 (start local_before)
        = (Ok (Some [media "a.jpg"; media "b.mp4"]), w') ∧
        waits w' = [].
Proof.
  destruct (skipped_files_do_not_fail_the_pass rough_env) as (_ & _ & H).
  destruct (H 5%nat (start local_before)
              (set_clock 1 (start local_before))
              [media "a.jpg"; media "b.mp4"])
    as (w3 & w' & _ & Hs & Hw & _).
  - apply rough_downloads_settle.
  - vm_compute. reflexivity.
  - reflexivity.
  - exists w'. by split.
Defined.

(** ** C5 *)

(** C5. [syncFiles] makes at most three attempts.  It returns the listing
    of the first attempt that returns, after waiting 1000 ms past a first
    failure and 2000 ms past a second; the attempts that threw have not
    touched the directory.  When the third attempt throws too, its error is
    thrown to the caller, and the callback of the periodic timer catches and
    logs it. *)
Theorem three_attempts_with_linear_backoff
    (env : Env) (fuel : nat) (w : world) :
  (∀ files w1,
     sync_attempt env fuel w = (Ok files, w1) →
     syncFiles env fuel w = (Ok (Some files), w1)) ∧
  (∀ e1 w1 files w2,
     sync_attempt env fuel w = (Throw e1, w1) →
     sync_attempt env fuel (backed_off 1 e1 w1) = (Ok files, w2) →
     syncFiles env fuel w = (Ok (Some files), w2) ∧
     dir (backed_off 1 e1 w1) = dir w ∧
     waits (backed_off 1 e1 w1) = waits w ++ [1000]) ∧
  (∀ e1 w1 e2 w2 files w3,
     sync_attempt env fuel w = (Throw e1, w1) →
     sync_attempt env fuel (backed_off 1 e1 w1) = (Throw e2, w2) →
     sync_attempt env fuel (backed_off 2 e2 w2) = (Ok files, w3) →
     syncFiles env fuel w = (Ok (Some files), w3) ∧
     dir (backed_off 2 e2 w2) = dir w ∧
     waits (backed_off 2 e2 w2) = waits w ++ [1000; 2000]) ∧
  (∀ e1 w1 e2 w2 e3 w3,
     sync_attempt env fuel w = (Throw e1, w1) →
     sync_attempt env fuel (backed_off 1 e1 w1) = (Throw e2, w2) →
     sync_attempt env fuel (backed_off 2 e2 w2) = (Throw e3, w3) →
     let w' := logged ERROR Max_retry_attempts_reached
                 (logged WARN (Sync_attempt_failed 3 e3) w3) in
     syncFiles env fuel w = (Throw e3, w') ∧
     dir w' = dir w ∧
     waits w' = waits w ++ [1000; 2000] ∧
     (isPaused w = false →
      interval_callback env fuel w
      = (Ok tt, logged ERROR (Sync_failed e3) w'))).
Proof.
  split_and!.
  - intros files w1 H1. by rewrite syncFiles_unfold, H1.
  - intros e1 w1 files w2 H1 H2.
    rewrite syncFiles_unfold, H1, H2.
    apply sync_attempt_throw in H1 as (Hd1 & Hw1 & _).
    destruct (working_backed_off 1 e1 w1) as (_ & Hd & Hw).
    split_and!; [done | congruence | by rewrite Hw, Hw1].
  - intros e1 w1 e2 w2 files w3 H1 H2 H3.
    rewrite syncFiles_unfold, H1, H2, H3.
    apply sync_attempt_throw in H1 as (Hd1 & Hw1 & _).
    apply sync_attempt_throw in H2 as (Hd2 & Hw2 & _).
    destruct (working_backed_off 1 e1 w1) as (_ & Hda & Hwa).
    destruct (working_backed_off 2 e2 w2) as (_ & Hdb & Hwb).
    split_and!; [done | congruence |].
    rewrite Hwb, Hw2, Hwa, Hw1. by rewrite <- app_assoc.
  - intros e1 w1 e2 w2 e3 w3 H1 H2 H3 w'.
    assert (Hs : syncFiles env fuel w = (Throw e3, w'))
      by (by rewrite syncFiles_unfold, H1, H2, H3).
    apply sync_attempt_throw in H1 as (Hd1 & Hw1 & _).
    apply sync_attempt_throw in H2 as (Hd2 & Hw2 & _).
    apply sync_attempt_throw in H3 as (Hd3 & Hw3 & _).
    destruct (working_backed_off 1 e1 w1) as (_ & Hda & Hwa).
    destruct (working_backed_off 2 e2 w2) as (_ & Hdb & Hwb).
    split_and!; [done | subst w'; cbn; congruence | |].
    + subst w'. cbn. rewrite Hw3, Hwb, Hw2, Hwa, Hw1.
      by rewrite <- app_assoc.
    + intros Hp. unfold interval_callback. rewrite Hp. cbn.
      unfold try_catch, bind. by rewrite Hs.
Qed.

Lemma three_attempts_with_linear_backoff_witness :
  ∃ w', syncFiles flaky_env 5 (start local_before)
        = (Ok (Some [media "a.jpg"; media "b.mp4"]), w') ∧
        waits w' = [1000; 2000] ∧ dir w' = {[ "a.jpg"; "b.mp4" ]}.
Proof.
  pose (a1 := sync_attempt flaky_env 5 (start local_before)).
  pose (a2 := sync_attempt flaky_env 5 (backed_off 1 "ECONNRESET" a1.2)).
  pose (a3 := sync_attempt flaky_env 5 (backed_off 2 "ECONNRESET" a2.2)).
  destruct (three_attempts_with_linear_backoff flaky_env 5
              (start local_before)) as (_ & _ & H3 & _).
  destruct (H3 "ECONNRESET" a1.2 "ECONNRESET" a2.2
               [media "a.jpg"; media "b.mp4"] a3.2) as (Hs & _);
    [vm_compute; reflexivity..|].
  exists a3.2. split; [exact Hs|]. split; vm_compute; reflexivity.
Defined.

(** The event loop survives a sync that failed three times. *)
Example scheduler_survives_an_outage :
  ∃ w', interval_callback down_env 5 (start local_before) = (Ok tt, w') ∧
        last (log w') = Some (ERROR, Sync_failed "ENOTFOUND") ∧
        waits w' = [1000; 2000] ∧ dir w' = local_before.
Proof. eexists. by vm_compute. Qed.

(** ** C7 *)









(** *** A pass does not look at the paused flag *)


Lemma blind_throw {A} (e : error) : blind (@throw A e).
Proof. done. Qed.





Section Blind.
Variable env : Env.
















End Blind.




(** ** More on [syncFiles] and the schedule *)

Lemma backed_off_fields (n : Z) (e : error) (w : world) :
  same_schedule w (backed_off n e w) ∧ dir (backed_off n e w) = dir w ∧
  waits (backed_off n e w) = waits w ++ [1000 * n].
Proof. by unfold same_schedule, backed_off, logged. Qed.

Lemma working_same_schedule (w w' : world) :
  working w w' → same_schedule w w' ∧ waits w' = waits w.
Proof. intros (?&?&?&?&?&?&?). by unfold same_schedule. Qed.

Lemma same_schedule_trans (w1 w2 w3 : world) :
  same_schedule w1 w2 → same_schedule w2 w3 → same_schedule w1 w3.
Proof.
  intros (?&?&?&?) (?&?&?&?). unfold same_schedule. split_and!; congruence.
Qed.

Lemma syncFiles_run
    (env : Env) (fuel : nat) (w w' : world)
    (r : result (option (list RemoteFile))) :
  syncFiles env fuel w = (r, w') →
  r ≠ Ok None ∧
  (waits w' = waits w ∨ waits w' = waits w ++ [1000] ∨
   waits w' = waits w ++ [1000; 2000]) ∧
  (∀ e, r = Throw e →
        waits w' = waits w ++ [1000; 2000] ∧ dir w' = dir w ∧
        last (log w') = Some (ERROR, Max_retry_attempts_reached)) ∧
  same_schedule w w'.
Proof.
  rewrite syncFiles_unfold.
  destruct (sync_attempt env fuel w) as [r1 w1] eqn:H1.
  pose proof (sync_attempt_working env fuel _ _ _ H1) as Hw1.
  apply working_same_schedule in Hw1 as [S1 W1].
  destruct r1 as [files1|e1| |];
    try (intros [= <- <-]; split_and!; by auto).
  apply sync_attempt_throw in H1 as (D1 & _).
  destruct (backed_off_fields 1 e1 w1) as (Sa & Da & Wa).
  destruct (sync_attempt env fuel (backed_off 1 e1 w1)) as [r2 w2] eqn:H2.
  pose proof (sync_attempt_working env fuel _ _ _ H2) as Hw2.
  apply working_same_schedule in Hw2 as [S2 W2].
  assert (S12 : same_schedule w w2)
    by (eauto using same_schedule_trans).
  assert (W12 : waits w2 = waits w ++ [1000]) by (by rewrite W2, Wa, W1).
  destruct r2 as [files2|e2| |];
    try (intros [= <- <-]; split_and!; by auto).
  apply sync_attempt_throw in H2 as (D2 & _).
  destruct (backed_off_fields 2 e2 w2) as (Sb & Db & Wb).
  destruct (sync_attempt env fuel (backed_off 2 e2 w2)) as [r3 w3] eqn:H3.
  pose proof (sync_attempt_working env fuel _ _ _ H3) as Hw3.
  apply working_same_schedule in Hw3 as [S3 W3].
  assert (S13 : same_schedule w w3)
    by (eauto using same_schedule_trans).
  assert (W13 : waits w3 = waits w ++ [1000; 2000]).
  { rewrite W3, Wb, W12, <- app_assoc. done. }
  destruct r3 as [files3|e3| |];
    try (intros [= <- <-]; split_and!; by auto).
  apply sync_attempt_throw in H3 as (D3 & _).
  intros [= <- <-]. split_and!; [done | by auto | | done].
  intros e _. cbn. split_and!; [done | congruence |].
  by rewrite last_snoc.
Qed.

(** X8. However the attempts go, [syncFiles] never returns [undefined], it
    waits 0, 1000 or 1000 + 2000 ms in all, and it leaves the paused flag
    and the schedule alone.  It throws only after both waits, having logged
    that the retries are exhausted and with the directory as it found it. *)
Theorem syncFiles_outcomes
    (env : Env) (fuel : nat) (w w' : world)
    (r : result (option (list RemoteFile))) :
  syncFiles env fuel w = (r, w') →
  r ≠ Ok None ∧
  (waits w' = waits w ∨ waits w' = waits w ++ [1000] ∨
   waits w' = waits w ++ [1000; 2000]) ∧
  (∀ e, r = Throw e →
        waits w' = waits w ++ [1000; 2000] ∧ dir w' = dir w ∧
        last (log w') = Some (ERROR, Max_retry_attempts_reached)) ∧
  same_schedule w w'.
Proof. apply syncFiles_run. Qed.

Lemma syncFiles_outcomes_witness :
  waits (syncFiles down_env 5 (start local_before)).2 = [1000; 2000] ∧
  dir (syncFiles down_env 5 (start local_before)).2 = local_before.
Proof.
  destruct (syncFiles down_env 5 (start local_before)) as [r w'] eqn:H.
  destruct (syncFiles_outcomes down_env 5 (start local_before) w' r H)
    as (_ & _ & Ht & _).
  assert (r = Throw "ENOTFOUND") as ->
    by (by vm_compute in H; simplify_eq).
  destruct (Ht _ eq_refl) as (Hw & Hd & _). by split.
Defined.

(** X9. The callback of the periodic timer never throws: whatever
    [syncFiles] does, the callback returns (or is still waiting), and when
    the service is paused it does nothing at all. *)
Theorem interval_callback_never_throws
    (env : Env) (fuel : nat) (w w' : world) (r : result unit) :
  interval_callback env fuel w = (r, w') →
  (∀ e, r ≠ Throw e) ∧
  (isPaused w = true → r = Ok tt ∧ w' = w) ∧
  same_schedule w w'.
Proof.
  unfold interval_callback. destruct (isPaused w) eqn:Hp; cbn.
  - intros [= <- <-]. by split_and!.
  - unfold try_catch, bind.
    destruct (syncFiles env fuel w) as [r1 w1] eqn:Hs.
    apply syncFiles_run in Hs as (_ & _ & _ & Hsame).
    destruct r1; intros [= <- <-]; by split_and!.
Qed.

Lemma interval_callback_never_throws_witness :
  (interval_callback down_env 5 (start local_before)).1 = Ok tt.
Proof.
  destruct (interval_callback down_env 5 (start local_before))
    as [r w'] eqn:H.
  destruct (interval_callback_never_throws _ _ _ _ _ H) as (Hn & _).
  vm_compute in H. by simplify_eq.
Defined.

Lemma stop_run (w : world) :
  ∃ w0, stop w = (Ok tt, w0) ∧
        syncInterval w0 = None ∧ isPaused w0 = isPaused w ∧
        next_timer w0 = next_timer w ∧ dir w0 = dir w ∧
        clock w0 = clock w ∧ waits w0 = waits w ∧ log w0 = log w ∧
        intervals w0
        = match syncInterval w with
          | Some t => filter (λ i, i.1 ≠ t) (intervals w)
          | None => intervals w
          end.
Proof.
  unfold stop. destruct (syncInterval w) eqn:E;
    unfold bind, clearInterval, update; cbn; eexists; by split_and!.
Qed.

Lemma startSync_run
    (env : Env) (fuel : nat) (interval : Z) (w w' : world)
    (r : result unit) :
  isPaused w = false →
  startSync env fuel interval w = (r, w') →
  syncInterval w' = Some (next_timer w) ∧
  intervals w'
  = match syncInterval w with
    | Some t => filter (λ i, i.1 ≠ t) (intervals w)
    | None => intervals w
    end ++ [(next_timer w, interval)] ∧
  isPaused w' = false ∧
  ∃ w0, dir w0 = dir w ∧ clock w0 = clock w ∧
        (syncFiles env fuel >> ret tt) w0 = (r, w').
Proof.
  intros Hp. unfold startSync.
  destruct (stop_run w) as (w0 & Hstop & Hs0 & Hp0 & Hn0 & Hd0 & Hc0 & _ & _
                            & Hi0).
  rewrite (bind_ok _ _ _ _ _ Hstop). rewrite Hp0, Hp.
  unfold bind at 1, setInterval. unfold bind at 1, update.
  cbn [isPaused set_syncInterval set_intervals set_next_timer].
  rewrite Hp0, Hp. cbn [negb].
  match goal with
  | |- (_ >> _) ?ws = _ → _ => set (w1 := ws)
  end.
  intros H. unfold bind in H.
  destruct (syncFiles env fuel w1) as [r1 w2] eqn:Hs.
  pose proof (syncFiles_run _ _ _ _ _ Hs) as (_ & _ & _ & Hsame).
  destruct Hsame as (Sp & Ss & Si & Sn).
  assert (w' = w2) as ->
    by (destruct r1; unfold ret in H; by simplify_eq).
  rewrite Ss, Si, Sp. subst w1. cbn. rewrite Hn0, Hi0, Hp0.
  split_and!; try done.
  eexists. split_and!; [| |unfold bind; rewrite Hs; exact H]; done.
Qed.

(** X10. Unless the service is paused, [startSync] installs the timer
    before the first pass and keeps it whatever that pass does: also when
    [startSync] throws, because the first pass failed three times, the
    periodic sync is running. A timer installed earlier is cleared. *)
Theorem startSync_installs_the_schedule
    (env : Env) (fuel : nat) (interval : Z) (w w' : world)
    (r : result unit) :
  isPaused w = false →
  startSync env fuel interval w = (r, w') →
  syncInterval w' = Some (next_timer w) ∧
  intervals w'
  = match syncInterval w with
    | Some t => filter (λ i, i.1 ≠ t) (intervals w)
    | None => intervals w
    end ++ [(next_timer w, interval)] ∧
  isPaused w' = false ∧
  ∃ w0, dir w0 = dir w ∧ clock w0 = clock w ∧
        (syncFiles env fuel >> ret tt) w0 = (r, w').
Proof. apply startSync_run. Qed.

Lemma startSync_installs_the_schedule_witness :
  (startSync down_env 5 60000 (start local_before)).1 = Throw "ENOTFOUND" ∧
  syncInterval (startSync down_env 5 60000 (start local_before)).2
  = Some 1%nat ∧
  intervals (startSync down_env 5 60000 (start local_before)).2
  = [(1%nat, 60000)].
Proof.
  destruct (startSync down_env 5 60000 (start local_before))
    as [r w'] eqn:H.
  destruct (startSync_installs_the_schedule down_env 5 60000
              (start local_before) w' r eq_refl H)
    as (Hs & Hi & _).
  split_and!; [|exact Hs|exact Hi].
  vm_compute in H. by simplify_eq.
Defined.

Lemma one_schedule_same (w w' : world) :
  same_schedule w w' → one_schedule w → one_schedule w'.
Proof. intros (Hp & Hs & Hi & _). unfold one_schedule. by rewrite Hp, Hs, Hi. Qed.

Lemma one_schedule_stopped (w w0 : world) :
  one_schedule w → stop w = (Ok tt, w0) →
  syncInterval w0 = None ∧ intervals w0 = [] ∧ isPaused w0 = isPaused w ∧
  log w0 = log w.
Proof.
  intros H1 Hstop.
  destruct (stop_run w) as (w0' & Hstop' & Hs & Hp & _ & _ & _ & _ & Hl & Hi).
  rewrite Hstop in Hstop'. simplify_eq. split_and!; try done.
  rewrite Hi. unfold one_schedule in H1.
  destruct (syncInterval w) as [t|]; [|done].
  destruct H1 as (_ & period & ->). rewrite filter_cons, filter_nil.
  by rewrite decide_False by (cbn; congruence).
Qed.

Lemma startSync_one_schedule (env : Env) (fuel : nat) (interval : Z)
    (w : world) :
  one_schedule w → one_schedule (startSync env fuel interval w).2.
Proof.
  intros H1. destruct (isPaused w) eqn:Hp.
  - unfold startSync. destruct (stop_run w) as (w0 & Hstop & _).
    destruct (one_schedule_stopped w w0 H1 Hstop) as (Hs & Hi & Hp0 & _).
    rewrite (bind_ok _ _ _ _ _ Hstop), Hp0, Hp. cbn.
    unfold one_schedule. cbn. by rewrite Hs.
  - destruct (startSync env fuel interval w) as [r w'] eqn:H.
    destruct (startSync_run _ _ _ _ _ _ Hp H) as (Hs & Hi & Hp' & _).
    cbn. unfold one_schedule in *. rewrite Hs, Hi. split; [done|].
    exists interval. destruct (syncInterval w) as [t|]; [|by rewrite H1].
    destruct H1 as (_ & period & ->). rewrite filter_cons, filter_nil.
    by rewrite decide_False by (cbn; congruence).
Qed.

Lemma serve_one_schedule (env : Env) (fuel : nat) (r : request)
    (w : world) :
  one_schedule w → one_schedule (serve env fuel r w).2.
Proof.
  intros H1. destruct r as [[| | |]| |]; cbn [serve perform].
  - (* pause *)
    unfold pause, bind at 1 2, logger, update.
    set (w1 := set_isPaused true _).
    assert (H1' : syncInterval w1 = syncInterval w ∧
                  intervals w1 = intervals w) by done.
    destruct (stop_run w1) as (w0 & Hstop & Hs & _ & _ & _ & _ & _ & _ & Hi).
    rewrite Hstop. cbn. unfold one_schedule in *. rewrite Hs, Hi.
    destruct H1' as [-> ->].
    destruct (syncInterval w) as [t|]; [|done].
    destruct H1 as (_ & period & ->). rewrite filter_cons, filter_nil.
    by rewrite decide_False by (cbn; congruence).
  - by apply startSync_one_schedule.
  - destruct (stop_run w) as (w0 & Hstop & _).
    destruct (one_schedule_stopped w w0 H1 Hstop) as (Hs & Hi & _).
    rewrite Hstop. cbn. unfold one_schedule. by rewrite Hs.
  - destruct (interval_callback env fuel w) as [r w'] eqn:H. cbn.
    unfold interval_callback in H. destruct (isPaused w) eqn:Hp; cbn in H.
    + by simplify_eq.
    + unfold try_catch, bind in H.
      destruct (syncFiles env fuel w) as [r1 w1] eqn:Hs.
      apply syncFiles_run in Hs as (_ & _ & _ & Hsame).
      destruct r1; unfold ret, logger, update in H; simplify_eq;
        by eapply one_schedule_same.
  - (* resume *)
    unfold resume, bind at 1 2, logger, update.
    apply startSync_one_schedule.
    unfold one_schedule in *. cbn.
    destruct (syncInterval w) as [t|]; [|done].
    destruct H1 as (_ & Hi). by split.
  - unfold bind. destruct (syncFiles env fuel w) as [r1 w1] eqn:Hs.
    apply syncFiles_run in Hs as (_ & _ & _ & Hsame).
    assert (one_schedule w1) by (by eapply one_schedule_same).
    by destruct r1.
Qed.

(** X11. Whatever is asked of a fresh service, in whatever order
    ([startSync], [stop], [pause], [resume], [syncFiles], timer callbacks),
    at most one interval timer is live: it is the one held in
    [syncInterval], and there is none while the service is paused.  So
    calling [startSync] or [resume] again never leaves a second timer
    running. *)
Theorem at_most_one_timer
    (env : Env) (fuel : nat) (d : gset string) (rs : list request) :
  one_schedule (serve_all env fuel rs (start d)) ∧
  (length (intervals (serve_all env fuel rs (start d))) ≤ 1)%nat ∧
  (isPaused (serve_all env fuel rs (start d)) = true →
   intervals (serve_all env fuel rs (start d)) = []).
Proof.
  assert (H : one_schedule (serve_all env fuel rs (start d))).
  { assert (H0 : one_schedule (start d)) by done.
    revert H0. generalize (start d).
    induction rs as [|r rs IH]; intros w Hw; [done|].
    cbn. apply IH. by apply serve_one_schedule. }
  split; [done|]. unfold one_schedule in H.
  destruct (syncInterval _) as [t|].
  - destruct H as (Hp & period & ->). split; [cbn; lia | congruence].
  - rewrite H. split; [cbn; lia | done].
Qed.

(** ** Failures of the walk *)

Lemma fetch_loop_report (env : Env) (bound : nat)
    (self : string → M (list RemoteFile)) :
  (∀ fid w r w', self fid w = (r, w') →
                 fetch_report env bound w r w' ∧ (clock w ≤ clock w')%nat) →
  ∀ fuel files i w r w',
    fetch_loop self fuel files i w = (r, w') →
    fetch_report env bound w r w' ∧ (clock w ≤ clock w')%nat.
Proof.
  intros Hself fuel.
  induction fuel as [|fuel IH]; intros files i w r w' H; cbn in H.
  - unfold out_of_fuel in H. by simplify_eq.
  - destruct (files !! i) as [file|]; [|unfold ret in H; by simplify_eq].
    destruct (is_folder file); [|by eapply IH].
    unfold bind in H.
    destruct (self (id file) w) as [r1 w1] eqn:H1.
    apply Hself in H1 as [Hrep1 Hc1].
    destruct r1 as [sub|e| |]; simplify_eq; try done.
    apply IH in H as [Hrep Hc]. split; [|lia].
    cbn in Hrep1. destruct r as [out|e| |]; cbn in *; try congruence.
    destruct Hrep as ((t & fid & Ht & Hrej) & n & Hn & Hlog).
    split; [exists t, fid; split; [lia | done]|].
    exists n. split; [done | congruence].
Qed.

Lemma fetch_report_run (env : Env) (fuel : nat) :
  ∀ fid w r w',
    fetchFilesFromDrive env fuel fid w = (r, w') →
    fetch_report env fuel w r w' ∧ (clock w ≤ clock w')%nat.
Proof.
  induction fuel as [|fuel IH]; intros fid w r w' H; cbn in H.
  - unfold out_of_fuel in H. by simplify_eq.
  - unfold try_catch, bind at 1, files_list in H.
    destruct (drive_files_list env (clock w) fid) as [files|e] eqn:Hl;
      cbn in H.
    + destruct (fetch_loop _ _ _ _ _) as [r1 w1] eqn:Hloop.
      apply (fetch_loop_report env fuel _ IH) in Hloop as [Hrep Hc].
      cbn in Hc.
      destruct r1 as [out|e| |]; simplify_eq; cbn in *;
        try (split; [done | lia]).
      destruct Hrep as ((t & fid' & Ht & Hrej) & n & Hn & Hlog).
      unfold throw in H. simplify_eq. cbn.
      split; [|lia]. split; [exists t, fid'; split; [lia | done]|].
      exists (S n). split; [lia|].
      by rewrite Hlog, replicate_S_end, app_assoc.
    + unfold throw in H. simplify_eq. cbn. split; [|lia].
      split; [exists (clock w), fid; split; [lia | done]|].
      exists 1%nat. split; [lia | done].
Qed.



(** ** What the walk returns *)

Lemma concat_all_nil {A B} (P : A → list B → Prop) (l : list A)
    (subs : list (list B)) :
  Forall2 P l subs → (∀ g sub, g ∈ l → P g sub → sub = []) →
  concat subs = [].
Proof.
  induction 1 as [|g sub l subs Hg _ IH]; intros HP; [done|]. cbn.
  rewrite (HP g sub) by (done || left). cbn. apply IH.
  intros g' sub' Hin. apply HP. by right.
Qed.

Lemma Forall2_fmap_eq {A B} (P : A → B → Prop) (f : A → B) (l : list A)
    (k : list B) :
  Forall2 P l k → (∀ g sub, g ∈ l → P g sub → sub = f g) → k = f <$> l.
Proof.
  induction 1 as [|g sub l k Hg _ IH]; intros HP; [done|]. cbn.
  rewrite (HP g sub) by (done || left). f_equal. apply IH.
  intros g' sub' Hin. apply HP. by right.
Qed.

Section Exact.
Variable env : Env.
Variable children : string → list RemoteFile.
Hypothesis env_static : static env children.

(** A folder without subfolders is returned as listed. *)
Lemma fetch_flat (fuel : nat) (fid : string) (w w' : world)
    (out : list RemoteFile) :
  Forall (λ file, is_folder file = false) (children fid) →
  fetchFilesFromDrive env fuel fid w = (Ok out, w') →
  out = children fid.
Proof.
  intros Hflat H.
  pose proof (fetch_only_below env children env_static _ _ _ _ _ H) as Hb.
  apply (fetch_shape env children env_static) in H
    as (fuel' & subs & -> & -> & Hall).
  rewrite (concat_all_nil _ _ _ Hall); [by rewrite app_nil_r|].
  intros g sub Hg Hp. rewrite Forall_forall in Hb, Hflat.
  assert (Hf : is_folder g = false).
  { pose proof (Hb g Hg) as Hbg.
    inversion Hbg as [? ? Hin | ? h ? Hin Hh _]; subst; [by apply Hflat|].
    by rewrite (Hflat h Hin) in Hh. }
  unfold pushed_for in Hp. by rewrite Hf in Hp.
Qed.

Lemma below_shallow (root : string) (file : RemoteFile) :
  shallow children root → below children root file →
  file ∈ children root ∨ is_folder file = false.
Proof.
  intros Hsh Hb.
  inversion Hb as [? ? Hin | ? g ? Hin Hg Hfile]; subst; [by left|].
  right. specialize (Hsh g Hin Hg). rewrite Forall_forall in Hsh.
  inversion Hfile as [? ? Hin' | ? h ? Hin' Hh _]; subst; [by apply Hsh|].
  by rewrite (Hsh h Hin') in Hh.
Qed.

Lemma fetch_shallow (fuel : nat) (root : string) (w w' : world)
    (out : list RemoteFile) :
  shallow children root →
  fetchFilesFromDrive env fuel root w = (Ok out, w') →
  out = children root ++ concat (contents children <$> children root).
Proof.
  intros Hsh H.
  pose proof (fetch_only_below env children env_static _ _ _ _ _ H) as Hb.
  apply (fetch_shape env children env_static) in H
    as (fuel' & subs & -> & -> & Hall).
  rewrite Forall_forall in Hb.
  (* what is pushed for a folder of the root is its listing *)
  assert (Hpush : ∀ g sub,
    g ∈ children root ++ concat subs →
    pushed_for (fetchFilesFromDrive env fuel') g sub →
    sub = if decide (g ∈ children root) then contents children g else []).
  { intros g sub Hg Hp. unfold pushed_for in Hp. unfold contents.
    destruct (is_folder g) eqn:Hf; [|by case_decide].
    destruct (below_shallow root g Hsh (Hb g Hg)) as [Hin|Hnf];
      [|congruence].
    rewrite decide_True by done. destruct Hp as (w1 & w2 & Hp).
    eapply fetch_flat; [|exact Hp]. by apply Hsh. }
  (* so nothing pushed is a folder *)
  assert (Hplain : ∀ x, x ∈ concat subs → is_folder x = false).
  { intros x (sub & Hsub & Hx)%elem_of_concat.
    apply list_elem_of_lookup in Hsub as [j Hj].
    destruct (Forall2_lookup_r _ _ _ _ _ Hall Hj) as (g & Hg & Hp).
    apply list_elem_of_lookup_2 in Hg.
    specialize (Hpush g sub Hg Hp). unfold contents in Hpush.
    case_decide as Hin; [|subst; by apply elem_of_nil in Hx].
    destruct (is_folder g) eqn:Hf; [|subst; by apply elem_of_nil in Hx].
    specialize (Hsh g Hin Hf). rewrite Forall_forall in Hsh.
    apply Hsh. by rewrite <- Hpush. }
  apply Forall2_app_inv_l in Hall as (s1 & s2 & H1 & H2 & Hs).
  assert (E1 : s1 = contents children <$> children root).
  { apply (Forall2_fmap_eq _ _ _ _ H1). intros g sub Hg Hp.
    rewrite (Hpush g sub) by (done || apply elem_of_app; by left).
    by rewrite decide_True. }
  assert (E2 : concat s2 = []).
  { apply (concat_all_nil _ _ _ H2). intros g sub Hg Hp.
    unfold pushed_for in Hp. by rewrite (Hplain g Hg) in Hp. }
  f_equal. rewrite Hs at 1. by rewrite concat_app, E2, app_nil_r, E1.
Qed.

End Exact.

(** X13. Over a finite folder tree that does not change, [listFiles]
    returns with enough fuel, and what it returns are exactly the valid
    records of the tree, folders and files alike, at whatever depth.  The
    valid records listed in the root itself come first and in the order of
    the listing.  Nothing is logged and the directory is not touched. *)
Theorem listFiles_returns_the_valid_records_of_the_tree
    (env : Env) (children : string → list RemoteFile) (rank : string → nat) :
  static env children →
  (∀ fid g, g ∈ children fid → is_folder g = true →
            (rank (id g) < rank fid)%nat) →
  (∀ w, ∃ fuel valid w', listFiles env fuel w = (Ok valid, w')) ∧
  (∀ fuel w valid w',
     listFiles env fuel w = (Ok valid, w') →
     (∀ file, file ∈ valid ↔
              below children (config_google_folderId env) file ∧
              isValidFile env (name file) = true) ∧
     filter (λ file, isValidFile env (name file) = true)
            (children (config_google_folderId env)) `prefix_of` valid ∧
     log w' = log w ∧ dir w' = dir w).
Proof.
  intros Hstatic Hrank. split.
  - intros w.
    destruct (fetch_terminates env children Hstatic rank Hrank
                (config_google_folderId env) w) as (fuel & out & w' & H).
    exists fuel. eexists. exists w'. unfold listFiles.
    by rewrite (bind_ok _ _ _ _ _ H).
  - intros fuel w valid w' (out & H & ->)%listFiles_ok_inv.
    pose proof (fetch_only_below env children Hstatic _ _ _ _ _ H) as Hb.
    pose proof (fetch_report_run env fuel _ _ _ _ H) as [Hlog _].
    pose proof (fetchFilesFromDrive_steady env fuel _ _ _ _ H) as (Hd & _).
    split_and!; [|  | done..].
    + intros file. rewrite list_elem_of_filter, Forall_forall in *.
      split.
      * intros [Hv Hin]. split; [by apply Hb | done].
      * intros [Hbelow Hv]. split; [done|]. by eapply fetch_all_below.
    + apply (fetch_shape env children Hstatic) in H
        as (fuel' & subs & -> & -> & _).
      rewrite filter_app. by apply prefix_app_r.
Qed.

Lemma listFiles_returns_the_valid_records_of_the_tree_witness :
  ∃ valid w',
    listFiles one_level_env 8 (start local_before) = (Ok valid, w') ∧
    (media_in "A" "g.mp4" ∈ valid) ∧ (folder "A" "root" ∉ valid).
Proof.
  destruct (listFiles one_level_env 8 (start local_before)) as [r w'] eqn:H.
  assert (Hr : ∃ valid, r = Ok valid)
    by (vm_compute in H; simplify_eq; eauto).
  destruct Hr as [valid ->]. exists valid, w'. split; [done|].
  destruct (listFiles_returns_the_valid_records_of_the_tree
              one_level_env one_level one_level_rank) as [_ Hex].
  - done.
  - unfold one_level, one_level_rank. intros fid g Hg Hf.
    repeat case_decide; subst;
      repeat match goal with
             | H : _ ∈ [] |- _ => by apply elem_of_nil in H
             | H : _ ∈ _ :: _ |- _ => apply elem_of_cons in H as [->|H]
             end;
      cbn in *; try done; lia.
  - destruct (Hex _ _ _ _ H) as (Hiff & _). split.
    + apply Hiff. split; [|done].
      apply below_deeper with (folder "A" "root"); [| done |].
      * unfold one_level. cbn. set_solver.
      * apply below_child. unfold one_level. cbn. set_solver.
    + intros [_ Hv]%Hiff. by vm_compute in Hv.
Defined.

(** X14. When the folders of the walked folder have no folders of their
    own, the walk returns the listing of the walked folder followed by the
    listings of its folders, in order, and nothing else: every record is
    returned as often as it is listed.  [listFiles] keeps the valid ones
    in that order. *)
Theorem shallow_tree_is_listed_as_it_is
    (env : Env) (children : string → list RemoteFile) (rank : string → nat) :
  static env children →
  (∀ fid g, g ∈ children fid → is_folder g = true →
            (rank (id g) < rank fid)%nat) →
  shallow children (config_google_folderId env) →
  (∀ w, ∃ fuel valid w', listFiles env fuel w = (Ok valid, w')) ∧
  (∀ fuel w out w',
     fetchFilesFromDrive env fuel (config_google_folderId env) w
     = (Ok out, w') →
     out = children (config_google_folderId env)
           ++ concat (contents children
                        <$> children (config_google_folderId env))) ∧
  (∀ fuel w valid w',
     listFiles env fuel w = (Ok valid, w') →
     valid = filter (λ file, isValidFile env (name file) = true)
               (children (config_google_folderId env)
                ++ concat (contents children
                             <$> children (config_google_folderId env)))).
Proof.
  intros Hstatic Hrank Hsh. split_and!.
  - intros w.
    destruct (fetch_terminates env children Hstatic rank Hrank
                (config_google_folderId env) w) as (fuel & out & w' & H).
    exists fuel. eexists. exists w'. unfold listFiles.
    by rewrite (bind_ok _ _ _ _ _ H).
  - intros fuel w out w'. by apply fetch_shallow.
  - intros fuel w valid w' (out & H & ->)%listFiles_ok_inv.
    by rewrite (fetch_shallow env children Hstatic _ _ _ _ _ Hsh H).
Qed.

Lemma shallow_tree_is_listed_as_it_is_witness :
  ∃ w', listFiles one_level_env 8 (start local_before)
        = (Ok [media "a.jpg"; media_in "A" "f.jpg"; media_in "A" "g.mp4"],
           w').
Proof.
  destruct (listFiles one_level_env 8 (start local_before)) as [r w'] eqn:H.
  assert (Hr : ∃ valid, r = Ok valid)
    by (vm_compute in H; simplify_eq; eauto).
  destruct Hr as [valid ->]. exists w'.
  destruct (shallow_tree_is_listed_as_it_is
              one_level_env one_level one_level_rank) as (_ & _ & Hex).
  - done.
  - unfold one_level, one_level_rank. intros fid g Hg Hf.
    repeat case_decide; subst;
      repeat match goal with
             | H : _ ∈ [] |- _ => by apply elem_of_nil in H
             | H : _ ∈ _ :: _ |- _ => apply elem_of_cons in H as [->|H]
             end;
      cbn in *; try done; lia.
  - intros g Hg Hf. change (config_google_folderId one_level_env)
      with "root" in Hg. unfold one_level in Hg.
    rewrite decide_True in Hg by done.
    apply elem_of_cons in Hg as [->|Hg]; [done|].
    apply list_elem_of_singleton in Hg as ->.
    vm_compute. repeat constructor.
  - by rewrite (Hex _ _ _ _ H).
Defined.

(** ** Names that are paths *)






(** ** What a pass leaves undone *)

Lemma written_later (w w0 w' : world) (x : level * message) :
  log_grows w w0 → log_grows w0 w' → x ∈ written w0 w' → x ∈ written w w'.
Proof.
  intros H1 H2 Hx. rewrite (written_app w w0 w') by done.
  apply elem_of_app. by right.
Qed.

Lemma written_earlier (w w0 w' : world) (x : level * message) :
  log_grows w w0 → log_grows w0 w' → x ∈ written w w0 → x ∈ written w w'.
Proof.
  intros H1 H2 Hx. rewrite (written_app w w0 w') by done.
  apply elem_of_app. by left.
Qed.

Section Undone.
Variable env : Env.

Lemma download_step_log (file : RemoteFile) (w w' : world) (n : string) :
  download_step env file w = (Ok tt, w') →
  entry env (name file) = Some n →
  n ∈ dir w' ∨
  ∃ e, (WARN, Failed_to_download_skipping (name file) e) ∈ written w w'.
Proof.
  rewrite download_step_unfold. intros H Hn.
  rewrite (exists_at_entry env _ _ _ Hn) in H.
  case_bool_decide; [left; by simplify_eq|].
  destruct (downloadFile _ _ _ _) as [r1 w1] eqn:Hd.
  apply downloadFile_run in Hd as (Hw & _ & Hok & _).
  destruct r1 as [[]|e| |]; simplify_eq.
  - left. cbn. rewrite Hok by done. apply elem_of_with_file. by right.
  - right. exists e.
    apply (written_later w w1);
      [by apply working_log_grows
      | apply working_log_grows, working_logged |].
    rewrite written_logged. by left.
Qed.

Lemma download_loop_log (files : list RemoteFile) :
  ∀ w w' file n,
    download_loop env files w = (Ok tt, w') →
    file ∈ files → entry env (name file) = Some n →
    n ∈ dir w' ∨
    ∃ e, (WARN, Failed_to_download_skipping (name file) e) ∈ written w w'.
Proof.
  induction files as [|f files IH]; intros w w' file n H Hin Hn;
    [by apply elem_of_nil in Hin|].
  cbn in H. apply bind_inv_ok in H as ([] & w1 & H1 & H).
  pose proof (download_step_run env _ _ _ _ H1) as (Hw1 & _).
  pose proof (download_loop_run env _ _ _ _ H) as (Hw & Hsub & _).
  apply elem_of_cons in Hin as [->|Hin].
  - destruct (download_step_log _ _ _ _ H1 Hn) as [?|[e He]].
    + left. by apply Hsub.
    + right. exists e. by apply (written_earlier w w1);
        [apply working_log_grows..|].
  - destruct (IH _ _ _ _ H Hin Hn) as [?|[e He]]; [by left|].
    right. exists e. by apply (written_later w w1);
      [apply working_log_grows..|].
Qed.

Lemma remove_loop_log (files : list RemoteFile) (ls : list string) :
  ∀ w w' l n,
    remove_loop env files ls w = (Ok tt, w') →
    l ∈ ls → some_named files l = false → entry env l = Some n →
    n ∉ dir w' ∨ ∃ e, (WARN, Failed_to_remove l e) ∈ written w w'.
Proof.
  induction ls as [|l0 ls IH]; intros w w' l n H Hin Hs Hn;
    [by apply elem_of_nil in Hin|].
  cbn in H. apply bind_inv_ok in H as ([] & w1 & H1 & H).
  destruct (remove_step_run env files l0 w) as (w1' & H1' & Hw1 & _).
  assert (w1' = w1) as -> by congruence.
  destruct (remove_loop_run env files ls w1)
    as (w'' & H' & Hw & Hsub & _).
  assert (w'' = w') as -> by congruence.
  apply elem_of_cons in Hin as [->|Hin].
  - rewrite remove_step_unfold, Hs in H1.
    destruct (fs_remove_error env (clock w) _) as [e|]; simplify_eq.
    + right. exists e.
      apply (written_earlier w (logged WARN (Failed_to_remove l0 e) (tick w)));
        [| by apply working_log_grows |].
      * etrans; [apply steady_log_grows, steady_tick
                | apply working_log_grows, working_logged].
      * rewrite (written_app w (tick w));
          [| apply steady_log_grows, steady_tick
           | apply working_log_grows, working_logged ].
        rewrite written_logged. apply elem_of_app. right. by left.
    + left. intros Hin'. apply Hsub in Hin'. cbn in Hin'.
      apply elem_of_without in Hin' as [_ Hne]. by apply Hne.
  - destruct (IH _ _ _ _ H Hin Hs Hn) as [?|[e He]]; [by left|].
    right. exists e. by apply (written_later w w1);
      [apply working_log_grows..|].
Qed.

Lemma download_loop_present (files : list RemoteFile) :
  ∀ w, Forall (λ file, exists_at env (local_path env (name file)) w = true)
              files →
       download_loop env files w = (Ok tt, w).
Proof.
  induction files as [|file files IH]; intros w Hall; [done|].
  apply Forall_cons in Hall as [Hf Hall]. cbn. unfold bind.
  rewrite download_step_unfold, Hf. by apply IH.
Qed.

Lemma remove_loop_listed (files : list RemoteFile) (ls : list string) :
  ∀ w, Forall (λ l, some_named files l = true) ls →
       remove_loop env files ls w = (Ok tt, w).
Proof.
  induction ls as [|l ls IH]; intros w Hall; [done|].
  apply Forall_cons in Hall as [Hl Hall]. cbn. unfold bind.
  rewrite remove_step_unfold, Hl. by apply IH.
Qed.



End Undone.

(** X17. Whatever a returned pass has left different between the listing
    and the directory, it has logged: a listed file that is not in the
    directory has a warning that its download was skipped; an entry that
    no listed file has was there before and has a warning that it could
    not be removed.  An entry that a listed file has is never removed.
    (Names are plain: one path component each, not [.] or [..].) *)
Theorem every_discrepancy_is_logged
    (env : Env) (fuel : nat) (w w' : world) (files : list RemoteFile) :
  Forall (λ n, plain n = true) (elements (dir w)) →
  Forall (λ file, plain (name file) = true) files →
  syncFiles env fuel w = (Ok (Some files), w') →
  (∀ n, n ∈ names files → n ∉ dir w' →
        ∃ e, (WARN, Failed_to_download_skipping n e) ∈ written w w') ∧
  (∀ n, n ∈ dir w' → n ∉ names files →
        n ∈ dir w ∧ ∃ e, (WARN, Failed_to_remove n e) ∈ written w w') ∧
  (∀ n, n ∈ dir w → n ∈ names files → n ∈ dir w').
Proof.
  intros Hentries Hplain H.
  rewrite Forall_forall in Hentries. rewrite Forall_forall in Hplain.
  apply syncFiles_ok in H as (w0 & H & Hlog0 & Hdir0).
  pose proof (sync_attempt_working env fuel _ _ _ H) as Hw0.
  apply sync_attempt_ok in H as (w1 & w3 & Hl & Hs1 & He & Hd & Hr).
  set (w2 := tick (logged INFO (Found_valid_files (length files)) w1)) in *.
  pose proof (download_loop_run env files _ _ _ Hd)
    as (Hwd & Hsub & Hnew & _).
  destruct (remove_loop_run env files (elements (dir w0)) w3)
    as (w4 & Hr' & Hwr & Hsubr & Hrm & _).
  rewrite Hr in Hr'. simplify_eq.
  assert (Hdir2 : dir w2 = dir w)
    by (destruct Hs1 as (? & _); subst w2; cbn; congruence).
  assert (Hl02 : log_grows w0 w2).
  { etrans; [by apply steady_log_grows|].
    etrans; [apply working_log_grows, working_logged
            | apply steady_log_grows, steady_tick]. }
  assert (Hl23 : log_grows w2 w3) by (by apply working_log_grows).
  assert (Hl34 : log_grows w3 w4) by (by apply working_log_grows).
  assert (Hentry : ∀ n, n ∈ dir w → entry env n = Some n).
  { intros n Hn. by apply entry_plain, Hentries, elem_of_elements. }
  assert (Hkept : ∀ n, n ∈ dir w3 → n ∈ names files → n ∈ dir w4).
  { intros n Hn3 Hnames. destruct (decide (n ∈ dir w4)) as [?|Hout]; [done|].
    destruct (Hrm n Hn3 Hout) as (l & Hin & Hsl & Hel).
    apply elem_of_elements in Hin. rewrite Hdir0 in Hin.
    rewrite (Hentry l Hin) in Hel. simplify_eq.
    apply some_named_names in Hnames. congruence. }
  split_and!.
  - intros n (f & Hf & <-)%elem_of_names Hout.
    destruct (download_loop_log env files _ _ f (name f) Hd Hf)
      as [Hin|[e Hlogd]]; [by apply entry_plain, Hplain | |].
    + exfalso. apply Hout, Hkept; [done|]. apply elem_of_names. eauto.
    + exists e. apply (written_later w w0); [done | by etrans; [|etrans]|].
      apply (written_later w0 w2); [done | by etrans |].
      by apply (written_earlier w2 w3).
  - intros n Hn4 Hnot.
    assert (Hn : n ∈ dir w).
    { destruct (Hnew n (Hsubr n Hn4)) as [?|(f & Hf & Hfn)]; [congruence|].
      rewrite (entry_plain env _ (Hplain f Hf)) in Hfn. simplify_eq.
      exfalso. apply Hnot, elem_of_names. eauto. }
    split; [done|].
    assert (Hsn : some_named files n = false).
    { destruct (some_named files n) eqn:E; [|done].
      by apply some_named_names in E. }
    destruct (remove_loop_log env files _ _ _ n n Hr) as [?|[e Hlogr]];
      [apply elem_of_elements; by rewrite Hdir0 | done | by apply Hentry
      | done |].
    exists e. apply (written_later w w0); [done | by etrans; [|etrans]|].
    apply (written_later w0 w2); [done | by etrans |].
    by apply (written_later w2 w3).
  - intros n Hn Hnames. apply Hkept; [|done]. apply Hsub. by rewrite Hdir2.
Qed.

Lemma every_discrepancy_is_logged_witness :
  ∃ w', syncFiles rough_env 5 (start local_before)
        = (Ok (Some [media "a.jpg"; media "b.mp4"]), w') ∧
        (∃ e, (WARN, Failed_to_download_skipping "b.mp4" e)
              ∈ written (start local_before) w') ∧
        (∃ e, (WARN, Failed_to_remove "c.jpg" e)
              ∈ written (start local_before) w') ∧
        "a.jpg" ∈ dir w'.
Proof.
  destruct (syncFiles rough_env 5 (start local_before)) as [r w'] eqn:H.
  assert (Hr : r = Ok (Some [media "a.jpg"; media "b.mp4"]))
    by (vm_compute in H; by simplify_eq).
  subst r. exists w'. split; [done|].
  destruct (every_discrepancy_is_logged rough_env 5 (start local_before) w'
              [media "a.jpg"; media "b.mp4"]) as (H1 & H2 & H3);
    [vm_compute; repeat constructor.. | done |].
  split_and!.
  - apply H1; [vm_compute; reflexivity|].
    vm_compute in H. simplify_eq. intros Hin. by vm_compute in Hin.
  - apply H2; [vm_compute in H; simplify_eq; vm_compute; reflexivity|].
    intros Hin. by vm_compute in Hin.
  - apply H3; vm_compute; reflexivity.
Defined.

(** X18. A pass over a directory that holds exactly the listed (plain)
    names asks for no download and no removal: after the listing it reads
    the directory and returns, having logged the count of valid files and
    nothing else. *)
Theorem mirrored_directory_is_left_alone
    (env : Env) (fuel : nat) (w w1 : world) (files : list RemoteFile) :
  listFiles env fuel w = (Ok files, w1) →
  fs_readdir_error env (clock w1) = None →
  Forall (λ file, plain (name file) = true) files →
  dir w = names files →
  syncFiles env fuel w
  = (Ok (Some files),
     tick (logged INFO (Found_valid_files (length files)) w1)).
Proof.
  intros Hl He Hplain Hdir. rewrite syncFiles_unfold.
  pose proof (listFiles_steady env fuel _ _ _ Hl) as (Hd1 & _).
  unfold sync_attempt.
  rewrite (bind_ok _ _ _ _ _ Hl), (bind_ok _ _ _ _ _ (logger_run _ _ _)).
  unfold bind at 1, readdir. cbn. rewrite He.
  set (w2 := tick (logged INFO (Found_valid_files (length files)) w1)).
  assert (Hpresent :
    Forall (λ file, exists_at env (local_path env (name file)) w2 = true)
           files).
  { rewrite Forall_forall in Hplain. apply Forall_forall. intros f Hf.
    rewrite (exists_at_entry env (name f)) by (by apply entry_plain, Hplain).
    apply bool_decide_eq_true. subst w2. cbn. rewrite Hd1, Hdir.
    apply elem_of_names. eauto. }
  assert (Hlisted :
    Forall (λ l, some_named files l = true) (elements (dir w1))).
  { apply Forall_forall. intros l Hin. apply elem_of_elements in Hin.
    apply some_named_names. by rewrite <- Hdir, <- Hd1. }
  rewrite (bind_ok _ _ _ _ _ (download_loop_present env files w2 Hpresent)).
  by rewrite (bind_ok _ _ _ _ _ (remove_loop_listed env files _ w2 Hlisted)).
Qed.

Lemma mirrored_directory_is_left_alone_witness :
  ∃ w', syncFiles mirror_env 5 (start {[ "a.jpg"; "b.mp4" ]})
        = (Ok (Some [media "a.jpg"; media "b.mp4"]), w') ∧
        clock w' = 2%nat ∧ log w' = [(INFO, Found_valid_files 2)].
Proof.
  eexists. split.
  - apply (mirrored_directory_is_left_alone mirror_env 5
             (start {[ "a.jpg"; "b.mp4" ]})
             (set_clock 1 (start {[ "a.jpg"; "b.mp4" ]}))).
    + vm_compute. reflexivity.
    + reflexivity.
    + repeat constructor.
    + vm_compute. reflexivity.
  - split; reflexivity.
Defined.



End DriveFacts.
